(** * BioFlow: sequences, k-mer counting and pairwise alignment

    A shallow embedding of the Python package [bioflow]
    ([sequence.py], [kmer.py], [alignment.py]) together with the
    properties its specification states about it.

    Modelling conventions.
    - A Python [str] is a [list ascii], read as a string of code points
      below 256; [s.upper()] follows Python's [str.upper()] on them.
    - A Python [int] is a [Z]; loop counters produced by [range] or guarded
      by [> 0] are [nat].
    - A raised exception is the [Err] case of [result]; [IndexError] is what a
      list or string subscript raises out of range.
    - An object mutated in place ([KMerCounter]) is threaded through a small
      state-and-exception monad: the state survives a raise.
    - A [while] loop takes a fuel argument; running out of it is the
      distinguished [OutOfFuel] outcome, which the theorems exclude. *)

From Stdlib Require Import ZArith Ascii String List Lia QArith.
From stdpp Require Import base decidable option list gmap strings.

Abbreviation str := (list ascii).

(** A string literal as a Python [str]. *)
Definition lit (s : string) : str := list_ascii_of_string s.

(** ** Exceptions *)

Inductive exn : Type :=
| ValueError
| EmptySequenceError
| InvalidBaseError (position : nat) (found : ascii)
| IndexError
| OutOfFuel.

Inductive result (A : Type) : Type :=
| Ok (a : A)
| Err (e : exn).
Arguments Ok {A} a.
Arguments Err {A} e.

Global Instance result_ret : MRet result := λ A a, Ok a.
Global Instance result_bind : MBind result := λ A B f m,
  match m with
  | Ok a => f a
  | Err e => Err e
  end.

(** [for x in l: s = body(s, x)] with exceptions. *)
Fixpoint foldM {S A : Type} (body : S → A → result S) (l : list A) (s : S)
  : result S :=
  match l with
  | [] => Ok s
  | x :: l' => s' ← body s x; foldM body l' s'
  end.

(** [range(a, b)] for loop counters. *)
Definition range (a b : nat) : list nat := seq a (b - a).

(** [l[i]] for [0 <= i]. *)
Definition get {A} (l : list A) (i : nat) : result A :=
  match l !! i with
  | Some x => Ok x
  | None => Err IndexError
  end.

(** [l[i] = x] for [0 <= i]. *)
Definition set {A} (l : list A) (i : nat) (x : A) : result (list A) :=
  if decide (i < length l) then Ok (<[i := x]> l) else Err IndexError.

(** [M[i][j]]. *)
Definition get2 {A} (M : list (list A)) (i j : nat) : result A :=
  row ← get M i; get row j.

(** [M[i][j] = x]: the row object is updated in place. *)
Definition set2 {A} (M : list (list A)) (i j : nat) (x : A)
  : result (list (list A)) :=
  row ← get M i; row' ← set row j x; set M i row'.

(** [[x] * n]. *)
Definition repeat_list {A} (x : A) (n : nat) : list A := replicate n x.

(** ** Strings *)

(** [c.upper()] for one code point below 256: the letters [a] to [z] and
    the lower-case letters of the Latin-1 supplement (224 to 254 without the
    division sign 247) move down by 32, the sharp s (223) becomes [SS], every
    other code point is its own upper-case form. The micro sign (181) and
    the y with diaeresis (255), whose upper-case forms lie above 255, are
    left as they are: they stand for those forms, which no other code point
    below 256 has. *)
Definition upper_char (c : ascii) : str :=
  let n := nat_of_ascii c in
  if (97 <=? n)%nat && (n <=? 122)%nat then [ascii_of_nat (n - 32)]
  else if (n =? 223)%nat then ["S"; "S"]%char
  else if (224 <=? n)%nat && (n <=? 254)%nat && negb (n =? 247)%nat
  then [ascii_of_nat (n - 32)]
  else [c].

(** [s.upper()]: the upper-case forms of the code points, joined; the length
    grows where a sharp s occurs. *)
Definition upper (s : str) : str := s ≫= upper_char.

(** [c in s]. *)
Definition contains (c : ascii) (s : str) : bool := bool_decide (c ∈ s).

(** Clamp of a slice bound, as Python does it for a step of 1. *)
Definition slice_bound (len : Z) (a : Z) : Z :=
  if (a <? 0)%Z then Z.max 0 (a + len) else Z.min a len.

(** [s[a:b]]. *)
Definition slice {A} (s : list A) (a b : Z) : list A :=
  let len := Z.of_nat (length s) in
  let a' := slice_bound len a in
  let b' := slice_bound len b in
  take (Z.to_nat (b' - a')) (drop (Z.to_nat a') s).

(** [s1 < s2] on strings: lexicographic on code points. *)
Fixpoint str_lt (s1 s2 : str) : bool :=
  match s1, s2 with
  | _, [] => false
  | [], _ :: _ => true
  | c1 :: r1, c2 :: r2 =>
      match Nat.compare (nat_of_ascii c1) (nat_of_ascii c2) with
      | Lt => true
      | Gt => false
      | Eq => str_lt r1 r2
      end
  end.

(** ** sequence.py *)

Inductive SequenceType : Type := DNA | RNA | UNKNOWN.

Global Instance SequenceType_eq_dec : EqDecision SequenceType.
Proof. solve_decision. Defined.

Definition VALID_DNA_BASES : gset ascii :=
  {[ "A"; "C"; "G"; "T"; "N" ]}%char.
Definition VALID_RNA_BASES : gset ascii :=
  {[ "A"; "C"; "G"; "U"; "N" ]}%char.

Module Sequence.

Record t : Type := mk {
  bases : str;
  id : option str;
  description : option str;
  seq_type : SequenceType;
  _validated : bool
}.

Definition valid_bases (ty : SequenceType) : gset ascii :=
  if decide (ty ≠ RNA) then VALID_DNA_BASES else VALID_RNA_BASES.

(** [for i, base in enumerate(self.bases)] from position [i]. *)
Fixpoint _validate_from (i : nat) (bs : str) (valid : gset ascii)
  : result unit :=
  match bs with
  | [] => Ok tt
  | base :: rest =>
      if bool_decide (base ∈ valid) then _validate_from (S i) rest valid
      else Err (InvalidBaseError i base)
  end.

Definition _validate (bs : str) (ty : SequenceType) : result unit :=
  _validate_from 0 bs (valid_bases ty).

(** The dataclass constructor followed by [__post_init__]. *)
Definition init (bases : str) (id description : option str)
    (seq_type : SequenceType) (_validated : bool) : result t :=
  let bases := upper bases in
  if decide (length bases = 0) then Err EmptySequenceError
  else if negb _validated then
    _ ← _validate bases seq_type;
    Ok (mk bases id description seq_type true)
  else Ok (mk bases id description seq_type _validated).

Definition new (bases : str) : result t :=
  init bases None None DNA false.

Definition with_metadata (bases id description : str)
    (seq_type : SequenceType) : result t :=
  init bases (Some id) (Some description) seq_type false.

Definition is_valid (self : t) : bool :=
  forallb (λ b, bool_decide (b ∈ valid_bases (seq_type self))) (bases self).

Definition len (self : t) : nat := length (bases self).

Definition complement_base (c : ascii) : ascii :=
  let comp_map : gmap ascii ascii :=
    {[ "A" := "T"; "T" := "A"; "C" := "G"; "G" := "C"; "N" := "N" ]}%char in
  default "N"%char (comp_map !! c).

Definition complement (self : t) : result t :=
  if decide (seq_type self ≠ DNA) then Err ValueError
  else
    let comp_bases := map complement_base (bases self) in
    init comp_bases (id self) (description self) (seq_type self) true.

Definition reverse (self : t) : result t :=
  init (rev (bases self)) (id self) (description self) (seq_type self) true.

Definition reverse_complement (self : t) : result t :=
  if decide (seq_type self ≠ DNA) then Err ValueError
  else c ← complement self; reverse c.

(** [s.replace('T', 'U')] for single characters. *)
Definition replace_char (old new : ascii) (s : str) : str :=
  map (λ c, if decide (c = old) then new else c) s.

Definition transcribe (self : t) : result t :=
  if decide (seq_type self ≠ DNA) then Err ValueError
  else
    let rna_bases := replace_char "T" "U" (bases self) in
    init rna_bases (id self) (description self) RNA true.

(** The class invariant: what [__post_init__] establishes. *)
Definition ok (self : t) : Prop :=
  bases self ≠ [] ∧ is_valid self = true.

End Sequence.

(** ** kmer.py *)

Module KMer.

Record t : Type := mk {
  sequence : str;
  k : Z
}.

(** The dataclass constructor followed by [__post_init__]. *)
Definition init (sequence : str) : result t :=
  let sequence := upper sequence in
  let k := Z.of_nat (length sequence) in
  if decide (k = 0%Z) then Err ValueError else Ok (mk sequence k).

Definition new (sequence : str) : result t := init sequence.

Definition reverse_complement (self : t) : result t :=
  let comp_map : gmap ascii ascii :=
    {[ "A" := "T"; "T" := "A"; "C" := "G"; "G" := "C"; "N" := "N" ]}%char in
  let rc := map (λ c, default "N"%char (comp_map !! c)) (rev (sequence self)) in
  init rc.

Definition canonical (self : t) : result t :=
  rc ← reverse_complement self;
  if str_lt (sequence self) (sequence rc) then Ok self else Ok rc.

(** The class invariant: what [__post_init__] establishes. *)
Definition ok (self : t) : Prop :=
  sequence self ≠ [] ∧ k self = Z.of_nat (length (sequence self)).

End KMer.

Module KMerCounter.

Record t : Type := mk {
  k : Z;
  counts : gmap str Z;
  total_kmers : Z
}.

Definition init (k : Z) (counts : gmap str Z) (total_kmers : Z) : result t :=
  if decide (k ≤ 0)%Z then Err ValueError else Ok (mk k counts total_kmers).

Definition new (k : Z) : result t := init k ∅ 0%Z.

(** A method that mutates [self]: the outcome and the counter afterwards. *)
Definition M (A : Type) : Type := t → result A * t.

Definition ret {A} (a : A) : M A := λ self, (Ok a, self).
Definition raise {A} (e : exn) : M A := λ self, (Err e, self).
Definition bind {A B} (m : M A) (f : A → M B) : M B := λ self,
  match m self with
  | (Ok a, self') => f a self'
  | (Err e, self') => (Err e, self')
  end.

(** [for x in l: body(x)] on a mutable counter. *)
Fixpoint for_each {A} (l : list A) (body : A → M unit) : M unit :=
  match l with
  | [] => ret tt
  | x :: l' => bind (body x) (λ _, for_each l' body)
  end.

(** [self.counts[kmer] = self.counts.get(kmer, 0) + count;
    self.total_kmers += count]. *)
Definition bump (kmer : str) (count : Z) : M unit := λ self,
  let counts' :=
    <[kmer := (default 0 (counts self !! kmer) + count)%Z]> (counts self) in
  (Ok tt, mk (k self) counts' (total_kmers self + count)%Z).

Definition add (kmer : str) (count : Z) : M unit := λ self,
  if decide (Z.of_nat (length kmer) ≠ k self) then raise ValueError self
  else if decide (count ≤ 0)%Z then raise ValueError self
  else bump (upper kmer) count self.

Definition count_kmers (sequence : str) : M unit := λ self,
  let sequence := upper sequence in
  for_each (seqZ 0 (Z.of_nat (length sequence) - k self + 1))
    (λ i self,
       let kmer := slice sequence i (i + k self) in
       if negb (contains "N" kmer) then add kmer 1 self else ret tt self)
    self.

Definition count_from_sequence (sequence : Sequence.t) : M unit :=
  count_kmers (Sequence.bases sequence).

(** [other.counts.items()] is traversed in the order of [map_to_list]; every
    key is visited once, so the outcome does not depend on the order, nor on
    [other] being [self]. *)
Definition merge (other : t) : M unit := λ self,
  if decide (k self ≠ k other) then raise ValueError self
  else for_each (map_to_list (counts other))
         (λ '(kmer, count), bump kmer count) self.

(** Sum of all stored counts. *)
Definition sum_counts (m : gmap str Z) : Z :=
  map_fold (λ _ v acc, (v + acc)%Z) 0%Z m.

(** The counter invariant: keys of length [k], positive counts, and
    [total_kmers] the sum of the counts. *)
Definition inv (self : t) : Prop :=
  map_Forall (λ kmer v, Z.of_nat (length kmer) = k self ∧ (0 < v)%Z)
    (counts self) ∧
  total_kmers self = sum_counts (counts self).

End KMerCounter.

(** [s1 <= s2] on strings. *)
Definition str_le (s1 s2 : str) : bool :=
  str_lt s1 s2 || bool_decide (s1 = s2).

(** The windows of width [k] of [s], left to right, and those among them
    that hold no ['N']. *)
Definition windows (s : str) (k : Z) : list str :=
  (λ i, slice s i (i + k)) <$> seqZ 0 (Z.of_nat (length s) - k + 1).

Definition clean_windows (s : str) (k : Z) : list str :=
  filter (λ w, "N"%char ∉ w) (windows s k).

(** What a call that builds a counter and returns it yields. *)
Definition returning (r : result unit * KMerCounter.t) : result KMerCounter.t :=
  match r with
  | (Ok _, counter) => Ok counter
  | (Err e, _) => Err e
  end.

Definition count_kmers (sequence : Sequence.t) (k : Z) : result KMerCounter.t :=
  if decide (k ≤ 0)%Z then Err ValueError
  else if decide (k > Z.of_nat (Sequence.len sequence))%Z then Err ValueError
  else
    counter ← KMerCounter.new k;
    returning (KMerCounter.count_from_sequence sequence counter).

Definition count_kmers_canonical (sequence : Sequence.t) (k : Z)
  : result KMerCounter.t :=
  if decide (k ≤ 0)%Z then Err ValueError
  else if decide (k > Z.of_nat (Sequence.len sequence))%Z then Err ValueError
  else
    counter ← KMerCounter.new k;
    let bs := Sequence.bases sequence in
    returning
      (KMerCounter.for_each (seqZ 0 (Z.of_nat (length bs) - k + 1))
         (λ i self,
            let kmer_str := slice bs i (i + k) in
            if negb (contains "N" kmer_str) then
              match kmer ← KMer.init kmer_str; KMer.canonical kmer with
              | Ok canonical => KMerCounter.add (KMer.sequence canonical) 1 self
              | Err e => KMerCounter.raise e self
              end
            else KMerCounter.ret tt self)
         counter).

(** ** alignment.py *)

Inductive AlignDirection : Type := DIAGONAL | UP | LEFT | STOP.

Inductive AlignmentType : Type := GLOBAL | LOCAL | SEMI_GLOBAL.

Global Instance AlignDirection_eq_dec : EqDecision AlignDirection.
Proof. solve_decision. Defined.

Module ScoringMatrix.

Record t : Type := mk {
  match_score : Z;
  mismatch_penalty : Z;
  gap_open_penalty : Z;
  gap_extend_penalty : Z
}.

(** The dataclass constructor followed by [__post_init__]. *)
Definition init (match_score mismatch_penalty gap_open_penalty
    gap_extend_penalty : Z) : result t :=
  if decide (match_score ≤ 0)%Z then Err ValueError
  else if decide (mismatch_penalty > 0)%Z then Err ValueError
  else if decide (gap_open_penalty > 0)%Z then Err ValueError
  else if decide (gap_extend_penalty > 0)%Z then Err ValueError
  else Ok (mk match_score mismatch_penalty gap_open_penalty
             gap_extend_penalty).

Definition default_dna : result t := init 2 (-1) (-2) (-1).



Definition score (self : t) (base1 base2 : ascii) : Z :=
  if decide (base1 = base2) then match_score self
  else mismatch_penalty self.

Definition gap_penalty (self : t) : Z := gap_open_penalty self.

End ScoringMatrix.

Module Alignment.

Record t : Type := mk {
  aligned_seq1 : str;
  aligned_seq2 : str;
  score : Z;
  start1 : nat;
  end1 : nat;
  start2 : nat;
  end2 : nat;
  alignment_type : AlignmentType;
  identity : Q
}.

(** [sum(1 for a, b in zip(..) if a == b and a != '-')]. *)
Definition matches (a1 a2 : str) : nat :=
  length (filter (λ ab : ascii * ascii, ab.1 = ab.2 ∧ ab.1 ≠ "-"%char)
            (zip a1 a2)).

(** The quotient is kept exact; the source rounds it to a float. *)
Definition _calculate_identity (a1 a2 : str) : Q :=
  if decide (length a1 = 0) then 0%Q
  else (inject_Z (Z.of_nat (matches a1 a2))
        / inject_Z (Z.of_nat (length a1)))%Q.

(** The dataclass constructor followed by [__post_init__]. *)
Definition init (aligned_seq1 aligned_seq2 : str) (score : Z)
    (start1 end1 start2 end2 : nat) (alignment_type : AlignmentType)
  : result t :=
  if decide (length aligned_seq1 ≠ length aligned_seq2) then Err ValueError
  else Ok (mk aligned_seq1 aligned_seq2 score start1 end1 start2 end2
             alignment_type (_calculate_identity aligned_seq1 aligned_seq2)).

Definition new (aligned_seq1 aligned_seq2 : str) (score : Z)
    (alignment_type : AlignmentType) : result t :=
  init aligned_seq1 aligned_seq2 score 0 (length aligned_seq1)
    0 (length aligned_seq2) alignment_type.

Definition with_positions (aligned_seq1 aligned_seq2 : str) (score : Z)
    (start1 end1 start2 end2 : nat) (alignment_type : AlignmentType)
  : result t :=
  init aligned_seq1 aligned_seq2 score start1 end1 start2 end2
    alignment_type.

(** [s.count('-')]. *)
Definition count_char (c : ascii) (s : str) : nat :=
  length (filter (λ x, x = c) s).

Definition gaps_seq1 (self : t) : nat := count_char "-" (aligned_seq1 self).
Definition gaps_seq2 (self : t) : nat := count_char "-" (aligned_seq2 self).
Definition total_gaps (self : t) : nat := gaps_seq1 self + gaps_seq2 self.

End Alignment.

(** The chain of [if ... > best] tests of the local fill. *)
Definition sw_choose (diag up left : Z) : Z * AlignDirection :=
  let best := 0%Z in
  let direction := STOP in
  let '(best, direction) :=
    if decide (diag > best)%Z then (diag, DIAGONAL) else (best, direction) in
  let '(best, direction) :=
    if decide (up > best)%Z then (up, UP) else (best, direction) in
  let '(best, direction) :=
    if decide (left > best)%Z then (left, LEFT) else (best, direction) in
  (best, direction).

(** The chain of [if ... > best] tests of the global fill. *)
Definition nw_choose (diag up left : Z) : Z * AlignDirection :=
  let best := diag in
  let direction := DIAGONAL in
  let '(best, direction) :=
    if decide (up > best)%Z then (up, UP) else (best, direction) in
  let '(best, direction) :=
    if decide (left > best)%Z then (left, LEFT) else (best, direction) in
  (best, direction).

(** The local variables that the fill loops of [smith_waterman] update. *)
Record sw_state : Type := mk_sw {
  sw_H : list (list Z);
  sw_traceback : list (list AlignDirection);
  sw_max_score : Z;
  sw_max_i : nat;
  sw_max_j : nat
}.

(** Body of the inner loop of [smith_waterman]. *)
Definition sw_cell (s1 s2 : str) (scoring : ScoringMatrix.t) (i : nat)
    (st : sw_state) (j : nat) : result sw_state :=
  base1 ← get s1 (i - 1);
  base2 ← get s2 (j - 1);
  let match_score := ScoringMatrix.score scoring base1 base2 in
  h_diag ← get2 (sw_H st) (i - 1) (j - 1);
  let diag := (h_diag + match_score)%Z in
  h_up ← get2 (sw_H st) (i - 1) j;
  let up := (h_up + ScoringMatrix.gap_penalty scoring)%Z in
  h_left ← get2 (sw_H st) i (j - 1);
  let left := (h_left + ScoringMatrix.gap_penalty scoring)%Z in
  let '(best, direction) := sw_choose diag up left in
  H ← set2 (sw_H st) i j best;
  traceback ← set2 (sw_traceback st) i j direction;
  if decide (best > sw_max_score st)%Z
  then Ok (mk_sw H traceback best i j)
  else Ok (mk_sw H traceback (sw_max_score st) (sw_max_i st) (sw_max_j st)).

(** Initialisation and the two nested fill loops of [smith_waterman]. *)
Definition sw_fill (s1 s2 : str) (scoring : ScoringMatrix.t)
  : result sw_state :=
  let m := length s1 in
  let n := length s2 in
  let H := repeat_list (repeat_list 0%Z (n + 1)) (m + 1) in
  let traceback := repeat_list (repeat_list STOP (n + 1)) (m + 1) in
  foldM (λ st i, foldM (sw_cell s1 s2 scoring i) (range 1 (n + 1)) st)
    (range 1 (m + 1)) (mk_sw H traceback 0 0 0).

(** The [while i > 0 and j > 0] loop of [_traceback_local]. *)
Fixpoint _traceback_local_loop (fuel : nat) (seq1 seq2 : str)
    (traceback : list (list AlignDirection)) (i j : nat)
    (aligned1 aligned2 : str) : result (str * str * nat * nat) :=
  if decide (0 < i ∧ 0 < j) then
    match fuel with
    | 0 => Err OutOfFuel
    | S fuel' =>
        direction ← get2 traceback i j;
        match direction with
        | STOP => Ok (aligned1, aligned2, i, j)
        | DIAGONAL =>
            c1 ← get seq1 (i - 1);
            c2 ← get seq2 (j - 1);
            _traceback_local_loop fuel' seq1 seq2 traceback (i - 1) (j - 1)
              (c1 :: aligned1) (c2 :: aligned2)
        | UP =>
            c1 ← get seq1 (i - 1);
            _traceback_local_loop fuel' seq1 seq2 traceback (i - 1) j
              (c1 :: aligned1) ("-"%char :: aligned2)
        | LEFT =>
            c2 ← get seq2 (j - 1);
            _traceback_local_loop fuel' seq1 seq2 traceback i (j - 1)
              ("-"%char :: aligned1) (c2 :: aligned2)
        end
    end
  else Ok (aligned1, aligned2, i, j).

Definition _traceback_local (seq1 seq2 : str)
    (traceback : list (list AlignDirection)) (start_i start_j : nat)
  : result (str * str * nat * nat) :=
  _traceback_local_loop (start_i + start_j) seq1 seq2 traceback
    start_i start_j [] [].

Definition scoring_or_default (scoring : option ScoringMatrix.t)
  : result ScoringMatrix.t :=
  match scoring with
  | None => ScoringMatrix.default_dna
  | Some scoring => Ok scoring
  end.

Definition smith_waterman (seq1 seq2 : Sequence.t)
    (scoring : option ScoringMatrix.t) : result Alignment.t :=
  scoring ← scoring_or_default scoring;
  if decide (Sequence.len seq1 = 0 ∨ Sequence.len seq2 = 0)
  then Err ValueError
  else
    let s1 := Sequence.bases seq1 in
    let s2 := Sequence.bases seq2 in
    st ← sw_fill s1 s2 scoring;
    '(aligned1, aligned2, start1, start2) ←
      _traceback_local s1 s2 (sw_traceback st) (sw_max_i st) (sw_max_j st);
    Alignment.with_positions aligned1 aligned2 (sw_max_score st)
      start1 (sw_max_i st) start2 (sw_max_j st) LOCAL.

(** Body of the inner fill loop of [needleman_wunsch]; the state is the pair
    of the score matrix and the traceback matrix. *)
Definition nw_cell (s1 s2 : str) (scoring : ScoringMatrix.t) (i : nat)
    (st : list (list Z) * list (list AlignDirection)) (j : nat)
  : result (list (list Z) * list (list AlignDirection)) :=
  let '(H, traceback) := st in
  base1 ← get s1 (i - 1);
  base2 ← get s2 (j - 1);
  let match_score := ScoringMatrix.score scoring base1 base2 in
  h_diag ← get2 H (i - 1) (j - 1);
  let diag := (h_diag + match_score)%Z in
  h_up ← get2 H (i - 1) j;
  let up := (h_up + ScoringMatrix.gap_penalty scoring)%Z in
  h_left ← get2 H i (j - 1);
  let left := (h_left + ScoringMatrix.gap_penalty scoring)%Z in
  let '(best, direction) := nw_choose diag up left in
  H ← set2 H i j best;
  traceback ← set2 traceback i j direction;
  Ok (H, traceback).

(** Initialisation of the borders and the fill loops of
    [needleman_wunsch]. *)
Definition nw_fill (s1 s2 : str) (scoring : ScoringMatrix.t)
  : result (list (list Z) * list (list AlignDirection)) :=
  let m := length s1 in
  let n := length s2 in
  let gap := ScoringMatrix.gap_penalty scoring in
  let H := repeat_list (repeat_list 0%Z (n + 1)) (m + 1) in
  H ← foldM (λ H i, set2 H i 0 (Z.of_nat i * gap)%Z) (range 0 (m + 1)) H;
  H ← foldM (λ H j, set2 H 0 j (Z.of_nat j * gap)%Z) (range 0 (n + 1)) H;
  let traceback := repeat_list (repeat_list STOP (n + 1)) (m + 1) in
  traceback ← foldM (λ tb i, set2 tb i 0 UP) (range 1 (m + 1)) traceback;
  traceback ← foldM (λ tb j, set2 tb 0 j LEFT) (range 1 (n + 1)) traceback;
  foldM (λ st i, foldM (nw_cell s1 s2 scoring i) (range 1 (n + 1)) st)
    (range 1 (m + 1)) (H, traceback).

(** The [while i > 0 or j > 0] loop of [_traceback_global]. *)
Fixpoint _traceback_global_loop (fuel : nat) (seq1 seq2 : str)
    (traceback : list (list AlignDirection)) (i j : nat)
    (aligned1 aligned2 : str) : result (str * str) :=
  if decide (0 < i ∨ 0 < j) then
    match fuel with
    | 0 => Err OutOfFuel
    | S fuel' =>
        if decide (i = 0) then
          c2 ← get seq2 (j - 1);
          _traceback_global_loop fuel' seq1 seq2 traceback i (j - 1)
            ("-"%char :: aligned1) (c2 :: aligned2)
        else if decide (j = 0) then
          c1 ← get seq1 (i - 1);
          _traceback_global_loop fuel' seq1 seq2 traceback (i - 1) j
            (c1 :: aligned1) ("-"%char :: aligned2)
        else
          direction ← get2 traceback i j;
          match direction with
          | DIAGONAL =>
              c1 ← get seq1 (i - 1);
              c2 ← get seq2 (j - 1);
              _traceback_global_loop fuel' seq1 seq2 traceback (i - 1) (j - 1)
                (c1 :: aligned1) (c2 :: aligned2)
          | UP =>
              c1 ← get seq1 (i - 1);
              _traceback_global_loop fuel' seq1 seq2 traceback (i - 1) j
                (c1 :: aligned1) ("-"%char :: aligned2)
          | LEFT =>
              c2 ← get seq2 (j - 1);
              _traceback_global_loop fuel' seq1 seq2 traceback i (j - 1)
                ("-"%char :: aligned1) (c2 :: aligned2)
          | STOP => Ok (aligned1, aligned2)
          end
    end
  else Ok (aligned1, aligned2).

Definition _traceback_global (seq1 seq2 : str)
    (traceback : list (list AlignDirection)) (m n : nat) : result (str * str) :=
  _traceback_global_loop (m + n) seq1 seq2 traceback m n [] [].

Definition needleman_wunsch (seq1 seq2 : Sequence.t)
    (scoring : option ScoringMatrix.t) : result Alignment.t :=
  scoring ← scoring_or_default scoring;
  if decide (Sequence.len seq1 = 0 ∨ Sequence.len seq2 = 0)
  then Err ValueError
  else
    let m := Sequence.len seq1 in
    let n := Sequence.len seq2 in
    let s1 := Sequence.bases seq1 in
    let s2 := Sequence.bases seq2 in
    '(H, traceback) ← nw_fill s1 s2 scoring;
    '(aligned1, aligned2) ← _traceback_global s1 s2 traceback m n;
    score ← get2 H m n;
    Alignment.new aligned1 aligned2 score GLOBAL.

(** [max(0, diag, up, left)]. *)
Definition max4 (a b c d : Z) : Z := Z.max (Z.max (Z.max a b) c) d.

(** The local variables that the loops of [alignment_score_only] update. *)
Record so_state : Type := mk_so {
  so_prev_row : list Z;
  so_curr_row : list Z;
  so_max_score : Z
}.

(** Body of the inner loop of [alignment_score_only]. *)
Definition so_cell (s1 s2 : str) (scoring : ScoringMatrix.t) (i : nat)
    (st : so_state) (j : nat) : result so_state :=
  base1 ← get s1 (i - 1);
  base2 ← get s2 (j - 1);
  let match_score := ScoringMatrix.score scoring base1 base2 in
  h_diag ← get (so_prev_row st) (j - 1);
  let diag := (h_diag + match_score)%Z in
  h_up ← get (so_prev_row st) j;
  let up := (h_up + ScoringMatrix.gap_penalty scoring)%Z in
  h_left ← get (so_curr_row st) (j - 1);
  let left := (h_left + ScoringMatrix.gap_penalty scoring)%Z in
  let best := max4 0 diag up left in
  curr_row ← set (so_curr_row st) j best;
  if decide (best > so_max_score st)%Z
  then Ok (mk_so (so_prev_row st) curr_row best)
  else Ok (mk_so (so_prev_row st) curr_row (so_max_score st)).

(** Body of the outer loop of [alignment_score_only]: reset the current row,
    fill it, swap the two rows. *)
Definition so_row (s1 s2 : str) (scoring : ScoringMatrix.t) (n : nat)
    (st : so_state) (i : nat) : result so_state :=
  let st := mk_so (so_prev_row st) (repeat_list 0%Z (n + 1))
              (so_max_score st) in
  st ← foldM (so_cell s1 s2 scoring i) (range 1 (n + 1)) st;
  Ok (mk_so (so_curr_row st) (so_prev_row st) (so_max_score st)).

Definition alignment_score_only (seq1 seq2 : Sequence.t)
    (scoring : option ScoringMatrix.t) : result Z :=
  scoring ← scoring_or_default scoring;
  if decide (Sequence.len seq1 = 0 ∨ Sequence.len seq2 = 0)
  then Err ValueError
  else
    let m := Sequence.len seq1 in
    let n := Sequence.len seq2 in
    let s1 := Sequence.bases seq1 in
    let s2 := Sequence.bases seq2 in
    let prev_row := repeat_list 0%Z (n + 1) in
    let curr_row := repeat_list 0%Z (n + 1) in
    st ← foldM (so_row s1 s2 scoring n) (range 1 (m + 1))
           (mk_so prev_row curr_row 0);
    Ok (so_max_score st).

(** [for i, target in enumerate(targets)] from index [i], appending to
    [results]. *)
Fixpoint align_each (query : Sequence.t) (scoring : ScoringMatrix.t)
    (i : nat) (targets : list Sequence.t)
    (results : list (nat * Alignment.t)) : result (list (nat * Alignment.t)) :=
  match targets with
  | [] => Ok results
  | target :: rest =>
      alignment ← smith_waterman query target (Some scoring);
      align_each query scoring (S i) rest (results ++ [(i, alignment)])
  end.

Definition align_against_multiple (query : Sequence.t)
    (targets : list Sequence.t) (scoring : option ScoringMatrix.t)
  : result (list (nat * Alignment.t)) :=
  scoring ← scoring_or_default scoring;
  if decide (length targets = 0) then Err ValueError
  else align_each query scoring 0 targets [].

(** [max(l, key=key)] on a non-empty list whose first element is [x]: a later
    element replaces the current one only when its key is strictly larger. *)
Definition max_by {A} (key : A → Z) (x : A) (l : list A) : A :=
  foldl (λ best y, if decide (key y > key best)%Z then y else best) x l.

Definition find_best_alignment (query : Sequence.t)
    (targets : list Sequence.t) (scoring : option ScoringMatrix.t)
  : result (option (nat * Alignment.t)) :=
  alignments ← align_against_multiple query targets scoring;
  match alignments with
  | [] => Ok None
  | first :: others =>
      Ok (Some (max_by (λ x, Alignment.score x.2) first others))
  end.

(** ** Vocabulary of the alignment properties *)

(** A matrix of [r] rows and [c] columns. *)
Definition dims {A} (M : list (list A)) (r c : nat) : Prop :=
  length M = r ∧ Forall (λ row, length row = c) M.

(** [s.replace('-', '')]. *)
Definition degap (s : str) : str := filter (λ c, c ≠ "-"%char) s.

Module ScoringSpec.

(** What [ScoringMatrix.__post_init__] checks. *)
Definition valid (scoring : ScoringMatrix.t) : Prop :=
  (0 < ScoringMatrix.match_score scoring)%Z ∧
  (ScoringMatrix.mismatch_penalty scoring ≤ 0)%Z ∧
  (ScoringMatrix.gap_open_penalty scoring ≤ 0)%Z ∧
  (ScoringMatrix.gap_extend_penalty scoring ≤ 0)%Z.

End ScoringSpec.

(** The local-alignment recurrence on which [smith_waterman] and
    [alignment_score_only] are compared: the value and the direction of
    cell [(i, j)], and the running maximum with its position. *)
Section LocalRecurrence.

Variables (s1 s2 : str) (scoring : ScoringMatrix.t).

(** [scoring.score(s1[i - 1], s2[j - 1])]. *)
Definition cell_score (i j : nat) : Z :=
  match s1 !! (i - 1), s2 !! (j - 1) with
  | Some base1, Some base2 => ScoringMatrix.score scoring base1 base2
  | _, _ => 0%Z
  end.

Fixpoint H_rec (i : nat) : nat → Z :=
  match i with
  | 0 => λ _, 0%Z
  | S i' =>
      fix row (j : nat) : Z :=
        match j with
        | 0 => 0%Z
        | S j' =>
            (sw_choose (H_rec i' j' + cell_score (S i') (S j'))
               (H_rec i' (S j') + ScoringMatrix.gap_penalty scoring)
               (row j' + ScoringMatrix.gap_penalty scoring)).1
        end
  end.

Definition dir_rec (i j : nat) : AlignDirection :=
  match i, j with
  | S i', S j' =>
      (sw_choose (H_rec i' j' + cell_score i j)
         (H_rec i' j + ScoringMatrix.gap_penalty scoring)
         (H_rec i j' + ScoringMatrix.gap_penalty scoring)).2
  | _, _ => STOP
  end.

(** [if best > max_score: max_score = best; max_i, max_j = i, j]. *)
Definition track (i : nat) (acc : Z * nat * nat) (j : nat) : Z * nat * nat :=
  if decide (H_rec i j > acc.1.1)%Z then (H_rec i j, i, j) else acc.

Definition track_row (n : nat) (acc : Z * nat * nat) (i : nat)
  : Z * nat * nat :=
  foldl (track i) acc (range 1 (n + 1)).

Definition track_all (m n : nat) : Z * nat * nat :=
  foldl (track_row n) (0%Z, 0, 0) (range 1 (m + 1)).

End LocalRecurrence.

(** The three candidates of cell [(i, j)] read back from a score matrix. *)
Definition candidates (s1 s2 : str) (scoring : ScoringMatrix.t)
    (H : list (list Z)) (i j : nat) : result (Z * Z * Z) :=
  base1 ← get s1 (i - 1);
  base2 ← get s2 (j - 1);
  h_diag ← get2 H (i - 1) (j - 1);
  h_up ← get2 H (i - 1) j;
  h_left ← get2 H i (j - 1);
  Ok ((h_diag + ScoringMatrix.score scoring base1 base2)%Z,
      (h_up + ScoringMatrix.gap_penalty scoring)%Z,
      (h_left + ScoringMatrix.gap_penalty scoring)%Z).

(** Cells already filled when the fill loops are about to treat [(i, j)]:
    the borders, the rows above [i], and row [i] left of [j]. *)
Definition filled (i j a b : nat) : Prop :=
  a = 0 ∨ b = 0 ∨ a < i ∨ (a = i ∧ b < j).

(** Invariant of the fill loops of [smith_waterman]. *)
Definition sw_inv (s1 s2 : str) (scoring : ScoringMatrix.t) (i j : nat)
    (st : sw_state) : Prop :=
  dims (sw_H st) (length s1 + 1) (length s2 + 1) ∧
  dims (sw_traceback st) (length s1 + 1) (length s2 + 1) ∧
  sw_max_i st ≤ length s1 ∧ sw_max_j st ≤ length s2 ∧
  ∀ a b, a ≤ length s1 → b ≤ length s2 → filled i j a b →
    get2 (sw_H st) a b = Ok (H_rec s1 s2 scoring a b) ∧
    get2 (sw_traceback st) a b = Ok (dir_rec s1 s2 scoring a b).

Definition sw_max (st : sw_state) : Z * nat * nat :=
  (sw_max_score st, sw_max_i st, sw_max_j st).

(** Invariant of the loops of [alignment_score_only]: the previous row holds
    row [i - 1] of the recurrence, the current row holds row [i] left of
    [j]. *)
Definition so_inv (s1 s2 : str) (scoring : ScoringMatrix.t) (i j : nat)
    (st : so_state) : Prop :=
  length (so_prev_row st) = length s2 + 1 ∧
  length (so_curr_row st) = length s2 + 1 ∧
  (∀ b, b ≤ length s2 →
     get (so_prev_row st) b = Ok (H_rec s1 s2 scoring (i - 1) b)) ∧
  (∀ b, b < j → get (so_curr_row st) b = Ok (H_rec s1 s2 scoring i b)).

(** The reading of the tie-break rule under which the diagonal move is
    recorded whenever the diagonal candidate attains the value of the cell. *)
Definition diagonal_wins_ties (s1 s2 : str) (scoring : ScoringMatrix.t)
  : Prop :=
  ∀ st i j diag up left best direction,
    sw_fill s1 s2 scoring = Ok st →
    1 ≤ i ≤ length s1 → 1 ≤ j ≤ length s2 →
    candidates s1 s2 scoring (sw_H st) i j = Ok (diag, up, left) →
    get2 (sw_H st) i j = Ok best →
    get2 (sw_traceback st) i j = Ok direction →
    diag = best → direction = DIAGONAL.

(** Invariant of the fill loops of [needleman_wunsch]: both matrices keep
    their shape and every interior cell already treated holds a move. *)
Definition nw_inv (s1 s2 : str) (i j : nat)
    (st : list (list Z) * list (list AlignDirection)) : Prop :=
  dims st.1 (length s1 + 1) (length s2 + 1) ∧
  dims st.2 (length s1 + 1) (length s2 + 1) ∧
  ∀ a b, 1 ≤ a ≤ length s1 → 1 ≤ b ≤ length s2 →
    a < i ∨ (a = i ∧ b < j) →
    ∃ d, get2 st.2 a b = Ok d ∧ d ≠ STOP.

(** * Further functions of the package *)

From Stdlib Require Import DecimalString.
From stdpp Require Import sorting.

(** The strings whose upper-case form is itself a string of code points
    below 256: those without the micro sign (181) and without the y with
    diaeresis (255). *)
Definition upper_below_256 (s : str) : Prop :=
  Forall (λ c, c ≠ "181"%char ∧ c ≠ "255"%char) s.

(** [sub in s] on strings: [sub] occurs in [s] as a contiguous block. *)
Fixpoint str_in (sub s : str) : bool :=
  bool_decide (sub `prefix_of` s)
  || match s with
     | [] => false
     | _ :: s' => str_in sub s'
     end.

(** The outcome of a function whose only failure is an [assert]. *)
Inductive asserted (A : Type) : Type :=
| Holds (a : A)
| AssertionError.
Arguments Holds {A} a.
Arguments AssertionError {A}.

(** ** sequence.py, the other methods of [Sequence] *)

Module SequenceOps.

Definition with_id (bases id : str) : result Sequence.t :=
  if decide (length id = 0) then Err ValueError
  else Sequence.init bases (Some id) None DNA false.

Definition has_ambiguous (self : Sequence.t) : bool :=
  contains "N" (Sequence.bases self).

Definition count_ambiguous (self : Sequence.t) : nat :=
  Alignment.count_char "N" (Sequence.bases self).

Definition base_at (self : Sequence.t) (index : Z) : result (option ascii) :=
  if decide (index < 0)%Z then Err ValueError
  else if decide (index >= Z.of_nat (length (Sequence.bases self)))%Z
  then Ok None
  else base ← get (Sequence.bases self) (Z.to_nat index); Ok (Some base).

Definition subsequence (self : Sequence.t) (start end_ : Z)
  : result Sequence.t :=
  if decide (start < 0)%Z then Err ValueError
  else if decide (end_ ≤ start)%Z then Err ValueError
  else if decide (end_ > Z.of_nat (length (Sequence.bases self)))%Z
  then Err ValueError
  else Sequence.init (slice (Sequence.bases self) start end_)
         (Sequence.id self) (Sequence.description self)
         (Sequence.seq_type self) false.

(** [sum(1 for b in s if b in chars)]. *)
Definition count_in (chars : str) (s : str) : nat :=
  length (filter (λ b, b ∈ chars) s).

(** The quotient is kept exact; the source rounds it to a float. *)
Definition gc_content (self : Sequence.t) : Q :=
  if decide (length (Sequence.bases self) = 0) then 0%Q
  else
    let gc_count := count_in (lit "GC") (Sequence.bases self) in
    (inject_Z (Z.of_nat gc_count)
     / inject_Z (Z.of_nat (length (Sequence.bases self))))%Q.

Definition at_content (self : Sequence.t) : result Q :=
  if decide (Sequence.seq_type self ≠ DNA) then Err ValueError
  else if decide (length (Sequence.bases self) = 0) then Ok 0%Q
  else
    let at_count := count_in (lit "AT") (Sequence.bases self) in
    Ok (inject_Z (Z.of_nat at_count)
        / inject_Z (Z.of_nat (length (Sequence.bases self))))%Q.

Definition base_counts (self : Sequence.t)
  : asserted (nat * nat * nat * nat * nat) :=
  let bs := Sequence.bases self in
  let a_count := Alignment.count_char "A" bs in
  let c_count := Alignment.count_char "C" bs in
  let g_count := Alignment.count_char "G" bs in
  let t_count := Alignment.count_char "T" bs + Alignment.count_char "U" bs in
  let n_count := Alignment.count_char "N" bs in
  if decide (a_count + c_count + g_count + t_count + n_count = length bs)
  then Holds (a_count, c_count, g_count, t_count, n_count)
  else AssertionError.

Definition concat (self other : Sequence.t) : result Sequence.t :=
  if decide (Sequence.seq_type self ≠ Sequence.seq_type other)
  then Err ValueError
  else Sequence.init (Sequence.bases self ++ Sequence.bases other)
         (Sequence.id self) (Sequence.description self)
         (Sequence.seq_type self) true.

Definition contains_motif (self : Sequence.t) (motif : str) : result bool :=
  if decide (length motif = 0) then Err ValueError
  else if decide (length (Sequence.bases self) < length motif)
  then Err ValueError
  else Ok (str_in (upper motif) (Sequence.bases self)).

(** The loop of [find_motif_positions] and of [kmer_positions]: the start
    positions [i] of [range(len(s) - len(pattern) + 1)] at which the slice
    of the width of [pattern] is [pattern], appended in order. *)
Definition scan_positions (s pattern : str) : list Z :=
  foldl (λ positions i,
           if decide (slice s i (i + Z.of_nat (length pattern)) = pattern)
           then positions ++ [i] else positions)
    [] (seqZ 0 (Z.of_nat (length s) - Z.of_nat (length pattern) + 1)).

Definition find_motif_positions (self : Sequence.t) (motif : str)
  : result (list Z) :=
  if decide (length motif = 0) then Err ValueError
  else Ok (scan_positions (Sequence.bases self) (upper motif)).

End SequenceOps.

(** ** kmer.py, the other methods of [KMerCounter] and the other functions *)

Module KMerCounterOps.

Definition get_count (self : KMerCounter.t) (kmer : str) : result Z :=
  if decide (Z.of_nat (length kmer) ≠ KMerCounter.k self) then Err ValueError
  else Ok (default 0%Z (KMerCounter.counts self !! upper kmer)).

Definition unique_count (self : KMerCounter.t) : nat :=
  size (KMerCounter.counts self).

End KMerCounterOps.

(** [find_unique_kmers]; the list follows [counter.counts.items()], here in
    the order of [map_to_list]. *)
Definition find_unique_kmers (sequence : Sequence.t) (k : Z)
  : result (list str) :=
  counter ← count_kmers sequence k;
  Ok (filter (λ item : str * Z, item.2 = 1%Z)
        (map_to_list (KMerCounter.counts counter))).*1.

(** [shared_kmers]; [list(set1 & set2)] comes in no particular order, here
    in that of [elements]. *)
Definition shared_kmers (seq1 seq2 : Sequence.t) (k : Z) : result (list str) :=
  counter1 ← count_kmers seq1 k;
  counter2 ← count_kmers seq2 k;
  let set1 : gset str := dom (KMerCounter.counts counter1) in
  let set2 : gset str := dom (KMerCounter.counts counter2) in
  Ok (elements (set1 ∩ set2)).

Definition estimate_genome_size (total_kmers peak_coverage k : Z) : result Z :=
  if decide (total_kmers ≤ 0 ∨ peak_coverage ≤ 0 ∨ k ≤ 0)%Z
  then Err ValueError
  else Ok (total_kmers `div` peak_coverage)%Z.

Definition kmer_positions (sequence : Sequence.t) (kmer : str)
  : result (list Z) :=
  if decide (length kmer = 0) then Err ValueError
  else if decide (Sequence.len sequence < length kmer) then Err ValueError
  else Ok (SequenceOps.scan_positions (Sequence.bases sequence) (upper kmer)).

(** The reverse complement and the canonical form of a k-mer, as strings. *)
Definition reverse_complement_str (w : str) : str :=
  map Sequence.complement_base (rev w).

Definition canonical_str (w : str) : str :=
  if str_lt w (reverse_complement_str w) then w
  else reverse_complement_str w.

(** ** alignment.py, the other methods of [Alignment] and the other
    functions *)

(** [f"{count}"]: a natural number in decimal. *)
Definition decimal (n : nat) : str :=
  list_ascii_of_string (NilEmpty.string_of_uint (Nat.to_uint n)).

Module AlignmentOps.

(** The class invariant: what [__post_init__] establishes. *)
Definition ok (self : Alignment.t) : Prop :=
  length (Alignment.aligned_seq1 self) = length (Alignment.aligned_seq2 self) ∧
  Alignment.identity self =
    Alignment._calculate_identity (Alignment.aligned_seq1 self)
      (Alignment.aligned_seq2 self).

Definition alignment_length (self : Alignment.t) : nat :=
  length (Alignment.aligned_seq1 self).

Definition match_count (self : Alignment.t) : nat :=
  length (filter (λ ab : ascii * ascii, ab.1 = ab.2 ∧ ab.1 ≠ "-"%char)
            (zip (Alignment.aligned_seq1 self) (Alignment.aligned_seq2 self))).

Definition mismatch_count (self : Alignment.t) : nat :=
  length (filter (λ ab : ascii * ascii,
                    ab.1 ≠ ab.2 ∧ ab.1 ≠ "-"%char ∧ ab.2 ≠ "-"%char)
            (zip (Alignment.aligned_seq1 self) (Alignment.aligned_seq2 self))).

(** Body of the loop of [gap_openings]; the state is [openings], [in_gap1],
    [in_gap2]. *)
Definition gap_openings_step (st : nat * bool * bool) (ab : ascii * ascii)
  : nat * bool * bool :=
  let '(openings, in_gap1, in_gap2) := st in
  let '(a, b) := ab in
  let '(openings, in_gap1) :=
    if bool_decide (a = "-"%char) && negb in_gap1 then (openings + 1, true)
    else if bool_decide (a ≠ "-"%char) then (openings, false)
    else (openings, in_gap1) in
  let '(openings, in_gap2) :=
    if bool_decide (b = "-"%char) && negb in_gap2 then (openings + 1, true)
    else if bool_decide (b ≠ "-"%char) then (openings, false)
    else (openings, in_gap2) in
  (openings, in_gap1, in_gap2).

Definition gap_openings (self : Alignment.t) : nat :=
  (foldl gap_openings_step (0, false, false)
     (zip (Alignment.aligned_seq1 self) (Alignment.aligned_seq2 self))).1.1.

(** The operation of one column in [to_cigar]. *)
Definition cigar_op (a b : ascii) : ascii :=
  if decide (a = "-"%char) then "I"%char
  else if decide (b = "-"%char) then "D"%char
  else if decide (a = b) then "M"%char
  else "X"%char.

(** Body of the loop of [to_cigar]; the state is [cigar], [current_op]
    (the empty string before the first column), [count]. *)
Definition to_cigar_step (st : str * str * nat) (ab : ascii * ascii)
  : str * str * nat :=
  let '(cigar, current_op, count) := st in
  let op := [cigar_op ab.1 ab.2] in
  if decide (op = current_op) then (cigar, current_op, count + 1)
  else
    let cigar :=
      if decide (0 < count) then cigar ++ decimal count ++ current_op
      else cigar in
    (cigar, op, 1).

Definition to_cigar (self : Alignment.t) : str :=
  if decide (length (Alignment.aligned_seq1 self) = 0) then []
  else
    let '(cigar, current_op, count) :=
      foldl to_cigar_step ([], [], 0)
        (zip (Alignment.aligned_seq1 self) (Alignment.aligned_seq2 self)) in
    if decide (0 < count) then cigar ++ decimal count ++ current_op
    else cigar.

End AlignmentOps.

Definition simple_align (seq1 seq2 : Sequence.t) : result Alignment.t :=
  scoring ← ScoringMatrix.default_dna;
  smith_waterman seq1 seq2 (Some scoring).

(** The score of one column and of two aligned rows under a linear gap
    model: the yardstick against which the returned scores are checked. *)
Definition column_score (scoring : ScoringMatrix.t) (a b : ascii) : Z :=
  if decide (a = "-"%char ∨ b = "-"%char)
  then ScoringMatrix.gap_penalty scoring
  else ScoringMatrix.score scoring a b.

Definition columns_score (scoring : ScoringMatrix.t) (a1 a2 : str) : Z :=
  foldr (λ ab acc, (column_score scoring ab.1 ab.2 + acc)%Z) 0%Z (zip a1 a2).

(** No column holds two gap symbols. *)
Definition no_double_gap (a1 a2 : str) : Prop :=
  Forall (λ ab : ascii * ascii, ¬ (ab.1 = "-"%char ∧ ab.2 = "-"%char))
    (zip a1 a2).

(** A run-length encoding of [ops]: the runs, expanded, give [ops]; no run
    is empty and neighbouring runs differ in their operation. *)
Definition run_length_encodes (runs : list (nat * ascii)) (ops : str) : Prop :=
  (runs ≫= λ run, replicate run.1 run.2) = ops ∧
  Forall (λ run, 0 < run.1) runs ∧
  ∀ i op1 op2, runs.*2 !! i = Some op1 → runs.*2 !! (S i) = Some op2 →
    op1 ≠ op2.

(** [f"{count}{op}"] for each run, joined. *)
Definition render_runs (runs : list (nat * ascii)) : str :=
  runs ≫= λ run, decimal run.1 ++ [run.2].

(** The global-alignment recurrence that [needleman_wunsch] fills in: the
    borders hold multiples of the gap penalty and the moves [UP] and [LEFT],
    the corner holds [STOP]. *)
Section GlobalRecurrence.

Variables (s1 s2 : str) (scoring : ScoringMatrix.t).

Fixpoint N_rec (i : nat) : nat → Z :=
  match i with
  | 0 => λ j, (Z.of_nat j * ScoringMatrix.gap_penalty scoring)%Z
  | S i' =>
      fix row (j : nat) : Z :=
        match j with
        | 0 => (Z.of_nat (S i') * ScoringMatrix.gap_penalty scoring)%Z
        | S j' =>
            (nw_choose (N_rec i' j' + cell_score s1 s2 scoring (S i') (S j'))
               (N_rec i' (S j') + ScoringMatrix.gap_penalty scoring)
               (row j' + ScoringMatrix.gap_penalty scoring)).1
        end
  end.

Definition ndir_rec (i j : nat) : AlignDirection :=
  match i, j with
  | 0, 0 => STOP
  | S _, 0 => UP
  | 0, S _ => LEFT
  | S i', S j' =>
      (nw_choose (N_rec i' j' + cell_score s1 s2 scoring i j)
         (N_rec i' j + ScoringMatrix.gap_penalty scoring)
         (N_rec i j' + ScoringMatrix.gap_penalty scoring)).2
  end.

End GlobalRecurrence.

(** Invariant of the fill loops of [needleman_wunsch], with the values. *)
Definition nw_rec_inv (s1 s2 : str) (scoring : ScoringMatrix.t) (i j : nat)
    (st : list (list Z) * list (list AlignDirection)) : Prop :=
  dims st.1 (length s1 + 1) (length s2 + 1) ∧
  dims st.2 (length s1 + 1) (length s2 + 1) ∧
  ∀ a b, a ≤ length s1 → b ≤ length s2 → filled i j a b →
    get2 st.1 a b = Ok (N_rec s1 s2 scoring a b) ∧
    get2 st.2 a b = Ok (ndir_rec s1 s2 scoring a b).

(** * Properties *)

(** ** Results and subscripts *)

Lemma bind_Ok {A B} (a : A) (f : A → result B) : (x ← Ok a; f x) = f a.
Proof. reflexivity. Qed.

(** ** Upper-casing *)

Lemma upper_cons (c : ascii) (s : str) :
  upper (c :: s) = upper_char c ++ upper s.
Proof. reflexivity. Qed.

Lemma upper_app (s1 s2 : str) : upper (s1 ++ s2) = upper s1 ++ upper s2.
Proof. unfold upper. apply bind_app. Qed.

Lemma upper_char_nonempty (c : ascii) : upper_char c ≠ [].
Proof. unfold upper_char. repeat case_match; discriminate. Qed.

Lemma upper_nil (s : str) : upper s = [] ↔ s = [].
Proof.
  split; [|by intros ->]. destruct s as [|c s]; [done|].
  rewrite upper_cons. intros Happ. apply app_eq_nil in Happ as [Hc _].
  by apply upper_char_nonempty in Hc.
Qed.

Lemma upper_fixed (s : str) :
  Forall (λ c, upper_char c = [c]) s → upper s = s.
Proof.
  induction 1 as [|c s Hc _ IH]; [reflexivity|].
  by rewrite upper_cons, Hc, IH.
Qed.

(** The upper-case form of a code point consists of code points that are
    their own upper-case form. *)
Lemma upper_char_upper (c : ascii) :
  Forall (λ x, upper_char x = [x]) (upper_char c).
Proof. destruct c as [[] [] [] [] [] [] [] []]; repeat constructor. Qed.

Lemma upper_chars_fixed (s : str) :
  Forall (λ c, upper_char c = [c]) (upper s).
Proof.
  induction s as [|c s IH]; [constructor|].
  rewrite upper_cons. apply Forall_app. split; [apply upper_char_upper | exact IH].
Qed.

Lemma upper_idempotent (s : str) : upper (upper s) = upper s.
Proof. apply upper_fixed, upper_chars_fixed. Qed.

(** Upper-casing keeps the length of a string without a sharp s. *)
Lemma length_upper (s : str) :
  Forall (λ c, length (upper_char c) = 1) s → length (upper s) = length s.
Proof.
  induction 1 as [|c s Hc _ IH]; [reflexivity|].
  rewrite upper_cons, length_app, Hc, IH. reflexivity.
Qed.

Lemma length_upper_fixed (s : str) :
  Forall (λ c, upper_char c = [c]) s → length (upper s) = length s.
Proof. intros Hs. by rewrite upper_fixed. Qed.

Lemma upper_char_alphabet (ty : SequenceType) (c : ascii) :
  c ∈ Sequence.valid_bases ty → upper_char c = [c].
Proof.
  unfold Sequence.valid_bases, VALID_DNA_BASES, VALID_RNA_BASES.
  case_decide; rewrite !elem_of_union, !elem_of_singleton; intros Hc;
    destruct_or!; subst c; reflexivity.
Qed.

Lemma is_valid_Forall (s : Sequence.t) :
  Sequence.is_valid s = true ↔
  Forall (λ c, c ∈ Sequence.valid_bases (Sequence.seq_type s))
    (Sequence.bases s).
Proof.
  unfold Sequence.is_valid. rewrite forallb_forall, Forall_forall.
  split; intros H c Hc.
  - apply list_elem_of_In in Hc. apply H in Hc. by apply bool_decide_eq_true in Hc.
  - apply bool_decide_eq_true, H. by apply list_elem_of_In.
Qed.

(** ** The constructors establish the class invariants *)

Lemma validate_from_Ok (i : nat) (bs : str) (valid : gset ascii) :
  Sequence._validate_from i bs valid = Ok tt → Forall (λ c, c ∈ valid) bs.
Proof.
  revert i. induction bs as [|c bs IH]; intros i; simpl; [constructor|].
  case_bool_decide as Hc; [|discriminate].
  intros Hrest. constructor; [exact Hc | by eapply IH].
Qed.

Lemma sequence_init_ok (bs : str) (i d : option str) (ty : SequenceType)
    (s : Sequence.t) :
  Sequence.init bs i d ty false = Ok s → Sequence.ok s.
Proof.
  unfold Sequence.init. case_decide as Hlen; [discriminate|]. simpl.
  destruct (Sequence._validate (upper bs) ty) as [[]|e] eqn:Hv;
    [|discriminate].
  simpl. intros [= <-]. split; simpl.
  - intros Hnil. by rewrite Hnil in Hlen.
  - apply is_valid_Forall. simpl. by eapply validate_from_Ok.
Qed.

Lemma kmer_init_ok (sequence : str) (x : KMer.t) :
  KMer.init sequence = Ok x → KMer.ok x.
Proof.
  unfold KMer.init. case_decide as Hlen; [discriminate|].
  intros [= <-]. split; simpl; [|reflexivity].
  intros Hnil. by rewrite Hnil in Hlen.
Qed.


(** ** Sequences *)

Lemma upper_ok (s : Sequence.t) :
  Sequence.ok s → upper (Sequence.bases s) = Sequence.bases s.
Proof.
  intros [_ Hv]. apply upper_fixed. apply is_valid_Forall in Hv.
  eapply Forall_impl; [exact Hv|]. intros c. apply upper_char_alphabet.
Qed.

Lemma init_validated (bs : str) i d ty :
  bs ≠ [] → upper bs = bs →
  Sequence.init bs i d ty true = Ok (Sequence.mk bs i d ty true).
Proof.
  intros Hne Hup. unfold Sequence.init. rewrite Hup.
  case_decide as Hl; [|reflexivity].
  destruct bs; [done | discriminate].
Qed.

Lemma complement_base_cases (c : ascii) :
  Sequence.complement_base c ∈ VALID_DNA_BASES.
Proof.
  unfold Sequence.complement_base, VALID_DNA_BASES.
  rewrite !lookup_insert. rewrite lookup_singleton.
  repeat case_decide; simpl; set_solver.
Qed.
Lemma complement_ok (s : Sequence.t) :
  Sequence.ok s → Sequence.seq_type s = DNA →
  Sequence.complement s =
    Ok (Sequence.mk (map Sequence.complement_base (Sequence.bases s))
          (Sequence.id s) (Sequence.description s) DNA true).
Proof.
  intros [Hne Hv] Hty. unfold Sequence.complement.
  case_decide as Hd; [done|]. rewrite Hty. apply init_validated.
  - destruct (Sequence.bases s); [done | discriminate].
  - apply upper_fixed, Forall_map, Forall_forall. intros c _. simpl.
    apply (upper_char_alphabet DNA), complement_base_cases.
Qed.

Lemma reverse_ok (s : Sequence.t) :
  Sequence.ok s →
  Sequence.reverse s =
    Ok (Sequence.mk (rev (Sequence.bases s))
          (Sequence.id s) (Sequence.description s) (Sequence.seq_type s) true).
Proof.
  intros Hok. unfold Sequence.reverse. apply init_validated.
  - destruct Hok as [Hne _]. intros Hr. apply Hne.
    apply (f_equal (@rev ascii)) in Hr. by rewrite rev_involutive in Hr.
  - apply upper_fixed, Forall_rev. destruct Hok as [_ Hv].
    apply is_valid_Forall in Hv. eapply Forall_impl; [exact Hv|].
    intros c. apply upper_char_alphabet.
Qed.

Lemma ok_complement (s : Sequence.t) :
  Sequence.ok s → Sequence.seq_type s = DNA →
  Sequence.ok (Sequence.mk (map Sequence.complement_base (Sequence.bases s))
          (Sequence.id s) (Sequence.description s) DNA true).
Proof.
  intros [Hne Hv] Hty. split; simpl.
  - destruct (Sequence.bases s); [done | discriminate].
  - apply is_valid_Forall. simpl. apply Forall_map, Forall_forall.
    intros c _. simpl. apply complement_base_cases.
Qed.

Lemma ok_reverse (s : Sequence.t) :
  Sequence.ok s →
  Sequence.ok (Sequence.mk (rev (Sequence.bases s))
          (Sequence.id s) (Sequence.description s) (Sequence.seq_type s) true).
Proof.
  intros [Hne Hv]. split; simpl.
  - intros Hr. apply Hne.
    apply (f_equal (@rev ascii)) in Hr. by rewrite rev_involutive in Hr.
  - apply is_valid_Forall. simpl. apply is_valid_Forall in Hv.
    rewrite rev_alt. by apply Forall_reverse.
Qed.

Lemma transcribe_ok (s : Sequence.t) :
  Sequence.ok s → Sequence.seq_type s = DNA →
  Sequence.transcribe s =
    Ok (Sequence.mk (Sequence.replace_char "T" "U" (Sequence.bases s))
          (Sequence.id s) (Sequence.description s) RNA true).
Proof.
  intros [Hne Hv] Hty. unfold Sequence.transcribe.
  case_decide as Hd; [done|]. apply init_validated.
  - unfold Sequence.replace_char. destruct (Sequence.bases s); [done | discriminate].
  - apply upper_fixed. unfold Sequence.replace_char. apply Forall_map.
    apply is_valid_Forall in Hv. rewrite Hty in Hv.
    eapply Forall_impl; [exact Hv|]. intros c Hc. simpl.
    case_decide; [reflexivity|]. by apply (upper_char_alphabet DNA).
Qed.

Lemma complement_base_involutive (c : ascii) :
  c ∈ VALID_DNA_BASES →
  Sequence.complement_base (Sequence.complement_base c) = c.
Proof.
  unfold VALID_DNA_BASES. set_unfold. intros Hc.
  destruct_or!; subst c; reflexivity.
Qed.

(** C3 (as amended): [complement], [reverse_complement] and [transcribe] raise
    [ValueError] on an RNA sequence, whereas [reverse] accepts every kind; on
    a DNA sequence each of the four returns a new sequence, whose bases are
    the complemented, reversed, reverse-complemented and transcribed bases. *)
Theorem dna_only_transformations (s : Sequence.t) :
  Sequence.ok s →
  (Sequence.seq_type s = RNA →
     Sequence.complement s = Err ValueError ∧
     Sequence.reverse_complement s = Err ValueError ∧
     Sequence.transcribe s = Err ValueError ∧
     ∃ r, Sequence.reverse s = Ok r ∧
          Sequence.bases r = rev (Sequence.bases s) ∧
          Sequence.seq_type r = RNA) ∧
  (Sequence.seq_type s = DNA →
     ∃ c r rc t,
       Sequence.complement s = Ok c ∧
       Sequence.reverse s = Ok r ∧
       Sequence.reverse_complement s = Ok rc ∧
       Sequence.transcribe s = Ok t ∧
       Sequence.bases c = map Sequence.complement_base (Sequence.bases s) ∧
       Sequence.bases r = rev (Sequence.bases s) ∧
       Sequence.bases rc =
         rev (map Sequence.complement_base (Sequence.bases s)) ∧
       Sequence.bases t = Sequence.replace_char "T" "U" (Sequence.bases s) ∧
       Sequence.seq_type c = DNA ∧ Sequence.seq_type r = DNA ∧
       Sequence.seq_type rc = DNA ∧ Sequence.seq_type t = RNA).
Proof.
  intros Hok. split; intros Hty.
  - unfold Sequence.complement, Sequence.reverse_complement,
      Sequence.transcribe. rewrite Hty.
    repeat split; try (case_decide; [reflexivity | congruence]).
    eexists. split; [by apply reverse_ok|]. simpl. by rewrite Hty.
  - pose proof (complement_ok s Hok Hty) as Hc.
    pose proof (reverse_ok s Hok) as Hr.
    pose proof (transcribe_ok s Hok Hty) as Ht.
    pose proof (reverse_ok _ (ok_complement s Hok Hty)) as Hrc.
    do 4 eexists. split; [exact Hc|]. split; [exact Hr|].
    split.
    { unfold Sequence.reverse_complement. case_decide; [done|].
      rewrite Hc. simpl. exact Hrc. }
    split; [exact Ht|]. simpl. by rewrite Hty.
Qed.

Lemma dna_only_transformations_witness :
  ∃ s, Sequence.new (lit "ATCG") = Ok s ∧
       ∃ rc, Sequence.reverse_complement s = Ok rc ∧
             Sequence.bases rc = lit "CGAT".
Proof.
  eexists. split; [reflexivity|].
  edestruct (dna_only_transformations
               (Sequence.mk (lit "ATCG") None None DNA true))
    as [_ Hdna].
  { split; [discriminate | reflexivity]. }
  destruct (Hdna eq_refl) as (c & r & rc & t & _ & _ & Hrc & _ & _ & _ & Hb & _).
  exists rc. split; [exact Hrc | exact Hb].
Defined.

(** C3 (as stated) fails for [reverse]: reversing an RNA sequence returns a
    sequence instead of raising. *)
Lemma reverse_accepts_rna :
  ∃ s r, Sequence.with_metadata (lit "AUCG") (lit "r1") (lit "rna") RNA = Ok s ∧
         Sequence.seq_type s = RNA ∧
         Sequence.reverse s = Ok r ∧ Sequence.bases r = lit "GCUA".
Proof. do 2 eexists. repeat split; reflexivity. Qed.

(** C8: on a valid DNA sequence [complement] applied twice gives back the
    original bases; on a valid sequence of any kind [reverse] applied twice
    gives back the original bases. *)
Theorem complement_reverse_involutive (s : Sequence.t) :
  Sequence.ok s →
  (Sequence.seq_type s = DNA →
     ∃ c cc, Sequence.complement s = Ok c ∧ Sequence.complement c = Ok cc ∧
             Sequence.bases cc = Sequence.bases s) ∧
  (∃ r rr, Sequence.reverse s = Ok r ∧ Sequence.reverse r = Ok rr ∧
           Sequence.bases rr = Sequence.bases s).
Proof.
  intros Hok. split.
  - intros Hty. do 2 eexists.
    split; [by apply complement_ok|].
    split; [apply complement_ok; [by apply ok_complement | reflexivity]|].
    simpl. rewrite map_map. destruct Hok as [_ Hv].
    apply is_valid_Forall in Hv. rewrite Hty in Hv.
    induction Hv as [|c l Hc _ IH]; [reflexivity|]. simpl.
    by rewrite (complement_base_involutive c Hc), IH.
  - do 2 eexists.
    split; [by apply reverse_ok|].
    split; [apply reverse_ok; by apply ok_reverse|].
    simpl. apply rev_involutive.
Qed.

Lemma complement_reverse_involutive_witness :
  ∃ c cc, Sequence.complement (Sequence.mk (lit "ATCGN") None None DNA true) = Ok c ∧
          Sequence.complement c = Ok cc ∧ Sequence.bases cc = lit "ATCGN".
Proof.
  edestruct (complement_reverse_involutive
               (Sequence.mk (lit "ATCGN") None None DNA true)) as [Hc _].
  { split; [discriminate | reflexivity]. }
  exact (Hc eq_refl).
Defined.
(** ** String order *)

Lemma nat_of_ascii_inj (a b : ascii) : nat_of_ascii a = nat_of_ascii b → a = b.
Proof.
  intros H. rewrite <- (ascii_nat_embedding a), <- (ascii_nat_embedding b).
  by rewrite H.
Qed.

Lemma str_lt_irrefl (s : str) : str_lt s s = false.
Proof.
  induction s as [|c s IH]; [reflexivity|]. simpl.
  by rewrite Nat.compare_refl.
Qed.

Lemma str_lt_asym (s1 s2 : str) : str_lt s1 s2 = true → str_lt s2 s1 = false.
Proof.
  revert s2. induction s1 as [|c1 s1 IH]; intros [|c2 s2]; simpl; try done.
  rewrite (Nat.compare_antisym (nat_of_ascii c1) (nat_of_ascii c2)).
  destruct (nat_of_ascii c1 ?= nat_of_ascii c2); simpl; auto; discriminate.
Qed.

Lemma str_lt_total (s1 s2 : str) :
  str_lt s1 s2 = false → str_lt s2 s1 = false → s1 = s2.
Proof.
  revert s2. induction s1 as [|c1 s1 IH]; intros [|c2 s2]; simpl; try done.
  rewrite (Nat.compare_antisym (nat_of_ascii c1) (nat_of_ascii c2)).
  destruct (nat_of_ascii c1 ?= nat_of_ascii c2) eqn:Hc; simpl; try done.
  intros H1 H2. apply Nat.compare_eq in Hc. apply nat_of_ascii_inj in Hc.
  f_equal; auto.
Qed.

Lemma str_le_spec (s1 s2 : str) : str_le s1 s2 = negb (str_lt s2 s1).
Proof.
  unfold str_le. destruct (str_lt s1 s2) eqn:H12; simpl.
  - by rewrite (str_lt_asym _ _ H12).
  - case_bool_decide as Heq.
    + subst. by rewrite str_lt_irrefl.
    + destruct (str_lt s2 s1) eqn:H21; [reflexivity|].
      exfalso. apply Heq. by apply str_lt_total.
Qed.

(** ** K-mers *)

Lemma kmer_init_fixed (s : str) :
  s ≠ [] → upper s = s →
  KMer.init s = Ok (KMer.mk s (Z.of_nat (length s))).
Proof.
  intros Hne Hup. unfold KMer.init. rewrite Hup.
  case_decide as Hl; [|reflexivity].
  destruct s; [done | discriminate].
Qed.

Lemma upper_complement (s : str) :
  upper (map Sequence.complement_base s) = map Sequence.complement_base s.
Proof.
  apply upper_fixed, Forall_map, Forall_forall. intros c _. simpl.
  apply (upper_char_alphabet DNA), complement_base_cases.
Qed.

Lemma kmer_reverse_complement_eq (x : KMer.t) :
  KMer.sequence x ≠ [] →
  KMer.reverse_complement x =
    Ok (KMer.mk (map Sequence.complement_base (rev (KMer.sequence x)))
          (Z.of_nat (length (KMer.sequence x)))).
Proof.
  intros Hne. unfold KMer.reverse_complement.
  change (λ c : ascii, default "N"%char (_ !! c)) with Sequence.complement_base.
  rewrite kmer_init_fixed.
  - by rewrite length_map, length_rev.
  - intros H. apply Hne. apply (f_equal length) in H.
    rewrite length_map, length_rev in H. by destruct (KMer.sequence x).
  - apply upper_complement.
Qed.

Lemma rc_involutive (s : str) :
  Forall (λ c, c ∈ VALID_DNA_BASES) s →
  map Sequence.complement_base
    (rev (map Sequence.complement_base (rev s))) = s.
Proof.
  intros Hs. rewrite <- map_rev, rev_involutive, map_map.
  induction Hs as [|c l Hc _ IH]; [reflexivity|]. simpl.
  by rewrite (complement_base_involutive c Hc), IH.
Qed.

(** C6 (as amended): [canonical] returns the k-mer itself when its sequence
    is lexicographically at most that of its reverse complement, and the
    reverse complement otherwise; for a k-mer over the DNA alphabet
    A, C, G, T, N the k-mer and its reverse complement have the same
    canonical k-mer. *)
Theorem canonical_spec (x : KMer.t) :
  KMer.ok x →
  ∃ rc, KMer.reverse_complement x = Ok rc ∧
        KMer.canonical x =
          Ok (if str_le (KMer.sequence x) (KMer.sequence rc) then x else rc) ∧
        (Forall (λ c, c ∈ VALID_DNA_BASES) (KMer.sequence x) →
         KMer.canonical rc = KMer.canonical x).
Proof.
  intros [Hne Hk]. eexists. split; [by apply kmer_reverse_complement_eq|].
  set (r := map Sequence.complement_base (rev (KMer.sequence x))).
  assert (Hx : x = KMer.mk (KMer.sequence x) (Z.of_nat (length (KMer.sequence x)))).
  { destruct x as [sx kx]; simpl in *. by rewrite Hk. }
  assert (Hlen : length r = length (KMer.sequence x)).
  { unfold r. by rewrite length_map, length_rev. }
  assert (Hcx : KMer.canonical x =
                Ok (if str_le (KMer.sequence x) r then x
                    else KMer.mk r (Z.of_nat (length (KMer.sequence x))))).
  { unfold KMer.canonical. rewrite kmer_reverse_complement_eq by done.
    simpl. fold r. unfold str_le.
    destruct (str_lt (KMer.sequence x) r) eqn:Hlt; simpl; [reflexivity|].
    case_bool_decide as Heq; [|reflexivity].
    f_equal. rewrite <- Heq. symmetry. exact Hx. }
  split; [exact Hcx|].
  intros Hdna. rewrite Hcx.
  unfold KMer.canonical. rewrite kmer_reverse_complement_eq; simpl.
  2:{ intros H. apply Hne. fold r in H. rewrite H in Hlen.
      by destruct (KMer.sequence x). }
  fold r.
  assert (Hrr : map Sequence.complement_base (rev r) = KMer.sequence x)
    by (unfold r; by apply rc_involutive).
  rewrite Hrr, Hlen, <- Hx, str_le_spec.
  destruct (str_lt r (KMer.sequence x)); reflexivity.
Qed.

Lemma canonical_spec_witness :
  ∃ rc, KMer.reverse_complement (KMer.mk (lit "TACG") 4) = Ok rc ∧
        KMer.canonical (KMer.mk (lit "TACG") 4) = Ok rc ∧
        KMer.sequence rc = lit "CGTA".
Proof.
  destruct (canonical_spec (KMer.mk (lit "TACG") 4)) as (rc & Hrc & Hc & _).
  { split; [discriminate | reflexivity]. }
  exists rc. split; [exact Hrc|].
  assert (rc = KMer.mk (lit "CGTA") 4) as ->.
  { assert (Ok rc = Ok (KMer.mk (lit "CGTA") 4)) as [= ->]
      by (rewrite <- Hrc; reflexivity).
    reflexivity. }
  split; [exact Hc | reflexivity].
Defined.

(** C6 (as stated) fails outside the DNA alphabet: the RNA window [AU] is
    its own canonical k-mer, while its reverse complement [NT] has the
    canonical k-mer [AN]. *)
Lemma canonical_not_shared :
  ∃ x rc c c',
    KMer.new (lit "AU") = Ok x ∧ KMer.reverse_complement x = Ok rc ∧
    KMer.canonical x = Ok c ∧ KMer.canonical rc = Ok c' ∧ c ≠ c'.
Proof. do 4 eexists. repeat split; try reflexivity. discriminate. Qed.
(** ** Slices *)

Lemma length_slice {A} (s : list A) (a w : Z) :
  (0 ≤ a)%Z → (0 ≤ w)%Z → (a + w ≤ Z.of_nat (length s))%Z →
  Z.of_nat (length (slice s a (a + w))) = w.
Proof.
  intros Ha Hw Hlen. unfold slice, slice_bound.
  destruct (Z.ltb_spec a 0), (Z.ltb_spec (a + w) 0); try lia.
  rewrite length_take, length_drop. lia.
Qed.

Lemma slice_subseteq {A} (s : list A) (a b : Z) : slice s a b ⊆ s.
Proof.
  unfold slice. etransitivity; [apply subseteq_take | apply subseteq_drop].
Qed.

Lemma contains_false (c : ascii) (s : str) :
  negb (contains c s) = true ↔ c ∉ s.
Proof.
  unfold contains. rewrite negb_true_iff, bool_decide_eq_false. reflexivity.
Qed.

(** ** Counters *)

Lemma sum_counts_fresh (m : gmap str Z) (kmer : str) (v : Z) :
  m !! kmer = None →
  KMerCounter.sum_counts (<[kmer := v]> m) = (v + KMerCounter.sum_counts m)%Z.
Proof.
  intros Hnone. unfold KMerCounter.sum_counts.
  apply (map_fold_insert_L (λ _ v acc, (v + acc)%Z)); [|exact Hnone].
  intros. lia.
Qed.

Lemma sum_counts_bump (m : gmap str Z) (kmer : str) (n : Z) :
  KMerCounter.sum_counts (<[kmer := (default 0 (m !! kmer) + n)%Z]> m)
  = (KMerCounter.sum_counts m + n)%Z.
Proof.
  destruct (m !! kmer) as [v|] eqn:Hl; simpl.
  - rewrite <- (insert_delete_eq m).
    rewrite <- (insert_delete_id m kmer v Hl) at 2.
    rewrite !sum_counts_fresh by apply lookup_delete_eq. lia.
  - rewrite sum_counts_fresh by done. lia.
Qed.

Lemma bump_inv (c : KMerCounter.t) (kmer : str) (n : Z) :
  KMerCounter.inv c → Z.of_nat (length kmer) = KMerCounter.k c → (0 < n)%Z →
  KMerCounter.inv (KMerCounter.bump kmer n c).2.
Proof.
  intros [Hkeys Htot] Hlen Hn. split; simpl.
  - apply map_Forall_insert_2; [|exact Hkeys]. split; [exact Hlen|].
    destruct (KMerCounter.counts c !! kmer) as [v|] eqn:Hl; simpl; [|lia].
    destruct (Hkeys _ _ Hl). lia.
  - rewrite sum_counts_bump, Htot. reflexivity.
Qed.

(** [add] keeps the invariant when upper-casing keeps the length of the
    k-mer, whether or not it raises. *)
Lemma add_inv (c : KMerCounter.t) (kmer : str) (count : Z) :
  length (upper kmer) = length kmer →
  KMerCounter.inv c → KMerCounter.inv (KMerCounter.add kmer count c).2.
Proof.
  intros Hup Hinv. unfold KMerCounter.add.
  case_decide as Hlen; [exact Hinv|].
  case_decide as Hn; [exact Hinv|].
  apply bump_inv; [exact Hinv| |lia].
  rewrite Hup. by destruct (decide (Z.of_nat (length kmer) = KMerCounter.k c)).
Qed.

Lemma add_k (c : KMerCounter.t) (kmer : str) (count : Z) :
  KMerCounter.k (KMerCounter.add kmer count c).2 = KMerCounter.k c.
Proof.
  unfold KMerCounter.add. repeat case_decide; reflexivity.
Qed.

Lemma add_Ok (c : KMerCounter.t) (kmer : str) (count : Z) :
  Z.of_nat (length kmer) = KMerCounter.k c → (0 < count)%Z →
  KMerCounter.add kmer count c =
    (Ok tt, KMerCounter.mk (KMerCounter.k c)
              (<[upper kmer :=
                   (default 0 (KMerCounter.counts c !! upper kmer) + count)%Z]>
                 (KMerCounter.counts c))
              (KMerCounter.total_kmers c + count)%Z).
Proof.
  intros Hlen Hn. unfold KMerCounter.add.
  case_decide; [done|]. case_decide; [lia|]. reflexivity.
Qed.

(** An invariant of the loop body is an invariant of the loop, whether or
    not the loop raises. *)
Lemma for_each_inv {A} (P : KMerCounter.t → Prop) (l : list A)
    (body : A → KMerCounter.M unit) :
  (∀ x c, x ∈ l → P c → P (body x c).2) →
  ∀ c, P c → P (KMerCounter.for_each l body c).2.
Proof.
  induction l as [|x l IH]; intros Hbody c Hc; [exact Hc|].
  simpl. unfold KMerCounter.bind.
  pose proof (Hbody x c ltac:(left) Hc) as Hx.
  destruct (body x c) as [[[]|e] c']; simpl in *; [|exact Hx].
  apply IH; [|exact Hx]. intros y c'' Hy. apply Hbody. by right.
Qed.

(** The sliding-window loop of [count_kmers] on start positions [l]. *)
Lemma window_loop (s : str) (l : list Z) (c : KMerCounter.t) :
  (0 ≤ KMerCounter.k c)%Z →
  Forall (λ i, 0 ≤ i ∧ i + KMerCounter.k c ≤ Z.of_nat (length s))%Z l →
  ∃ c',
    KMerCounter.for_each l
      (λ i self,
         let kmer := slice s i (i + KMerCounter.k self) in
         if negb (contains "N" kmer) then KMerCounter.add kmer 1 self
         else KMerCounter.ret tt self) c = (Ok tt, c') ∧
    KMerCounter.k c' = KMerCounter.k c ∧
    KMerCounter.total_kmers c' =
      (KMerCounter.total_kmers c +
       Z.of_nat (length (filter (λ w, "N"%char ∉ w)
                           ((λ i, slice s i (i + KMerCounter.k c)) <$> l))))%Z.
Proof.
  intros Hk Hl. revert c Hk Hl.
  induction l as [|i l IH]; intros c Hk Hl.
  - exists c. simpl. repeat split. lia.
  - apply Forall_cons in Hl as [[Hi1 Hi2] Hl].
    cbn [KMerCounter.for_each]. rewrite fmap_cons.
    unfold KMerCounter.bind at 1. cbv zeta.
    destruct (negb (contains "N" (slice s i (i + KMerCounter.k c)))) eqn:Hn.
    + rewrite add_Ok; [|apply length_slice; lia|lia].
      match goal with |- context [KMerCounter.for_each _ _ ?c1] =>
        destruct (IH c1) as (c' & Hrun & Hk' & Htot); [exact Hk | exact Hl |]
      end.
      simpl in Hk', Htot.
      exists c'. split; [exact Hrun|]. split; [exact Hk'|].
      rewrite Htot. apply contains_false in Hn.
      rewrite filter_cons_True by exact Hn. simpl length. lia.
    + unfold KMerCounter.ret at 1.
      destruct (IH c Hk Hl) as (c' & Hrun & Hk' & Htot).
      exists c'. split; [exact Hrun|]. split; [exact Hk'|].
      rewrite Htot.
      rewrite filter_cons_False; [reflexivity|].
      intros Hnot. apply contains_false in Hnot. rewrite Hnot in Hn.
      discriminate.
Qed.
Lemma for_each_Ok {A} (l : list A) (body : A → KMerCounter.M unit) :
  (∀ x c, (body x c).1 = Ok tt) →
  ∀ c, (KMerCounter.for_each l body c).1 = Ok tt.
Proof.
  intros Hbody. induction l as [|x l IH]; intros c; [reflexivity|].
  simpl. unfold KMerCounter.bind. specialize (Hbody x c).
  destruct (body x c) as [[[]|e] c']; simpl in *; [apply IH | discriminate].
Qed.

Lemma filter_all {A} (P : A → Prop) `{∀ x, Decision (P x)} (l : list A) :
  Forall P l → filter P l = l.
Proof.
  induction 1 as [|x l Hx _ IH]; [reflexivity|].
  rewrite filter_cons_True by exact Hx. by rewrite IH.
Qed.

Lemma new_counter (k : Z) :
  (0 < k)%Z → KMerCounter.new k = Ok (KMerCounter.mk k ∅ 0).
Proof.
  intros Hk. unfold KMerCounter.new, KMerCounter.init.
  case_decide; [lia | reflexivity].
Qed.

Lemma inv_empty (k : Z) : KMerCounter.inv (KMerCounter.mk k ∅ 0).
Proof. split; [apply map_Forall_empty | reflexivity]. Qed.

Lemma count_kmers_inv (c : KMerCounter.t) (s : str) :
  KMerCounter.inv c → KMerCounter.inv (KMerCounter.count_kmers s c).2.
Proof.
  intros Hinv. unfold KMerCounter.count_kmers.
  apply (for_each_inv KMerCounter.inv); [|exact Hinv].
  intros i c' _ Hc'. cbv zeta.
  destruct (negb _); [|exact Hc']. apply add_inv; [|exact Hc'].
  f_equal. apply upper_fixed. unfold slice.
  apply Forall_take, Forall_drop, upper_chars_fixed.
Qed.

Lemma merge_inv (c o : KMerCounter.t) :
  KMerCounter.inv c → KMerCounter.inv o → KMerCounter.k c = KMerCounter.k o →
  (KMerCounter.merge o c).1 = Ok tt ∧
  KMerCounter.inv (KMerCounter.merge o c).2.
Proof.
  intros Hc [Ho _] Hk. unfold KMerCounter.merge.
  case_decide; [done|]. split.
  - apply for_each_Ok. by intros [kmer count] c'.
  - apply (for_each_inv
             (λ c', KMerCounter.inv c' ∧ KMerCounter.k c' = KMerCounter.k c));
      [|by split].
    intros [kmer count] c' Hin [Hinv Hk']. split; [|exact Hk'].
    apply elem_of_map_to_list in Hin. destruct (Ho _ _ Hin) as [Hlen Hpos].
    apply bump_inv; [exact Hinv | congruence | exact Hpos].
Qed.

(** C5: counting the k-mers of a sequence with [0 < k <= length] returns a
    counter whose total is the number of width-[k] windows without ['N'];
    when the sequence holds no ['N'] that is [length - k + 1]. *)
Theorem count_kmers_total (s : Sequence.t) (k : Z) :
  Sequence.ok s → (0 < k ≤ Z.of_nat (Sequence.len s))%Z →
  ∃ c, count_kmers s k = Ok c ∧
       KMerCounter.total_kmers c =
         Z.of_nat (length (clean_windows (Sequence.bases s) k)) ∧
       ("N"%char ∉ Sequence.bases s →
        KMerCounter.total_kmers c = (Z.of_nat (Sequence.len s) - k + 1)%Z).
Proof.
  intros Hok [Hk0 Hk]. unfold count_kmers.
  case_decide; [lia|]. case_decide; [lia|].
  rewrite new_counter by exact Hk0. rewrite bind_Ok.
  unfold KMerCounter.count_from_sequence, KMerCounter.count_kmers.
  rewrite (upper_ok s Hok). cbv zeta.
  set (c0 := KMerCounter.mk k ∅ 0).
  destruct (window_loop (Sequence.bases s)
              (seqZ 0 (Z.of_nat (length (Sequence.bases s)) - k + 1)) c0)
    as (c' & Hrun & _ & Htot).
  { simpl. lia. }
  { apply Forall_forall. intros i Hi. apply elem_of_seqZ in Hi. simpl. lia. }
  change (KMerCounter.k c0) with k in *.
  cbv zeta in Hrun. rewrite Hrun. exists c'. split; [reflexivity|].
  simpl in Htot. rewrite Htot. split; [reflexivity|].
  intros HN. unfold Sequence.len in *.
  unfold clean_windows, windows. rewrite filter_all.
  - rewrite length_fmap, length_seqZ. lia.
  - apply Forall_forall. intros w Hw.
    apply list_elem_of_fmap in Hw as (i & -> & _).
    intros Hin. apply HN. by eapply slice_subseteq.
Qed.

Lemma count_kmers_total_witness :
  ∃ c, count_kmers (Sequence.mk (lit "ATCGATCG") None None DNA true) 3 = Ok c ∧
       KMerCounter.total_kmers c = 6%Z.
Proof.
  destruct (count_kmers_total
              (Sequence.mk (lit "ATCGATCG") None None DNA true) 3)
    as (c & Hc & _ & Htot).
  { split; [discriminate | reflexivity]. }
  { unfold Sequence.len, lit. simpl. lia. }
  exists c. split; [exact Hc|]. apply Htot.
  apply contains_false. reflexivity.
Defined.
(** What holds of the counter invariant (keys of length [k], positive
    counts, total equal to the sum of the counts): a new counter satisfies
    it; [add] keeps it when upper-casing keeps the length of the k-mer;
    [count_kmers] and [count_from_sequence] keep it on every string, since
    the windows they add are cut from the upper-cased string; [merge] of
    counters with the same [k] keeps it and does not raise. The first three
    keep it even when they raise. *)
Lemma counter_invariant_kept :
  (∀ k c, KMerCounter.new k = Ok c → KMerCounter.inv c) ∧
  (∀ c kmer count,
     length (upper kmer) = length kmer →
     KMerCounter.inv c → KMerCounter.inv (KMerCounter.add kmer count c).2) ∧
  (∀ c s,
     KMerCounter.inv c → KMerCounter.inv (KMerCounter.count_kmers s c).2) ∧
  (∀ c sequence,
     KMerCounter.inv c →
     KMerCounter.inv (KMerCounter.count_from_sequence sequence c).2) ∧
  (∀ c other,
     KMerCounter.inv c → KMerCounter.inv other →
     KMerCounter.k c = KMerCounter.k other →
     (KMerCounter.merge other c).1 = Ok tt ∧
     KMerCounter.inv (KMerCounter.merge other c).2).
Proof.
  split; [|split; [|split; [|split]]].
  - intros k c. unfold KMerCounter.new, KMerCounter.init.
    case_decide; [discriminate|]. intros [= <-]. apply inv_empty.
  - intros c kmer count. apply add_inv.
  - intros c s. apply count_kmers_inv.
  - intros c sequence. apply count_kmers_inv.
  - intros c other. apply merge_inv.
Qed.

(** C7: [add] compares the length of the k-mer with [k] before it
    upper-cases the k-mer, and upper-casing the sharp s (code point 223)
    gives the two letters [SS]. So on a new counter with [k = 1], which
    satisfies the invariant, [add] of the one-symbol k-mer made of the sharp
    s does not raise and stores the key [SS] of length 2: the counter no
    longer satisfies the invariant. *)
Theorem add_breaks_invariant :
  ∃ c c',
    KMerCounter.new 1 = Ok c ∧ KMerCounter.inv c ∧
    KMerCounter.add ["223"%char] 1 c = (Ok tt, c') ∧
    KMerCounter.k c' = 1%Z ∧
    KMerCounter.counts c' !! lit "SS" = Some 1%Z ∧
    ¬ KMerCounter.inv c'.
Proof.
  exists (KMerCounter.mk 1 ∅ 0). eexists.
  split; [reflexivity|]. split; [apply inv_empty|].
  split; [apply add_Ok; [reflexivity | lia]|].
  cbn [KMerCounter.k KMerCounter.counts].
  assert (Hkey : upper ["223"%char] = lit "SS") by reflexivity.
  rewrite Hkey, lookup_empty. cbn [default].
  split; [reflexivity|]. split; [apply lookup_insert_eq|].
  intros [Hkeys _]. cbn [KMerCounter.k KMerCounter.counts] in Hkeys.
  destruct (Hkeys (lit "SS") (0 + 1)%Z) as [Hlen _]; [apply lookup_insert_eq|].
  simpl in Hlen. lia.
Qed.

(** ** Lists and matrices *)

Lemma get_Ok {A} (l : list A) (i : nat) (x : A) :
  get l i = Ok x ↔ l !! i = Some x.
Proof.
  unfold get. destruct (l !! i); split; intros H; by inversion H.
Qed.

Lemma get_lt {A} (l : list A) (i : nat) :
  i < length l → ∃ x, get l i = Ok x ∧ l !! i = Some x.
Proof.
  intros Hi. destruct (lookup_lt_is_Some_2 l i Hi) as [x Hx].
  exists x. split; [by apply get_Ok | exact Hx].
Qed.

Lemma set_lt {A} (l : list A) (i : nat) (x : A) :
  i < length l → set l i x = Ok (<[i := x]> l).
Proof. intros Hi. unfold set. by case_decide. Qed.

Lemma get2_Ok {A} (M : list (list A)) (i j : nat) (x : A) :
  get2 M i j = Ok x ↔ ∃ row, M !! i = Some row ∧ row !! j = Some x.
Proof.
  unfold get2, get. destruct (M !! i) as [row|]; simpl.
  - destruct (row !! j) eqn:Hj; split.
    + intros [= ->]. eauto.
    + intros (row' & [= <-] & Hx). congruence.
    + discriminate.
    + intros (row' & [= <-] & Hx). congruence.
  - split; [discriminate | by intros (? & ? & _)].
Qed.

Lemma dims_replicate {A} (x : A) (r c : nat) :
  dims (repeat_list (repeat_list x c) r) r c.
Proof.
  unfold repeat_list. split; [apply length_replicate|].
  apply Forall_replicate, length_replicate.
Qed.

Lemma get2_replicate {A} (x : A) (r c i j : nat) :
  i < r → j < c → get2 (repeat_list (repeat_list x c) r) i j = Ok x.
Proof.
  intros Hi Hj. apply get2_Ok. exists (replicate c x).
  unfold repeat_list. by rewrite !lookup_replicate_2.
Qed.

Lemma get2_dims {A} (M : list (list A)) (r c i j : nat) :
  dims M r c → i < r → j < c → ∃ x, get2 M i j = Ok x.
Proof.
  intros [Hr Hc] Hi Hj.
  destruct (lookup_lt_is_Some_2 M i) as [row Hrow]; [lia|].
  pose proof (Forall_lookup_1 _ _ _ _ Hc Hrow) as Hlen. simpl in Hlen.
  destruct (lookup_lt_is_Some_2 row j) as [x Hx]; [lia|].
  exists x. apply get2_Ok. eauto.
Qed.

Lemma set2_spec {A} (M : list (list A)) (r c i j : nat) (x : A) :
  dims M r c → i < r → j < c →
  ∃ M', set2 M i j x = Ok M' ∧ dims M' r c ∧ get2 M' i j = Ok x ∧
        ∀ a b, ¬ (a = i ∧ b = j) → get2 M' a b = get2 M a b.
Proof.
  intros [Hr Hc] Hi Hj.
  destruct (lookup_lt_is_Some_2 M i) as [row Hrow]; [lia|].
  pose proof (Forall_lookup_1 _ _ _ _ Hc Hrow) as Hlen. simpl in Hlen.
  exists (<[i := <[j := x]> row]> M). split; [|split; [|split]].
  - unfold set2, get. rewrite Hrow. simpl.
    rewrite set_lt by lia. simpl. apply set_lt. lia.
  - split; [by rewrite length_insert|].
    apply Forall_insert; [exact Hc|]. by rewrite length_insert.
  - apply get2_Ok. exists (<[j := x]> row). split.
    + apply list_lookup_insert_eq. lia.
    + apply list_lookup_insert_eq. lia.
  - intros a b Hab. unfold get2, get.
    destruct (decide (a = i)) as [->|Ha].
    + rewrite list_lookup_insert_eq by lia. rewrite Hrow. simpl.
      rewrite list_lookup_insert_ne by naive_solver. reflexivity.
    + by rewrite list_lookup_insert_ne by done.
Qed.

(** ** Loops *)

(** The invariant rule for [for k in range(a, b)]: [I k] holds before the
    iteration for [k], and [I b] after the loop, which does not raise. *)
Lemma foldM_range_inv {S} (body : S → nat → result S) (I : nat → S → Prop)
    (a b : nat) (s : S) :
  a ≤ b → I a s →
  (∀ k s, a ≤ k < b → I k s → ∃ s', body s k = Ok s' ∧ I (Datatypes.S k) s') →
  ∃ s', foldM body (range a b) s = Ok s' ∧ I b s'.
Proof.
  unfold range. intros Hab. remember (b - a) as len eqn:Hlen.
  revert a s Hab Hlen. induction len as [|len IH]; intros a s Hab Hlen Hs Hbody.
  - exists s. split; [reflexivity|]. by replace b with a by lia.
  - simpl. destruct (Hbody a s) as (s1 & Hrun & Hs1); [lia | exact Hs|].
    rewrite Hrun. simpl. apply IH; [lia | lia | exact Hs1|].
    intros k s' Hk. apply Hbody. lia.
Qed.

Lemma range_snoc (a b : nat) : a ≤ b → range a (S b) = range a b ++ [b].
Proof.
  intros Hab. unfold range. replace (S b - a) with (S (b - a)) by lia.
  rewrite seq_S. f_equal. f_equal. lia.
Qed.
(** ** The fill of [smith_waterman] computes the recurrence *)

Section LocalFill.

Variables (s1 s2 : str) (scoring : ScoringMatrix.t).

Local Abbreviation m := (length s1).
Local Abbreviation n := (length s2).
Local Abbreviation gap := (ScoringMatrix.gap_penalty scoring).
Local Abbreviation Hr := (H_rec s1 s2 scoring).
Local Abbreviation Dr := (dir_rec s1 s2 scoring).

Lemma H_rec_S (i j : nat) :
  Hr (S i) (S j) =
    (sw_choose (Hr i j + cell_score s1 s2 scoring (S i) (S j))
       (Hr i (S j) + gap) (Hr (S i) j + gap)).1.
Proof. reflexivity. Qed.

Lemma H_rec_border (i j : nat) : i = 0 ∨ j = 0 → Hr i j = 0%Z.
Proof. intros [-> | ->]; [reflexivity | by destruct i]. Qed.

Lemma dir_rec_border (i j : nat) : i = 0 ∨ j = 0 → Dr i j = STOP.
Proof. intros [-> | ->]; [reflexivity | by destruct i]. Qed.

Lemma cell_score_get (i j : nat) (base1 base2 : ascii) :
  s1 !! (i - 1) = Some base1 → s2 !! (j - 1) = Some base2 →
  cell_score s1 s2 scoring i j = ScoringMatrix.score scoring base1 base2.
Proof. intros H1 H2. unfold cell_score. by rewrite H1, H2. Qed.

Lemma sw_cell_step (i j : nat) (st : sw_state) :
  1 ≤ i ≤ m → 1 ≤ j ≤ n → sw_inv s1 s2 scoring i j st →
  ∃ st', sw_cell s1 s2 scoring i st j = Ok st' ∧
         sw_inv s1 s2 scoring i (S j) st' ∧
         sw_max st' = track s1 s2 scoring i (sw_max st) j.
Proof.
  intros Hi Hj (HdH & HdT & Hmi & Hmj & Hcells).
  destruct (get_lt s1 (i - 1)) as (base1 & Hg1 & Hl1); [lia|].
  destruct (get_lt s2 (j - 1)) as (base2 & Hg2 & Hl2); [lia|].
  destruct (Hcells (i - 1) (j - 1)) as [Hdiag _];
    [lia | lia | unfold filled; lia |].
  destruct (Hcells (i - 1) j) as [Hup _]; [lia | lia | unfold filled; lia |].
  destruct (Hcells i (j - 1)) as [Hleft _]; [lia | lia | unfold filled; lia |].
  unfold sw_cell. rewrite Hg1, Hg2, Hdiag, Hup, Hleft. simpl.
  rewrite <- (cell_score_get i j base1 base2 Hl1 Hl2).
  destruct (sw_choose _ _ _) as [best direction] eqn:Hch.
  assert (Hbest : Hr i j = best ∧ Dr i j = direction).
  { destruct i as [|i']; [lia|]. destruct j as [|j']; [lia|].
    replace (S i' - 1) with i' in Hch by lia.
    replace (S j' - 1) with j' in Hch by lia.
    rewrite H_rec_S. unfold dir_rec. by rewrite Hch. }
  destruct Hbest as [Hbest Hdir].
  destruct (set2_spec (sw_H st) (m + 1) (n + 1) i j best)
    as (H' & HsetH & HdH' & HgetH & HotherH); [exact HdH | lia | lia |].
  destruct (set2_spec (sw_traceback st) (m + 1) (n + 1) i j direction)
    as (T' & HsetT & HdT' & HgetT & HotherT); [exact HdT | lia | lia |].
  rewrite HsetH, HsetT. simpl.
  assert (Hnew : ∀ a b, a ≤ m → b ≤ n → filled i (S j) a b →
            get2 H' a b = Ok (Hr a b) ∧ get2 T' a b = Ok (Dr a b)).
  { intros a b Ha Hb Hf. destruct (decide (a = i ∧ b = j)) as [[-> ->]|Hne].
    - by rewrite HgetH, HgetT, Hbest, Hdir.
    - rewrite HotherH, HotherT by exact Hne. apply Hcells; [lia | lia |].
      unfold filled in *. lia. }
  unfold track, sw_max. simpl. rewrite Hbest.
  case_decide; eexists; (split; [reflexivity|]); (split; [|reflexivity]);
    (split; [exact HdH'|]); (split; [exact HdT'|]);
    (split; [simpl; lia|]); (split; [simpl; lia | exact Hnew]).
Qed.

Lemma sw_row_loop (i : nat) (st : sw_state) :
  1 ≤ i ≤ m → sw_inv s1 s2 scoring i 1 st →
  ∃ st', foldM (sw_cell s1 s2 scoring i) (range 1 (n + 1)) st = Ok st' ∧
         sw_inv s1 s2 scoring (S i) 1 st' ∧
         sw_max st' = track_row s1 s2 scoring n (sw_max st) i.
Proof.
  intros Hi Hinv.
  destruct (foldM_range_inv (sw_cell s1 s2 scoring i)
              (λ j st', sw_inv s1 s2 scoring i j st' ∧
                        sw_max st' =
                          foldl (track s1 s2 scoring i) (sw_max st) (range 1 j))
              1 (n + 1) st) as (st' & Hrun & Hinv' & Hmax).
  - lia.
  - split; [exact Hinv | reflexivity].
  - intros j st1 Hj [Hinv1 Hmax1].
    destruct (sw_cell_step i j st1) as (st2 & Hstep & Hinv2 & Hmax2);
      [lia | lia | exact Hinv1 |].
    exists st2. split; [exact Hstep|]. split; [exact Hinv2|].
    rewrite range_snoc by lia. rewrite foldl_app. simpl.
    by rewrite <- Hmax1.
  - exists st'. split; [exact Hrun|]. split; [|exact Hmax].
    destruct Hinv' as (HdH & HdT & Hmi & Hmj & Hcells).
    split; [exact HdH|]. split; [exact HdT|]. split; [exact Hmi|].
    split; [exact Hmj|]. intros a b Ha Hb Hf.
    apply Hcells; [exact Ha | exact Hb |]. unfold filled in *. lia.
Qed.

(** [sw_fill] does not raise; it leaves the recurrence in every cell and the
    running maximum, with its first position, in the three counters. *)
Lemma sw_fill_spec :
  ∃ st, sw_fill s1 s2 scoring = Ok st ∧
        dims (sw_H st) (m + 1) (n + 1) ∧
        dims (sw_traceback st) (m + 1) (n + 1) ∧
        sw_max_i st ≤ m ∧ sw_max_j st ≤ n ∧
        (∀ a b, a ≤ m → b ≤ n →
           get2 (sw_H st) a b = Ok (Hr a b) ∧
           get2 (sw_traceback st) a b = Ok (Dr a b)) ∧
        sw_max st = track_all s1 s2 scoring m n.
Proof.
  unfold sw_fill.
  destruct (foldM_range_inv
              (λ st i, foldM (sw_cell s1 s2 scoring i) (range 1 (n + 1)) st)
              (λ i st', sw_inv s1 s2 scoring i 1 st' ∧
                        sw_max st' =
                          foldl (track_row s1 s2 scoring n) (0%Z, 0, 0)
                            (range 1 i))
              1 (m + 1)
              (mk_sw (repeat_list (repeat_list 0%Z (n + 1)) (m + 1))
                 (repeat_list (repeat_list STOP (n + 1)) (m + 1)) 0 0 0))
    as (st' & Hrun & Hinv' & Hmax).
  - lia.
  - split; [|reflexivity].
    split; [apply dims_replicate|]. split; [apply dims_replicate|].
    split; [simpl; lia|]. split; [simpl; lia|]. simpl.
    intros a b Ha Hb Hf. rewrite !get2_replicate by lia.
    rewrite H_rec_border, dir_rec_border by (unfold filled in Hf; lia).
    done.
  - intros i st1 Hi [Hinv1 Hmax1].
    destruct (sw_row_loop i st1) as (st2 & Hstep & Hinv2 & Hmax2);
      [lia | exact Hinv1 |].
    exists st2. split; [exact Hstep|]. split; [exact Hinv2|].
    rewrite range_snoc by lia. rewrite foldl_app. simpl.
    by rewrite <- Hmax1.
  - exists st'. split; [exact Hrun|].
    destruct Hinv' as (HdH & HdT & Hmi & Hmj & Hcells).
    split; [exact HdH|]. split; [exact HdT|]. split; [exact Hmi|].
    split; [exact Hmj|]. split; [|exact Hmax]. intros a b Ha Hb.
    apply Hcells; [exact Ha | exact Hb |]. unfold filled. lia.
Qed.

End LocalFill.
(** ** The two rows of [alignment_score_only] compute the recurrence *)

Lemma sw_choose_best (diag up left : Z) :
  (sw_choose diag up left).1 = max4 0 diag up left.
Proof.
  unfold sw_choose, max4. repeat case_decide; simpl; lia.
Qed.

Section ScoreOnly.

Variables (s1 s2 : str) (scoring : ScoringMatrix.t).

Local Abbreviation m := (length s1).
Local Abbreviation n := (length s2).
Local Abbreviation gap := (ScoringMatrix.gap_penalty scoring).
Local Abbreviation Hr := (H_rec s1 s2 scoring).

Lemma track_score (i j : nat) (acc : Z * nat * nat) :
  (track s1 s2 scoring i acc j).1.1 =
    if decide (Hr i j > acc.1.1)%Z then Hr i j else acc.1.1.
Proof. unfold track. by case_decide. Qed.

Lemma so_cell_step (i j : nat) (st : so_state) :
  1 ≤ i ≤ m → 1 ≤ j ≤ n → so_inv s1 s2 scoring i j st →
  ∃ st', so_cell s1 s2 scoring i st j = Ok st' ∧
         so_inv s1 s2 scoring i (S j) st' ∧
         so_max_score st' =
           if decide (Hr i j > so_max_score st)%Z then Hr i j
           else so_max_score st.
Proof.
  intros Hi Hj (Hlp & Hlc & Hprev & Hcurr).
  destruct (get_lt s1 (i - 1)) as (base1 & Hg1 & Hl1); [lia|].
  destruct (get_lt s2 (j - 1)) as (base2 & Hg2 & Hl2); [lia|].
  unfold so_cell.
  rewrite Hg1, Hg2, (Hprev (j - 1)), (Hprev j), (Hcurr (j - 1)) by lia.
  simpl. rewrite <- (cell_score_get s1 s2 scoring i j base1 base2 Hl1 Hl2).
  rewrite set_lt by lia. simpl.
  assert (Hbest : max4 0 (Hr (i - 1) (j - 1) + cell_score s1 s2 scoring i j)
                    (Hr (i - 1) j + gap) (Hr i (j - 1) + gap) = Hr i j).
  { destruct i as [|i']; [lia|]. destruct j as [|j']; [lia|].
    replace (S i' - 1) with i' by lia. replace (S j' - 1) with j' by lia.
    by rewrite H_rec_S, sw_choose_best. }
  rewrite Hbest.
  assert (Hnew : ∀ b, b < S j →
            get (<[j := Hr i j]> (so_curr_row st)) b = Ok (Hr i b)).
  { intros b Hb. destruct (decide (b = j)) as [->|Hne].
    - apply get_Ok, list_lookup_insert_eq. lia.
    - unfold get. rewrite list_lookup_insert_ne by done.
      apply Hcurr. lia. }
  case_decide; eexists; (split; [reflexivity|]); (split; [|reflexivity]);
    (split; [exact Hlp|]); (split; [simpl; by rewrite length_insert|]);
    (split; [exact Hprev | exact Hnew]).
Qed.

Lemma so_row_step (i : nat) (st : so_state) (acc : Z * nat * nat) :
  1 ≤ i ≤ m →
  length (so_prev_row st) = n + 1 →
  (∀ b, b ≤ n → get (so_prev_row st) b = Ok (Hr (i - 1) b)) →
  so_max_score st = acc.1.1 →
  ∃ st', so_row s1 s2 scoring n st i = Ok st' ∧
         length (so_prev_row st') = n + 1 ∧
         (∀ b, b ≤ n → get (so_prev_row st') b = Ok (Hr i b)) ∧
         so_max_score st' = (track_row s1 s2 scoring n acc i).1.1.
Proof.
  intros Hi Hlp Hprev Hmax. unfold so_row.
  destruct (foldM_range_inv (so_cell s1 s2 scoring i)
              (λ j st', so_inv s1 s2 scoring i j st' ∧
                        so_max_score st' =
                          (foldl (track s1 s2 scoring i) acc (range 1 j)).1.1)
              1 (n + 1)
              (mk_so (so_prev_row st) (repeat_list 0%Z (n + 1))
                 (so_max_score st)))
    as (st' & Hrun & (Hlp' & Hlc' & Hprev' & Hcurr') & Hmax').
  - lia.
  - split; [|exact Hmax].
    split; [exact Hlp|]. split; [apply length_replicate|].
    split; [exact Hprev|]. simpl. intros b Hb.
    apply get_Ok. unfold repeat_list. rewrite lookup_replicate_2 by lia.
    by rewrite H_rec_border by lia.
  - intros j st1 Hj [Hinv1 Hmax1].
    destruct (so_cell_step i j st1) as (st2 & Hstep & Hinv2 & Hmax2);
      [lia | lia | exact Hinv1 |].
    exists st2. split; [exact Hstep|]. split; [exact Hinv2|].
    rewrite range_snoc by lia. rewrite foldl_app. simpl.
    by rewrite track_score, <- Hmax1.
  - rewrite Hrun. simpl. eexists. split; [reflexivity|]. simpl.
    split; [exact Hlc'|]. split; [|exact Hmax'].
    intros b Hb. apply Hcurr'. lia.
Qed.

(** The loops of [alignment_score_only] do not raise and end with the
    running maximum of the recurrence. *)
Lemma so_loop_spec :
  ∃ st, foldM (so_row s1 s2 scoring n) (range 1 (m + 1))
          (mk_so (repeat_list 0%Z (n + 1)) (repeat_list 0%Z (n + 1)) 0)
        = Ok st ∧
        so_max_score st = (track_all s1 s2 scoring m n).1.1.
Proof.
  destruct (foldM_range_inv (so_row s1 s2 scoring n)
              (λ i st', length (so_prev_row st') = n + 1 ∧
                        (∀ b, b ≤ n →
                           get (so_prev_row st') b = Ok (Hr (i - 1) b)) ∧
                        so_max_score st' =
                          (foldl (track_row s1 s2 scoring n) (0%Z, 0, 0)
                             (range 1 i)).1.1)
              1 (m + 1)
              (mk_so (repeat_list 0%Z (n + 1)) (repeat_list 0%Z (n + 1)) 0))
    as (st' & Hrun & _ & _ & Hmax).
  - lia.
  - split; [apply length_replicate|]. split; [|reflexivity].
    simpl. intros b Hb. apply get_Ok. unfold repeat_list.
    by rewrite lookup_replicate_2 by lia.
  - intros i st1 Hi (Hlp & Hprev & Hmax1).
    destruct (so_row_step i st1 _ ltac:(lia) Hlp Hprev Hmax1)
      as (st2 & Hstep & Hlp2 & Hprev2 & Hmax2).
    exists st2. split; [exact Hstep|]. split; [exact Hlp2|].
    split.
    + intros b Hb. replace (S i - 1) with i by lia. by apply Hprev2.
    + rewrite range_snoc by lia. rewrite foldl_app. exact Hmax2.
  - exists st'. split; [exact Hrun | exact Hmax].
Qed.

End ScoreOnly.
(** ** [smith_waterman] *)

Lemma scoring_or_default_Ok (scoring : option ScoringMatrix.t) :
  ∃ sc, scoring_or_default scoring = Ok sc.
Proof. destruct scoring as [sc|]; eexists; reflexivity. Qed.

Lemma traceback_local_loop_Ok (seq1 seq2 : str)
    (traceback : list (list AlignDirection)) (fuel i j : nat)
    (aligned1 aligned2 : str) :
  dims traceback (length seq1 + 1) (length seq2 + 1) →
  i ≤ length seq1 → j ≤ length seq2 → i + j ≤ fuel →
  length aligned1 = length aligned2 →
  ∃ r1 r2 i' j',
    _traceback_local_loop fuel seq1 seq2 traceback i j aligned1 aligned2
      = Ok (r1, r2, i', j') ∧
    length r1 = length r2.
Proof.
  intros Hd. revert i j aligned1 aligned2.
  induction fuel as [|fuel IH]; intros i j a1 a2 Hi Hj Hfuel Hlen; simpl.
  - case_decide; [lia|]. by do 4 eexists.
  - case_decide as Hpos; [|by do 4 eexists].
    destruct (get2_dims traceback _ _ i j Hd) as [d Hgd]; [lia | lia |].
    rewrite Hgd. simpl.
    destruct (get_lt seq1 (i - 1)) as (c1 & Hg1 & _); [lia|].
    destruct (get_lt seq2 (j - 1)) as (c2 & Hg2 & _); [lia|].
    destruct d; rewrite ?Hg1, ?Hg2; simpl.
    + apply IH; [lia | lia | lia | simpl; lia].
    + apply IH; [lia | lia | lia | simpl; lia].
    + apply IH; [lia | lia | lia | simpl; lia].
    + by do 4 eexists.
Qed.

(** [smith_waterman] returns an alignment whose score is the running maximum
    of the recurrence. *)
Lemma smith_waterman_score (seq1 seq2 : Sequence.t)
    (scoring : option ScoringMatrix.t) (sc : ScoringMatrix.t) :
  scoring_or_default scoring = Ok sc →
  Sequence.len seq1 ≠ 0 → Sequence.len seq2 ≠ 0 →
  ∃ al, smith_waterman seq1 seq2 scoring = Ok al ∧
        Alignment.score al =
          (track_all (Sequence.bases seq1) (Sequence.bases seq2) sc
             (Sequence.len seq1) (Sequence.len seq2)).1.1 ∧
        length (Alignment.aligned_seq1 al) = length (Alignment.aligned_seq2 al).
Proof.
  intros Hsc H1 H2. unfold smith_waterman. rewrite Hsc. simpl.
  case_decide as Hempty; [lia|].
  destruct (sw_fill_spec (Sequence.bases seq1) (Sequence.bases seq2) sc)
    as (st & Hfill & _ & HdT & Hmi & Hmj & _ & Hmax).
  rewrite Hfill. simpl.
  destruct (traceback_local_loop_Ok (Sequence.bases seq1) (Sequence.bases seq2)
              (sw_traceback st) (sw_max_i st + sw_max_j st)
              (sw_max_i st) (sw_max_j st) [] [])
    as (r1 & r2 & i' & j' & Htb & Hlen); [exact HdT | lia | lia | lia | done |].
  unfold _traceback_local. rewrite Htb. simpl.
  unfold Alignment.with_positions, Alignment.init.
  case_decide; [done|]. eexists. split; [reflexivity|]. simpl.
  split; [|exact Hlen]. unfold Sequence.len. rewrite <- Hmax. reflexivity.
Qed.

Lemma alignment_score_only_score (seq1 seq2 : Sequence.t)
    (scoring : option ScoringMatrix.t) (sc : ScoringMatrix.t) :
  scoring_or_default scoring = Ok sc →
  Sequence.len seq1 ≠ 0 → Sequence.len seq2 ≠ 0 →
  alignment_score_only seq1 seq2 scoring =
    Ok (track_all (Sequence.bases seq1) (Sequence.bases seq2) sc
          (Sequence.len seq1) (Sequence.len seq2)).1.1.
Proof.
  intros Hsc H1 H2. unfold alignment_score_only. rewrite Hsc. simpl.
  case_decide as Hempty; [lia|].
  destruct (so_loop_spec (Sequence.bases seq1) (Sequence.bases seq2) sc)
    as (st & Hrun & Hmax).
  unfold Sequence.len. rewrite Hrun. simpl. by rewrite Hmax.
Qed.

(** C1: on non-empty sequences [alignment_score_only] returns the score of
    the alignment that [smith_waterman] returns, whatever the scoring
    matrix. *)
Theorem score_only_matches_smith_waterman (seq1 seq2 : Sequence.t)
    (scoring : option ScoringMatrix.t) :
  Sequence.len seq1 ≠ 0 → Sequence.len seq2 ≠ 0 →
  ∃ al, smith_waterman seq1 seq2 scoring = Ok al ∧
        alignment_score_only seq1 seq2 scoring = Ok (Alignment.score al).
Proof.
  intros H1 H2. destruct (scoring_or_default_Ok scoring) as [sc Hsc].
  destruct (smith_waterman_score seq1 seq2 scoring sc Hsc H1 H2)
    as (al & Hal & Hscore & _).
  exists al. split; [exact Hal|].
  rewrite Hscore. by apply alignment_score_only_score.
Qed.

Lemma score_only_matches_smith_waterman_witness :
  ∃ al,
    smith_waterman (Sequence.mk (lit "ATCGATCG") None None DNA true)
      (Sequence.mk (lit "TCGA") None None DNA true) None = Ok al ∧
    alignment_score_only (Sequence.mk (lit "ATCGATCG") None None DNA true)
      (Sequence.mk (lit "TCGA") None None DNA true) None
      = Ok (Alignment.score al).
Proof.
  apply score_only_matches_smith_waterman; vm_compute; discriminate.
Defined.

(** ** Tie-breaks of the local fill *)

Lemma sw_choose_cases (diag up left : Z) :
  let '(best, direction) := sw_choose diag up left in
  best = max4 0 diag up left ∧
  (direction = DIAGONAL ↔ (0 < diag ∧ up ≤ diag ∧ left ≤ diag)%Z) ∧
  (direction = UP ↔ (0 < up ∧ diag < up ∧ left ≤ up)%Z) ∧
  (direction = LEFT ↔ (0 < left ∧ diag < left ∧ up < left)%Z) ∧
  (direction = STOP ↔ best = 0%Z).
Proof.
  unfold sw_choose, max4.
  repeat case_decide; simpl; (split; [lia|]);
    repeat split; intros; try discriminate; try lia.
Qed.

(** C2 (as amended): the fill of [smith_waterman] does not raise, and in
    every interior cell the stored value is [max(0, diag, up, left)] and the
    stored direction is [STOP] exactly when that value is 0; otherwise it is
    [DIAGONAL] when the diagonal candidate attains the value, else [UP] when
    the upper candidate does, else [LEFT].  So the zero floor wins every tie,
    and among the positive candidates the diagonal is preferred to up, and
    up to left. *)
Theorem sw_tie_break (s1 s2 : str) (scoring : ScoringMatrix.t) (i j : nat) :
  1 ≤ i ≤ length s1 → 1 ≤ j ≤ length s2 →
  ∃ st diag up left best direction,
    sw_fill s1 s2 scoring = Ok st ∧
    candidates s1 s2 scoring (sw_H st) i j = Ok (diag, up, left) ∧
    get2 (sw_H st) i j = Ok best ∧
    get2 (sw_traceback st) i j = Ok direction ∧
    best = max4 0 diag up left ∧
    (direction = DIAGONAL ↔ (0 < diag ∧ up ≤ diag ∧ left ≤ diag)%Z) ∧
    (direction = UP ↔ (0 < up ∧ diag < up ∧ left ≤ up)%Z) ∧
    (direction = LEFT ↔ (0 < left ∧ diag < left ∧ up < left)%Z) ∧
    (direction = STOP ↔ best = 0%Z).
Proof.
  intros Hi Hj.
  destruct (sw_fill_spec s1 s2 scoring)
    as (st & Hfill & _ & _ & _ & _ & Hcells & _).
  destruct (get_lt s1 (i - 1)) as (base1 & Hg1 & Hl1); [lia|].
  destruct (get_lt s2 (j - 1)) as (base2 & Hg2 & Hl2); [lia|].
  destruct (Hcells (i - 1) (j - 1)) as [Hdiag _]; [lia | lia |].
  destruct (Hcells (i - 1) j) as [Hup _]; [lia | lia |].
  destruct (Hcells i (j - 1)) as [Hleft _]; [lia | lia |].
  destruct (Hcells i j) as [Hbest Hdir]; [lia | lia |].
  exists st. do 5 eexists. split; [exact Hfill|].
  split.
  { unfold candidates. rewrite Hg1, Hg2, Hdiag, Hup, Hleft. reflexivity. }
  split; [exact Hbest|]. split; [exact Hdir|].
  rewrite <- (cell_score_get s1 s2 scoring i j base1 base2 Hl1 Hl2).
  destruct i as [|i']; [lia|]. destruct j as [|j']; [lia|].
  replace (S i' - 1) with i' by lia. replace (S j' - 1) with j' by lia.
  rewrite H_rec_S. unfold dir_rec.
  pose proof (sw_choose_cases
    (H_rec s1 s2 scoring i' j' + cell_score s1 s2 scoring (S i') (S j'))
    (H_rec s1 s2 scoring i' (S j') + ScoringMatrix.gap_penalty scoring)
    (H_rec s1 s2 scoring (S i') j' + ScoringMatrix.gap_penalty scoring)) as Hc.
  destruct (sw_choose _ _ _) as [best direction]. exact Hc.
Qed.

Lemma sw_tie_break_witness :
  ∃ st direction,
    sw_fill (lit "ACC") (lit "AGG") (ScoringMatrix.mk 2 (-1) (-2) (-1)) = Ok st ∧
    get2 (sw_traceback st) 2 2 = Ok direction ∧ direction = DIAGONAL.
Proof.
  destruct (sw_tie_break (lit "ACC") (lit "AGG")
              (ScoringMatrix.mk 2 (-1) (-2) (-1)) 2 2)
    as (st & diag & up & left & best & direction
        & Hfill & Hcand & Hbest & Hdir & _ & Hdiag & _).
  { simpl. lia. }
  { simpl. lia. }
  exists st, direction. split; [exact Hfill|]. split; [exact Hdir|].
  apply Hdiag.
  vm_compute in Hfill. injection Hfill as <-.
  vm_compute in Hcand. injection Hcand as <- <- <-. lia.
Defined.

(** C2 (as stated) fails: with the default scoring, cell [(3, 3)] of [ACC]
    against [AGG] has the diagonal candidate 0, equal to the value of the
    cell, and the direction [STOP]. *)
Lemma diagonal_loses_to_floor :
  ¬ diagonal_wins_ties (lit "ACC") (lit "AGG") (ScoringMatrix.mk 2 (-1) (-2) (-1)).
Proof.
  intros Hclaim.
  destruct (sw_fill (lit "ACC") (lit "AGG") (ScoringMatrix.mk 2 (-1) (-2) (-1)))
    as [st|e] eqn:Hfill; [|vm_compute in Hfill; discriminate].
  specialize (Hclaim st 3 3 0%Z (-2)%Z (-2)%Z 0%Z STOP Hfill).
  vm_compute in Hfill. injection Hfill as <-.
  assert (STOP = DIAGONAL) as Habs; [|discriminate Habs].
  apply Hclaim; try reflexivity; simpl; lia.
Qed.
(** ** The fill of [needleman_wunsch] *)

Lemma fill_column_dims {A} (M : list (list A)) (r c a : nat) (v : nat → A) :
  dims M r c → 0 < c → a ≤ r →
  ∃ M', foldM (λ M i, set2 M i 0 (v i)) (range a r) M = Ok M' ∧ dims M' r c.
Proof.
  intros Hd Hc Ha.
  apply (foldM_range_inv _ (λ _ M', dims M' r c)); [exact Ha | exact Hd |].
  intros k M1 Hk Hd1.
  destruct (set2_spec M1 r c k 0 (v k) Hd1) as (M2 & Hset & Hd2 & _);
    [lia | lia |].
  eauto.
Qed.

Lemma fill_row_dims {A} (M : list (list A)) (r c a : nat) (v : nat → A) :
  dims M r c → 0 < r → a ≤ c →
  ∃ M', foldM (λ M j, set2 M 0 j (v j)) (range a c) M = Ok M' ∧ dims M' r c.
Proof.
  intros Hd Hr Ha.
  apply (foldM_range_inv _ (λ _ M', dims M' r c)); [exact Ha | exact Hd |].
  intros k M1 Hk Hd1.
  destruct (set2_spec M1 r c 0 k (v k) Hd1) as (M2 & Hset & Hd2 & _);
    [lia | lia |].
  eauto.
Qed.

Lemma nw_choose_moves (diag up left : Z) : (nw_choose diag up left).2 ≠ STOP.
Proof. unfold nw_choose. repeat case_decide; discriminate. Qed.

Section GlobalFill.

Variables (s1 s2 : str) (scoring : ScoringMatrix.t).

Local Abbreviation m := (length s1).
Local Abbreviation n := (length s2).

Lemma nw_cell_step (i j : nat)
    (st : list (list Z) * list (list AlignDirection)) :
  1 ≤ i ≤ m → 1 ≤ j ≤ n → nw_inv s1 s2 i j st →
  ∃ st', nw_cell s1 s2 scoring i st j = Ok st' ∧ nw_inv s1 s2 i (S j) st'.
Proof.
  intros Hi Hj (HdH & HdT & Hcells). destruct st as [H T]. simpl in *.
  destruct (get_lt s1 (i - 1)) as (base1 & Hg1 & _); [lia|].
  destruct (get_lt s2 (j - 1)) as (base2 & Hg2 & _); [lia|].
  destruct (get2_dims H _ _ (i - 1) (j - 1) HdH) as [hd Hhd]; [lia | lia |].
  destruct (get2_dims H _ _ (i - 1) j HdH) as [hu Hhu]; [lia | lia |].
  destruct (get2_dims H _ _ i (j - 1) HdH) as [hl Hhl]; [lia | lia |].
  rewrite Hg1, Hg2, Hhd, Hhu, Hhl. simpl.
  destruct (nw_choose _ _ _) as [best direction] eqn:Hch.
  assert (Hmove : direction ≠ STOP).
  { change direction with (best, direction).2. rewrite <- Hch.
    apply nw_choose_moves. }
  destruct (set2_spec H (m + 1) (n + 1) i j best HdH)
    as (H' & HsetH & HdH' & _); [lia | lia |].
  destruct (set2_spec T (m + 1) (n + 1) i j direction HdT)
    as (T' & HsetT & HdT' & HgetT & HotherT); [lia | lia |].
  rewrite HsetH, HsetT. simpl. eexists. split; [reflexivity|].
  split; [exact HdH'|]. split; [exact HdT'|]. simpl.
  intros a b Ha Hb Hf. destruct (decide (a = i ∧ b = j)) as [[-> ->]|Hne].
  - eauto.
  - rewrite HotherT by exact Hne. apply Hcells; [lia | lia | lia].
Qed.

(** [nw_fill] does not raise; it leaves matrices of [m + 1] by [n + 1] cells
    and a move in every interior cell of the traceback matrix. *)
Lemma nw_fill_spec :
  ∃ H T, nw_fill s1 s2 scoring = Ok (H, T) ∧
         dims H (m + 1) (n + 1) ∧ dims T (m + 1) (n + 1) ∧
         ∀ a b, 1 ≤ a ≤ m → 1 ≤ b ≤ n →
           ∃ d, get2 T a b = Ok d ∧ d ≠ STOP.
Proof.
  unfold nw_fill.
  destruct (fill_column_dims (repeat_list (repeat_list 0%Z (n + 1)) (m + 1))
              (m + 1) (n + 1) 0
              (λ i, (Z.of_nat i * ScoringMatrix.gap_penalty scoring)%Z))
    as (H1 & Hrun1 & Hd1); [apply dims_replicate | lia | lia |].
  rewrite Hrun1. simpl.
  destruct (fill_row_dims H1 (m + 1) (n + 1) 0
              (λ j, (Z.of_nat j * ScoringMatrix.gap_penalty scoring)%Z) Hd1)
    as (H2 & Hrun2 & Hd2); [lia | lia |].
  rewrite Hrun2. simpl.
  destruct (fill_column_dims (repeat_list (repeat_list STOP (n + 1)) (m + 1))
              (m + 1) (n + 1) 1 (λ _, UP))
    as (T1 & Hrun3 & Hd3); [apply dims_replicate | lia | lia |].
  rewrite Hrun3. simpl.
  destruct (fill_row_dims T1 (m + 1) (n + 1) 1 (λ _, LEFT) Hd3)
    as (T2 & Hrun4 & Hd4); [lia | lia |].
  rewrite Hrun4. simpl.
  destruct (foldM_range_inv
              (λ st i, foldM (nw_cell s1 s2 scoring i) (range 1 (n + 1)) st)
              (λ i st', nw_inv s1 s2 i 1 st') 1 (m + 1) (H2, T2))
    as ([H T] & Hrun & HdH & HdT & Hcells).
  - lia.
  - split; [exact Hd2|]. split; [exact Hd4|]. intros a b Ha Hb Hf. lia.
  - intros i st1 Hi Hinv1.
    destruct (foldM_range_inv (nw_cell s1 s2 scoring i)
                (λ j st', nw_inv s1 s2 i j st') 1 (n + 1) st1)
      as (st2 & Hrow & HdH & HdT & Hcells).
    + lia.
    + exact Hinv1.
    + intros j st' Hj Hinv'. apply nw_cell_step; [lia | lia | exact Hinv'].
    + exists st2. split; [exact Hrow|]. split; [exact HdH|].
      split; [exact HdT|]. intros a b Ha Hb Hf. apply Hcells; lia.
  - exists H, T. split; [exact Hrun|]. split; [exact HdH|].
    split; [exact HdT|]. intros a b Ha Hb. apply Hcells; lia.
Qed.

End GlobalFill.
(** ** The traceback of [needleman_wunsch] *)

Lemma degap_app (p q : str) : degap (p ++ q) = degap p ++ degap q.
Proof. apply filter_app. Qed.

Lemma degap_gap (p : str) : degap (p ++ ["-"%char]) = degap p.
Proof. rewrite degap_app. simpl. apply app_nil_r. Qed.

Lemma take_pred_snoc {A} (s : list A) (i : nat) (c : A) :
  0 < i → s !! (i - 1) = Some c → take (i - 1) s ++ [c] = take i s.
Proof.
  intros Hi Hc. rewrite <- (take_S_r _ _ _ Hc). f_equal. lia.
Qed.

Lemma length_degap (s : str) :
  length s = Alignment.count_char "-" s + length (degap s).
Proof.
  unfold Alignment.count_char, degap.
  induction s as [|c s IH]; [reflexivity|].
  rewrite !filter_cons. simpl. repeat case_decide; simpl; try lia; done.
Qed.

(** One iteration of the loop: the columns emitted by the remaining
    iterations come before the column [(x1, x2)] emitted by this one. *)
Lemma traceback_global_extend (seq1 seq2 : str) (i j i' j' : nat)
    (x1 x2 : ascii) (aligned1 aligned2 : str) (r : result (str * str)) :
  (∃ p1 p2, r = Ok (p1 ++ x1 :: aligned1, p2 ++ x2 :: aligned2) ∧
            length p1 = length p2 ∧
            degap p1 = degap (take i' seq1) ∧
            degap p2 = degap (take j' seq2)) →
  degap (take i' seq1 ++ [x1]) = degap (take i seq1) →
  degap (take j' seq2 ++ [x2]) = degap (take j seq2) →
  ∃ p1 p2, r = Ok (p1 ++ aligned1, p2 ++ aligned2) ∧
           length p1 = length p2 ∧
           degap p1 = degap (take i seq1) ∧
           degap p2 = degap (take j seq2).
Proof.
  intros (p1 & p2 & -> & Hlen & H1 & H2) Hx1 Hx2.
  exists (p1 ++ [x1]), (p2 ++ [x2]).
  rewrite <- !app_assoc. simpl. split; [reflexivity|].
  split; [rewrite !length_app; simpl; lia|].
  rewrite <- Hx1, <- Hx2, !degap_app, H1, H2. done.
Qed.

Lemma traceback_global_loop_spec (seq1 seq2 : str)
    (traceback : list (list AlignDirection)) (fuel i j : nat)
    (aligned1 aligned2 : str) :
  dims traceback (length seq1 + 1) (length seq2 + 1) →
  (∀ a b, 1 ≤ a ≤ length seq1 → 1 ≤ b ≤ length seq2 →
     ∃ d, get2 traceback a b = Ok d ∧ d ≠ STOP) →
  i ≤ length seq1 → j ≤ length seq2 → i + j ≤ fuel →
  ∃ p1 p2,
    _traceback_global_loop fuel seq1 seq2 traceback i j aligned1 aligned2
      = Ok (p1 ++ aligned1, p2 ++ aligned2) ∧
    length p1 = length p2 ∧
    degap p1 = degap (take i seq1) ∧
    degap p2 = degap (take j seq2).
Proof.
  intros Hd Hmoves. revert i j aligned1 aligned2.
  induction fuel as [|fuel IH]; intros i j a1 a2 Hi Hj Hfuel; simpl.
  { case_decide; [lia|]. exists [], [].
    replace i with 0 by lia. replace j with 0 by lia. done. }
  case_decide as Hpos.
  2:{ exists [], []. replace i with 0 by lia. replace j with 0 by lia. done. }
  assert (Hup : ∀ c1, 0 < i → seq1 !! (i - 1) = Some c1 →
            ∃ p1 p2,
              _traceback_global_loop fuel seq1 seq2 traceback (i - 1) j
                (c1 :: a1) ("-"%char :: a2) = Ok (p1 ++ a1, p2 ++ a2) ∧
              length p1 = length p2 ∧
              degap p1 = degap (take i seq1) ∧
              degap p2 = degap (take j seq2)).
  { intros c1 Hi0 Hc1.
    eapply traceback_global_extend; [apply IH; lia | |apply degap_gap].
    by rewrite take_pred_snoc. }
  assert (Hleft : ∀ c2, 0 < j → seq2 !! (j - 1) = Some c2 →
            ∃ p1 p2,
              _traceback_global_loop fuel seq1 seq2 traceback i (j - 1)
                ("-"%char :: a1) (c2 :: a2) = Ok (p1 ++ a1, p2 ++ a2) ∧
              length p1 = length p2 ∧
              degap p1 = degap (take i seq1) ∧
              degap p2 = degap (take j seq2)).
  { intros c2 Hj0 Hc2.
    eapply traceback_global_extend; [apply IH; lia |apply degap_gap|].
    by rewrite take_pred_snoc. }
  case_decide as Hi0.
  { destruct (get_lt seq2 (j - 1)) as (c2 & Hg2 & Hl2); [lia|].
    rewrite Hg2. simpl. apply Hleft; [lia | exact Hl2]. }
  case_decide as Hj0.
  { destruct (get_lt seq1 (i - 1)) as (c1 & Hg1 & Hl1); [lia|].
    rewrite Hg1. simpl. apply Hup; [lia | exact Hl1]. }
  destruct (Hmoves i j) as (d & Hgd & Hmove); [lia | lia |].
  destruct (get_lt seq1 (i - 1)) as (c1 & Hg1 & Hl1); [lia|].
  destruct (get_lt seq2 (j - 1)) as (c2 & Hg2 & Hl2); [lia|].
  rewrite Hgd. simpl. destruct d; [| | |done]; rewrite ?Hg1, ?Hg2; simpl.
  - eapply traceback_global_extend; [apply IH; lia | |];
      by rewrite take_pred_snoc by (done || lia).
  - apply Hup; [lia | exact Hl1].
  - apply Hleft; [lia | exact Hl2].
Qed.

(** [needleman_wunsch] returns an alignment of two rows of one length that,
    gaps apart, are the two sequences. *)
Lemma needleman_wunsch_spec (seq1 seq2 : Sequence.t)
    (scoring : option ScoringMatrix.t) :
  Sequence.len seq1 ≠ 0 → Sequence.len seq2 ≠ 0 →
  ∃ al, needleman_wunsch seq1 seq2 scoring = Ok al ∧
        length (Alignment.aligned_seq1 al)
          = length (Alignment.aligned_seq2 al) ∧
        degap (Alignment.aligned_seq1 al) = degap (Sequence.bases seq1) ∧
        degap (Alignment.aligned_seq2 al) = degap (Sequence.bases seq2).
Proof.
  intros H1 H2. destruct (scoring_or_default_Ok scoring) as [sc Hsc].
  unfold needleman_wunsch. rewrite Hsc. simpl.
  case_decide as Hempty; [lia|].
  destruct (nw_fill_spec (Sequence.bases seq1) (Sequence.bases seq2) sc)
    as (H & T & Hfill & HdH & HdT & Hmoves).
  rewrite Hfill. simpl. unfold _traceback_global, Sequence.len.
  destruct (traceback_global_loop_spec (Sequence.bases seq1)
              (Sequence.bases seq2) T
              (length (Sequence.bases seq1) + length (Sequence.bases seq2))
              (length (Sequence.bases seq1)) (length (Sequence.bases seq2))
              [] [] HdT Hmoves)
    as (p1 & p2 & Htb & Hlen & Hp1 & Hp2); [lia | lia | lia |].
  rewrite Htb, !app_nil_r. simpl.
  destruct (get2_dims H _ _ (length (Sequence.bases seq1))
              (length (Sequence.bases seq2)) HdH) as [score Hscore];
    [lia | lia |].
  rewrite Hscore. simpl. unfold Alignment.new, Alignment.init.
  case_decide; [done|]. eexists. split; [reflexivity|]. simpl.
  rewrite !firstn_all in *. done.
Qed.

Lemma degap_ok (s : Sequence.t) :
  Sequence.ok s → degap (Sequence.bases s) = Sequence.bases s.
Proof.
  intros [_ Hv]. apply is_valid_Forall in Hv. apply filter_all.
  eapply Forall_impl; [exact Hv|]. intros c Hc ->. revert Hc.
  unfold Sequence.valid_bases, VALID_DNA_BASES, VALID_RNA_BASES.
  case_decide; set_unfold; intros Hc; destruct_or!; discriminate.
Qed.

(** C4: on non-empty sequences [needleman_wunsch] returns an alignment whose
    two rows have the same length; for [ATCGATCG] against [ATCG] the two
    rows hold at least 4 gap symbols in total, whatever the scoring
    matrix. *)
Theorem needleman_wunsch_rows (seq1 seq2 : Sequence.t)
    (scoring : option ScoringMatrix.t) :
  Sequence.len seq1 ≠ 0 → Sequence.len seq2 ≠ 0 →
  ∃ al, needleman_wunsch seq1 seq2 scoring = Ok al ∧
        length (Alignment.aligned_seq1 al)
          = length (Alignment.aligned_seq2 al) ∧
        (Sequence.bases seq1 = lit "ATCGATCG" →
         Sequence.bases seq2 = lit "ATCG" →
         4 ≤ Alignment.total_gaps al).
Proof.
  intros H1 H2.
  destruct (needleman_wunsch_spec seq1 seq2 scoring H1 H2)
    as (al & Hal & Hlen & Hd1 & Hd2).
  exists al. split; [exact Hal|]. split; [exact Hlen|].
  intros Hb1 Hb2. rewrite Hb1 in Hd1. rewrite Hb2 in Hd2.
  unfold Alignment.total_gaps, Alignment.gaps_seq1, Alignment.gaps_seq2.
  pose proof (length_degap (Alignment.aligned_seq1 al)) as Hl1.
  pose proof (length_degap (Alignment.aligned_seq2 al)) as Hl2.
  rewrite Hd1 in Hl1. rewrite Hd2 in Hl2.
  change (length (degap (lit "ATCGATCG"))) with 8 in Hl1.
  change (length (degap (lit "ATCG"))) with 4 in Hl2. lia.
Qed.

Lemma needleman_wunsch_rows_witness :
  ∃ al,
    needleman_wunsch (Sequence.mk (lit "ATCGATCG") None None DNA true)
      (Sequence.mk (lit "ATCG") None None DNA true) None = Ok al ∧
    4 ≤ Alignment.total_gaps al.
Proof.
  destruct (needleman_wunsch_rows
              (Sequence.mk (lit "ATCGATCG") None None DNA true)
              (Sequence.mk (lit "ATCG") None None DNA true) None)
    as (al & Hal & _ & Hgaps); [vm_compute; discriminate..|].
  exists al. split; [exact Hal|]. by apply Hgaps.
Defined.

(** C10: on valid sequences [needleman_wunsch] consumes both inputs: with
    the gap symbols deleted, the two rows of the alignment are the bases of
    the two sequences.  The traceback matrix it walks holds a move other
    than [STOP] in every interior cell. *)
Theorem needleman_wunsch_consumes (seq1 seq2 : Sequence.t)
    (scoring : option ScoringMatrix.t) :
  Sequence.ok seq1 → Sequence.ok seq2 →
  ∃ sc H traceback al,
    scoring_or_default scoring = Ok sc ∧
    nw_fill (Sequence.bases seq1) (Sequence.bases seq2) sc
      = Ok (H, traceback) ∧
    (∀ i j, 1 ≤ i ≤ Sequence.len seq1 → 1 ≤ j ≤ Sequence.len seq2 →
       ∃ d, get2 traceback i j = Ok d ∧ d ≠ STOP) ∧
    needleman_wunsch seq1 seq2 scoring = Ok al ∧
    degap (Alignment.aligned_seq1 al) = Sequence.bases seq1 ∧
    degap (Alignment.aligned_seq2 al) = Sequence.bases seq2.
Proof.
  intros Hok1 Hok2. destruct (scoring_or_default_Ok scoring) as [sc Hsc].
  destruct (nw_fill_spec (Sequence.bases seq1) (Sequence.bases seq2) sc)
    as (H & T & Hfill & _ & _ & Hmoves).
  destruct (needleman_wunsch_spec seq1 seq2 scoring)
    as (al & Hal & _ & Hd1 & Hd2).
  { destruct Hok1 as [Hne _]. unfold Sequence.len.
    by destruct (Sequence.bases seq1). }
  { destruct Hok2 as [Hne _]. unfold Sequence.len.
    by destruct (Sequence.bases seq2). }
  exists sc, H, T, al. split; [exact Hsc|]. split; [exact Hfill|].
  split; [exact Hmoves|]. split; [exact Hal|].
  by rewrite Hd1, Hd2, !degap_ok.
Qed.

Lemma needleman_wunsch_consumes_witness :
  ∃ al,
    needleman_wunsch (Sequence.mk (lit "GATTACA") None None DNA true)
      (Sequence.mk (lit "GCAUGCU") None None RNA true) None = Ok al ∧
    degap (Alignment.aligned_seq1 al) = lit "GATTACA" ∧
    degap (Alignment.aligned_seq2 al) = lit "GCAUGCU".
Proof.
  destruct (needleman_wunsch_consumes
              (Sequence.mk (lit "GATTACA") None None DNA true)
              (Sequence.mk (lit "GCAUGCU") None None RNA true) None)
    as (sc & H & T & al & _ & _ & _ & Hal & Hd1 & Hd2).
  { split; [discriminate | reflexivity]. }
  { split; [discriminate | reflexivity]. }
  exists al. split; [exact Hal|]. split; [exact Hd1 | exact Hd2].
Defined.
(** ** Bounds on the local recurrence *)

Section LocalBounds.

Variables (s1 s2 : str) (scoring : ScoringMatrix.t).

Local Abbreviation gap := (ScoringMatrix.gap_penalty scoring).
Local Abbreviation Hr := (H_rec s1 s2 scoring).
Local Abbreviation matchv := (ScoringMatrix.match_score scoring).

Lemma cell_score_le (i j : nat) :
  ScoringSpec.valid scoring → (cell_score s1 s2 scoring i j ≤ matchv)%Z.
Proof.
  intros (Hm & Hmm & _). unfold cell_score, ScoringMatrix.score.
  destruct (s1 !! (i - 1)), (s2 !! (j - 1)); try case_decide; lia.
Qed.

Lemma H_rec_le (i j : nat) :
  ScoringSpec.valid scoring → (Hr i j ≤ matchv * Z.of_nat i)%Z.
Proof.
  intros Hv. pose proof Hv as (Hm & _ & Hg & _).
  revert j. induction i as [|i IHi]; intros j; [simpl; lia|].
  induction j as [|j IHj]; [rewrite H_rec_border by lia; lia|].
  rewrite H_rec_S, sw_choose_best. unfold max4, ScoringMatrix.gap_penalty.
  pose proof (cell_score_le (S i) (S j) Hv).
  pose proof (IHi j). pose proof (IHi (S j)). lia.
Qed.

Lemma H_rec_diagonal (i : nat) :
  s1 = s2 → i ≤ length s1 → (matchv * Z.of_nat i ≤ Hr i i)%Z.
Proof.
  intros Heq. induction i as [|i IH]; intros Hi; [simpl; lia|].
  rewrite H_rec_S, sw_choose_best. unfold max4.
  destruct (lookup_lt_is_Some_2 s1 i) as [c Hc]; [lia|].
  assert (cell_score s1 s2 scoring (S i) (S i) = matchv) as Hcs.
  { unfold cell_score. rewrite <- Heq. replace (S i - 1) with i by lia.
    rewrite Hc. unfold ScoringMatrix.score. by case_decide. }
  rewrite Hcs. specialize (IH ltac:(lia)). lia.
Qed.

Lemma foldl_track_le (B : Z) (i : nat) (l : list nat) (acc : Z * nat * nat) :
  (acc.1.1 ≤ B)%Z → (∀ j, Hr i j ≤ B)%Z →
  ((foldl (track s1 s2 scoring i) acc l).1.1 ≤ B)%Z.
Proof.
  intros Hacc Hb. revert acc Hacc.
  induction l as [|j l IH]; intros acc Hacc; [exact Hacc|].
  simpl. apply IH. rewrite track_score. case_decide; [apply Hb | exact Hacc].
Qed.

Lemma foldl_track_ge (i : nat) (l : list nat) (acc : Z * nat * nat) :
  (acc.1.1 ≤ (foldl (track s1 s2 scoring i) acc l).1.1)%Z ∧
  ∀ j, j ∈ l → (Hr i j ≤ (foldl (track s1 s2 scoring i) acc l).1.1)%Z.
Proof.
  revert acc. induction l as [|j l IH]; intros acc.
  { split; [simpl; lia|]. intros j Hj. by apply elem_of_nil in Hj. }
  simpl. destruct (IH (track s1 s2 scoring i acc j)) as [Hacc Hall].
  rewrite track_score in Hacc. split; [case_decide; lia|].
  intros j' Hj'. apply elem_of_cons in Hj' as [->|Hj']; [|by apply Hall].
  case_decide; lia.
Qed.

Lemma track_all_le (m n : nat) :
  ScoringSpec.valid scoring →
  ((track_all s1 s2 scoring m n).1.1 ≤ matchv * Z.of_nat m)%Z.
Proof.
  intros Hv. pose proof Hv as (Hm & _). unfold track_all.
  assert (Hgen : ∀ l acc, Forall (λ i, i ≤ m) l →
            (acc.1.1 ≤ matchv * Z.of_nat m)%Z →
            ((foldl (track_row s1 s2 scoring n) acc l).1.1
               ≤ matchv * Z.of_nat m)%Z).
  { induction l as [|i l IH]; intros acc Hl Hacc; [exact Hacc|].
    apply Forall_cons in Hl as [Hi Hl]. simpl. apply IH; [exact Hl|].
    apply foldl_track_le; [exact Hacc|]. intros j.
    pose proof (H_rec_le i j Hv). nia. }
  apply Hgen; [|simpl; lia].
  apply Forall_forall. intros i Hi. unfold range in Hi.
  apply list_elem_of_In, in_seq in Hi. lia.
Qed.

Lemma track_all_ge (m n i j : nat) :
  1 ≤ i ≤ m → 1 ≤ j ≤ n →
  (Hr i j ≤ (track_all s1 s2 scoring m n).1.1)%Z.
Proof.
  intros Hi Hj. unfold track_all.
  assert (Hgen : ∀ l acc,
            (acc.1.1 ≤ (foldl (track_row s1 s2 scoring n) acc l).1.1)%Z ∧
            (i ∈ l →
             (Hr i j ≤ (foldl (track_row s1 s2 scoring n) acc l).1.1)%Z)).
  { induction l as [|i' l IH]; intros acc.
    { split; [simpl; lia|]. intros Hin. by apply elem_of_nil in Hin. }
    simpl. destruct (IH (track_row s1 s2 scoring n acc i')) as [Hacc Hin].
    unfold track_row in Hacc at 1.
    destruct (foldl_track_ge i' (range 1 (n + 1)) acc) as [Hrow Hcells].
    split; [lia|].
    intros Hi'. apply elem_of_cons in Hi' as [<-|Hi']; [|by apply Hin].
    etransitivity; [|exact Hacc]. apply Hcells.
    unfold range. apply list_elem_of_In, in_seq. lia. }
  apply Hgen. unfold range. apply list_elem_of_In, in_seq. lia.
Qed.

End LocalBounds.
(** ** Choosing among several targets *)

Lemma max_by_snoc {A} (key : A → Z) (x y : A) (l : list A) :
  max_by key x (l ++ [y]) =
    if decide (key y > key (max_by key x l))%Z then y else max_by key x l.
Proof. unfold max_by. by rewrite foldl_app. Qed.

(** [max_by] returns the first element of the largest key. *)
Lemma max_by_first {A} (key : A → Z) (x : A) (l : list A) :
  ∃ k, (x :: l) !! k = Some (max_by key x l) ∧
       ∀ k' y, (x :: l) !! k' = Some y →
         (key y ≤ key (max_by key x l))%Z ∧
         (key y = key (max_by key x l) → k ≤ k').
Proof.
  induction l as [|y l IH] using rev_ind.
  { exists 0. split; [reflexivity|]. intros [|k'] z Hz; [|done].
    injection Hz as <-. simpl. split; [lia|]. lia. }
  destruct IH as (k & Hk & Hmax). rewrite max_by_snoc.
  assert (Hlt : k < length (x :: l)) by (by eapply lookup_lt_Some).
  case_decide as Hgt.
  - exists (length (x :: l)). split.
    + change (x :: l ++ [y]) with ((x :: l) ++ [y]).
      by rewrite lookup_app_r, Nat.sub_diag by lia.
    + intros k' z Hz. change (x :: l ++ [y]) with ((x :: l) ++ [y]) in Hz.
      apply lookup_app_Some in Hz as [Hz|[Hge Hz]].
      * destruct (Hmax k' z Hz). lia.
      * apply list_lookup_singleton_Some in Hz as [_ <-]. lia.
  - exists k. split.
    + change (x :: l ++ [y]) with ((x :: l) ++ [y]).
      by rewrite lookup_app_l by exact Hlt.
    + intros k' z Hz. change (x :: l ++ [y]) with ((x :: l) ++ [y]) in Hz.
      apply lookup_app_Some in Hz as [Hz|[Hge Hz]].
      * by apply Hmax.
      * apply list_lookup_singleton_Some in Hz as [_ <-]. lia.
Qed.

Lemma smith_waterman_default (seq1 seq2 : Sequence.t)
    (scoring : option ScoringMatrix.t) (sc : ScoringMatrix.t) :
  scoring_or_default scoring = Ok sc →
  smith_waterman seq1 seq2 (Some sc) = smith_waterman seq1 seq2 scoring.
Proof. intros Hsc. unfold smith_waterman. by rewrite Hsc. Qed.

(** The loop of [align_against_multiple] appends, for the [k]-th remaining
    target, the pair of [i + k] and its alignment with the query. *)
Lemma align_each_spec (query : Sequence.t) (sc : ScoringMatrix.t)
    (targets : list Sequence.t) (i : nat) (results : list (nat * Alignment.t)) :
  Sequence.len query ≠ 0 → Forall (λ t, Sequence.len t ≠ 0) targets →
  ∃ als, align_each query sc i targets results
           = Ok (results ++ zip (seq i (length targets)) als) ∧
         Forall2 (λ t al, smith_waterman query t (Some sc) = Ok al)
           targets als.
Proof.
  intros Hq Hts. revert i results.
  induction Hts as [|t targets Ht _ IH]; intros i results.
  { exists []. simpl. by rewrite app_nil_r. }
  destruct (smith_waterman_score query t (Some sc) sc eq_refl Hq Ht)
    as (al & Hal & _).
  destruct (IH (S i) (results ++ [(i, al)])) as (als & Hrun & Hals).
  exists (al :: als). simpl. rewrite Hal. simpl.
  rewrite Hrun, <- app_assoc. split; [reflexivity|]. by constructor.
Qed.

Lemma lookup_zip_seq {A} (l : list A) (k : nat) (p : nat * A) :
  zip (seq 0 (length l)) l !! k = Some p ↔ p.1 = k ∧ l !! k = Some p.2.
Proof.
  destruct p as [i x]. simpl. rewrite lookup_zip_with_Some. split.
  - intros (i' & x' & [= -> ->] & Hi & Hx). split; [|exact Hx].
    apply lookup_seq in Hi. lia.
  - intros [-> Hx]. exists k, x. split; [reflexivity|].
    split; [|exact Hx]. apply lookup_seq. split; [lia|].
    by eapply lookup_lt_Some.
Qed.

(** C9: on a non-empty list of non-empty targets [find_best_alignment]
    returns a pair of an index and the alignment of the query with the target
    at that index; no target scores more, and every target that scores as
    much comes at that index or later.  With a valid scoring matrix, index 0
    is returned when the first target has the bases of the query. *)
Theorem find_best_alignment_first_max (query : Sequence.t)
    (targets : list Sequence.t) (scoring : option ScoringMatrix.t) :
  Sequence.len query ≠ 0 → Forall (λ t, Sequence.len t ≠ 0) targets →
  targets ≠ [] →
  ∃ idx al target,
    find_best_alignment query targets scoring = Ok (Some (idx, al)) ∧
    targets !! idx = Some target ∧
    smith_waterman query target scoring = Ok al ∧
    (∀ k t al', targets !! k = Some t →
       smith_waterman query t scoring = Ok al' →
       (Alignment.score al' ≤ Alignment.score al)%Z ∧
       (Alignment.score al' = Alignment.score al → idx ≤ k)) ∧
    (∀ sc first,
       scoring_or_default scoring = Ok sc → ScoringSpec.valid sc →
       targets !! 0 = Some first →
       Sequence.bases first = Sequence.bases query → idx = 0).
Proof.
  intros Hq Hts Hne. destruct (scoring_or_default_Ok scoring) as [sc Hsc].
  destruct (align_each_spec query sc targets 0 [] Hq Hts) as (als & Hrun & Hals).
  simpl in Hrun.
  assert (Hlen : length targets = length als) by (by eapply Forall2_length).
  unfold find_best_alignment, align_against_multiple.
  rewrite Hsc. simpl. case_decide as Hl0; [by destruct targets|].
  rewrite Hrun, Hlen. simpl.
  destruct (zip (seq 0 (length als)) als) as [|p0 ps] eqn:Hzip.
  { destruct targets, als; simplify_eq/=. }
  set (key := λ x : nat * Alignment.t, Alignment.score x.2).
  destruct (max_by_first key p0 ps) as (k & Hk & Hmax).
  rewrite <- Hzip in Hk, Hmax.
  set (best := max_by key p0 ps) in *.
  apply lookup_zip_seq in Hk as [Hidx Hal].
  destruct (Forall2_lookup_r _ _ _ _ _ Hals Hal) as (target & Htarget & Hsw).
  exists best.1, best.2, target. split; [by destruct best|].
  rewrite Hidx. split; [exact Htarget|].
  split; [by rewrite <- (smith_waterman_default _ _ _ _ Hsc)|].
  assert (Hfirst : ∀ k' t al', targets !! k' = Some t →
            smith_waterman query t scoring = Ok al' →
            (Alignment.score al' ≤ Alignment.score best.2)%Z ∧
            (Alignment.score al' = Alignment.score best.2 → k ≤ k')).
  { intros k' t al' Ht Hal'.
    destruct (Forall2_lookup_l _ _ _ _ _ Hals Ht) as (al'' & Hal'' & Hsw'').
    rewrite (smith_waterman_default _ _ _ _ Hsc) in Hsw''.
    assert (al'' = al') as -> by congruence.
    apply (Hmax k' (k', al')). by apply lookup_zip_seq. }
  split; [exact Hfirst|].
  intros sc' first Hsc' Hvalid Hfirst0 Hbases.
  assert (sc' = sc) as -> by congruence.
  assert (Hlen0 : Sequence.len first ≠ 0).
  { unfold Sequence.len. rewrite Hbases. exact Hq. }
  destruct (smith_waterman_score query first scoring sc Hsc Hq Hlen0)
    as (al0 & Hal0 & Hscore0 & _).
  destruct (Hfirst 0 first al0 Hfirst0 Hal0) as [Hle Htie].
  enough (Alignment.score best.2 ≤ Alignment.score al0)%Z by lia.
  destruct (smith_waterman_score query target scoring sc Hsc Hq) as
    (al1 & Hal1 & Hscore1 & _).
  { eapply Forall_lookup_1 in Hts; [exact Hts | exact Htarget]. }
  rewrite <- (smith_waterman_default _ _ _ _ Hsc) in Hal1.
  assert (al1 = best.2) as Hbest by congruence. rewrite <- Hbest.
  rewrite Hscore1, Hscore0.
  etransitivity; [by apply track_all_le|].
  unfold Sequence.len in *. rewrite Hbases.
  etransitivity; [apply (H_rec_diagonal _ _ sc _ eq_refl (Nat.le_refl _))|].
  apply track_all_ge; lia.
Qed.

Lemma find_best_alignment_first_max_witness :
  ∃ al,
    find_best_alignment (Sequence.mk (lit "ATCG") None None DNA true)
      [Sequence.mk (lit "ATCG") None None DNA true;
       Sequence.mk (lit "GCTA") None None DNA true;
       Sequence.mk (lit "AAAA") None None DNA true] None
    = Ok (Some (0, al)).
Proof.
  destruct (find_best_alignment_first_max
              (Sequence.mk (lit "ATCG") None None DNA true)
              [Sequence.mk (lit "ATCG") None None DNA true;
               Sequence.mk (lit "GCTA") None None DNA true;
               Sequence.mk (lit "AAAA") None None DNA true] None)
    as (idx & al & target & Hbest & _ & _ & _ & Hzero).
  { vm_compute. discriminate. }
  { repeat constructor; vm_compute; discriminate. }
  { discriminate. }
  exists al. rewrite Hbest.
  rewrite (Hzero (ScoringMatrix.mk 2 (-1) (-2) (-1))
             (Sequence.mk (lit "ATCG") None None DNA true));
    [reflexivity | reflexivity | | reflexivity | reflexivity].
  unfold ScoringSpec.valid. simpl. lia.
Defined.

(** * Further properties *)

(** ** Construction of sequences *)

Lemma validate_from_Err (i : nat) (bs : str) (valid : gset ascii) (e : exn) :
  Sequence._validate_from i bs valid = Err e →
  ∃ p c, e = InvalidBaseError (i + p) c ∧ bs !! p = Some c ∧ (c ∉ valid) ∧
         Forall (λ x, x ∈ valid) (take p bs).
Proof.
  revert i. induction bs as [|c bs IH]; intros i; simpl; [discriminate|].
  case_bool_decide as Hc.
  - intros Hrest. destruct (IH _ Hrest) as (p & c' & -> & Hl & Hnot & Hpre).
    exists (S p), c'. split; [f_equal; lia|]. split; [exact Hl|].
    split; [exact Hnot|]. simpl. by constructor.
  - intros [= <-]. exists 0, c. split; [f_equal; lia|]. by repeat split.
Qed.

Lemma validate_from_Forall (i : nat) (bs : str) (valid : gset ascii) :
  Forall (λ c, c ∈ valid) bs → Sequence._validate_from i bs valid = Ok tt.
Proof.
  intros Hbs. revert i. induction Hbs as [|c bs Hc _ IH]; intros i; simpl.
  - reflexivity.
  - rewrite bool_decide_eq_true_2 by exact Hc. apply IH.
Qed.

Lemma init_valid (bs : str) (i d : option str) (ty : SequenceType) :
  bs ≠ [] → Forall (λ c, c ∈ Sequence.valid_bases ty) bs →
  Sequence.init bs i d ty false = Ok (Sequence.mk bs i d ty true).
Proof.
  intros Hne Hbs. unfold Sequence.init.
  assert (Hup : upper bs = bs).
  { apply upper_fixed. eapply Forall_impl; [exact Hbs|].
    intros c. apply upper_char_alphabet. }
  rewrite Hup. case_decide as Hlen; [by destruct bs|]. simpl.
  unfold Sequence._validate. by rewrite validate_from_Forall.
Qed.

(** X1: on a string of code points whose upper-case forms lie below 256,
    the validating constructor raises [EmptySequenceError] exactly on the
    empty string; otherwise it raises [InvalidBaseError] with the first
    position of the upper-cased string whose symbol is outside the alphabet
    of the kind, and with that symbol; otherwise it returns the upper-cased
    string, marked as validated. Upper-casing is Python's: an accented
    lower-case letter is reported as its upper-case form, and a sharp s as
    [S]. *)
Theorem sequence_init_outcome (bs : str) (i d : option str)
    (ty : SequenceType) :
  upper_below_256 bs →
  match Sequence.init bs i d ty false with
  | Ok s =>
      bs ≠ [] ∧ s = Sequence.mk (upper bs) i d ty true ∧ Sequence.ok s
  | Err EmptySequenceError => bs = []
  | Err (InvalidBaseError p c) =>
      upper bs !! p = Some c ∧ (c ∉ Sequence.valid_bases ty) ∧
      Forall (λ x, x ∈ Sequence.valid_bases ty) (take p (upper bs))
  | Err _ => False
  end.
Proof.
  intros _.
  destruct (Sequence.init bs i d ty false) as [s|e] eqn:Hinit.
  - pose proof (sequence_init_ok _ _ _ _ _ Hinit) as Hok.
    unfold Sequence.init in Hinit. case_decide as Hlen; [discriminate|].
    simpl in Hinit.
    destruct (Sequence._validate (upper bs) ty) as [[]|e]; [|discriminate].
    simpl in Hinit. injection Hinit as <-.
    split; [|by split]. intros ->. by apply Hlen.
  - unfold Sequence.init in Hinit. case_decide as Hlen.
    + injection Hinit as <-. apply length_zero_iff_nil in Hlen.
      by apply upper_nil.
    + simpl in Hinit.
      destruct (Sequence._validate (upper bs) ty) as [[]|e'] eqn:Hv;
        [discriminate|].
      simpl in Hinit. injection Hinit as <-.
      destruct (validate_from_Err _ _ _ _ Hv) as (p & c & -> & Hl & Hc & Hpre).
      by repeat split.
Qed.

Lemma sequence_init_outcome_witness :
  Sequence.init ["224"%char] None None DNA false
    = Err (InvalidBaseError 0 "192") ∧
  upper ["224"%char] !! 0 = Some "192"%char.
Proof.
  assert (Hrun : Sequence.init ["224"%char] None None DNA false
                 = Err (InvalidBaseError 0 "192")) by reflexivity.
  pose proof (sequence_init_outcome ["224"%char] None None DNA) as Hout.
  rewrite Hrun in Hout. split; [exact Hrun|]. apply Hout.
  repeat constructor; discriminate.
Defined.

(** ** Slicing and joining sequences *)

Lemma slice_range {A} (s : list A) (a b : Z) :
  (0 ≤ a ≤ b)%Z → (b ≤ Z.of_nat (length s))%Z →
  slice s a b = take (Z.to_nat b - Z.to_nat a) (drop (Z.to_nat a) s).
Proof.
  intros Ha Hb. unfold slice, slice_bound.
  destruct (Z.ltb_spec a 0), (Z.ltb_spec b 0); try lia.
  f_equal; [lia|]. f_equal. lia.
Qed.

Lemma slice_app_adjacent {A} (s : list A) (a b c : Z) :
  (0 ≤ a ≤ b)%Z → (b ≤ c)%Z → (c ≤ Z.of_nat (length s))%Z →
  slice s a b ++ slice s b c = slice s a c.
Proof.
  intros Ha Hb Hc. rewrite !slice_range by lia.
  replace (drop (Z.to_nat b) s)
    with (drop (Z.to_nat b - Z.to_nat a) (drop (Z.to_nat a) s))
    by (rewrite drop_drop; f_equal; lia).
  rewrite take_take_drop. f_equal. lia.
Qed.

Lemma slice_full {A} (s : list A) : slice s 0 (Z.of_nat (length s)) = s.
Proof.
  rewrite slice_range by lia. simpl. rewrite Nat.sub_0_r, Nat2Z.id.
  apply firstn_all.
Qed.

Lemma ok_bases_Forall (s : Sequence.t) :
  Sequence.ok s →
  Forall (λ c, c ∈ Sequence.valid_bases (Sequence.seq_type s))
    (Sequence.bases s).
Proof. intros [_ Hv]. by apply is_valid_Forall. Qed.

(** Within the bounds [subsequence] returns the slice as a valid sequence. *)
Lemma subsequence_Ok (s : Sequence.t) (start end_ : Z) :
  Sequence.ok s →
  (0 ≤ start)%Z ∧ (start < end_)%Z ∧
  (end_ ≤ Z.of_nat (Sequence.len s))%Z →
  ∃ r, SequenceOps.subsequence s start end_ = Ok r ∧ Sequence.ok r ∧
       Sequence.bases r = slice (Sequence.bases s) start end_ ∧
       Z.of_nat (Sequence.len r) = (end_ - start)%Z ∧
       Sequence.seq_type r = Sequence.seq_type s.
Proof.
  intros Hok. unfold SequenceOps.subsequence, Sequence.len.
  intros (Hs & Hse & He). repeat case_decide; try lia.
  assert (Hlen : Z.of_nat (length (slice (Sequence.bases s) start end_))
                 = (end_ - start)%Z).
  { replace end_ with (start + (end_ - start))%Z at 1 by lia.
    apply length_slice; lia. }
  rewrite init_valid.
  - eexists. split; [reflexivity|]. simpl. split; [|done].
    split; simpl.
    + intros Hnil. rewrite Hnil in Hlen. simpl in Hlen. lia.
    + apply is_valid_Forall. simpl. unfold slice.
      apply Forall_take, Forall_drop, ok_bases_Forall, Hok.
  - intros Hnil. rewrite Hnil in Hlen. simpl in Hlen. lia.
  - unfold slice. apply Forall_take, Forall_drop, ok_bases_Forall, Hok.
Qed.

(** X2: on a valid sequence [subsequence(start, end)] raises [ValueError]
    unless [0 <= start < end <= len]; in that case it returns a valid
    sequence of the same kind, whose bases are the [end - start] symbols of
    the slice. *)
Theorem subsequence_outcome (s : Sequence.t) (start end_ : Z) :
  Sequence.ok s →
  (¬ ((0 ≤ start)%Z ∧ (start < end_)%Z ∧
      (end_ ≤ Z.of_nat (Sequence.len s))%Z) →
   SequenceOps.subsequence s start end_ = Err ValueError) ∧
  ((0 ≤ start)%Z ∧ (start < end_)%Z ∧
   (end_ ≤ Z.of_nat (Sequence.len s))%Z →
   ∃ r, SequenceOps.subsequence s start end_ = Ok r ∧ Sequence.ok r ∧
        Sequence.bases r = slice (Sequence.bases s) start end_ ∧
        Z.of_nat (Sequence.len r) = (end_ - start)%Z ∧
        Sequence.seq_type r = Sequence.seq_type s).
Proof.
  intros Hok. split.
  - unfold SequenceOps.subsequence, Sequence.len. intros Hbad.
    repeat case_decide; try reflexivity. lia.
  - by apply subsequence_Ok.
Qed.

Lemma subsequence_outcome_witness :
  ∃ r, SequenceOps.subsequence
         (Sequence.mk (lit "ATCGATCG") None None DNA true) 2 5 = Ok r ∧
       Sequence.bases r = lit "CGA".
Proof.
  destruct (subsequence_outcome
              (Sequence.mk (lit "ATCGATCG") None None DNA true) 2 5)
    as [_ Hin].
  { split; [discriminate | reflexivity]. }
  destruct Hin as (r & Hr & _ & Hb & _).
  { unfold Sequence.len, lit. simpl. lia. }
  exists r. split; [exact Hr | exact Hb].
Defined.

(** On sequences of one kind [concat] returns the joined bases as a valid
    sequence. *)
Lemma concat_Ok (a b : Sequence.t) :
  Sequence.ok a → Sequence.ok b →
  Sequence.seq_type a = Sequence.seq_type b →
  ∃ c, SequenceOps.concat a b = Ok c ∧ Sequence.ok c ∧
       Sequence.bases c = Sequence.bases a ++ Sequence.bases b ∧
       Sequence.len c = Sequence.len a + Sequence.len b ∧
       Sequence.seq_type c = Sequence.seq_type a ∧
       Sequence.id c = Sequence.id a ∧
       Sequence.description c = Sequence.description a.
Proof.
  intros Hoka Hokb Hty. unfold SequenceOps.concat.
  case_decide; [done|]. rewrite init_validated.
  - eexists. split; [reflexivity|]. simpl.
    split; [|by rewrite ?length_app; unfold Sequence.len; simpl;
                rewrite ?length_app].
    split; simpl.
    + destruct Hoka as [Hne _]. by destruct (Sequence.bases a).
    + apply is_valid_Forall. simpl. apply Forall_app. split.
      * by apply ok_bases_Forall.
      * rewrite Hty. by apply ok_bases_Forall.
  - destruct Hoka as [Hne _]. by destruct (Sequence.bases a).
  - by rewrite upper_app, !upper_ok.
Qed.

(** X3: on valid sequences [concat] raises [ValueError] when the kinds
    differ; otherwise it returns a valid sequence of that kind whose bases
    are the two strings joined, keeping the identifier and the description
    of the first. *)
Theorem concat_outcome (a b : Sequence.t) :
  Sequence.ok a → Sequence.ok b →
  (Sequence.seq_type a ≠ Sequence.seq_type b →
   SequenceOps.concat a b = Err ValueError) ∧
  (Sequence.seq_type a = Sequence.seq_type b →
   ∃ c, SequenceOps.concat a b = Ok c ∧ Sequence.ok c ∧
        Sequence.bases c = Sequence.bases a ++ Sequence.bases b ∧
        Sequence.len c = Sequence.len a + Sequence.len b ∧
        Sequence.seq_type c = Sequence.seq_type a ∧
        Sequence.id c = Sequence.id a ∧
        Sequence.description c = Sequence.description a).
Proof.
  intros Hoka Hokb. split; intros Hty.
  - unfold SequenceOps.concat. by case_decide.
  - by apply concat_Ok.
Qed.

Lemma concat_outcome_witness :
  ∃ c, SequenceOps.concat (Sequence.mk (lit "ATCG") None None DNA true)
         (Sequence.mk (lit "GGN") None None DNA true) = Ok c ∧
       Sequence.bases c = lit "ATCGGGN".
Proof.
  destruct (concat_outcome (Sequence.mk (lit "ATCG") None None DNA true)
              (Sequence.mk (lit "GGN") None None DNA true)) as [_ Hsame].
  { split; [discriminate | reflexivity]. }
  { split; [discriminate | reflexivity]. }
  destruct (Hsame eq_refl) as (c & Hc & _ & Hb & _).
  exists c. split; [exact Hc | exact Hb].
Defined.

(** X4: cutting a valid sequence at an inner position [i] and joining the
    two parts with [concat] gives back its bases. *)
Theorem subsequence_concat_roundtrip (s : Sequence.t) (i : Z) :
  Sequence.ok s → (0 < i < Z.of_nat (Sequence.len s))%Z →
  ∃ a b c,
    SequenceOps.subsequence s 0 i = Ok a ∧
    SequenceOps.subsequence s i (Z.of_nat (Sequence.len s)) = Ok b ∧
    SequenceOps.concat a b = Ok c ∧
    Sequence.bases c = Sequence.bases s.
Proof.
  intros Hok Hi.
  destruct (subsequence_Ok s 0 i Hok)
    as (a & Ha & Hoka & Hba & _ & Hta); [lia|].
  destruct (subsequence_Ok s i (Z.of_nat (Sequence.len s)) Hok)
    as (b & Hb & Hokb & Hbb & _ & Htb); [lia|].
  destruct (concat_Ok a b Hoka Hokb)
    as (c & Hc & _ & Hbc & _); [congruence|].
  exists a, b, c. split; [exact Ha|]. split; [exact Hb|]. split; [exact Hc|].
  rewrite Hbc, Hba, Hbb. unfold Sequence.len in *.
  rewrite slice_app_adjacent by lia. apply slice_full.
Qed.

Lemma subsequence_concat_roundtrip_witness :
  ∃ a b c,
    SequenceOps.subsequence
      (Sequence.mk (lit "AUCGN") None None RNA true) 0 2 = Ok a ∧
    SequenceOps.subsequence
      (Sequence.mk (lit "AUCGN") None None RNA true) 2 5 = Ok b ∧
    SequenceOps.concat a b = Ok c ∧ Sequence.bases c = lit "AUCGN".
Proof.
  apply (subsequence_concat_roundtrip
           (Sequence.mk (lit "AUCGN") None None RNA true) 2).
  - split; [discriminate | reflexivity].
  - unfold Sequence.len, lit. simpl. lia.
Defined.
(** ** Transformations of valid sequences *)




Lemma complement_twice (l : str) :
  Forall (λ c, c ∈ VALID_DNA_BASES) l →
  map Sequence.complement_base (map Sequence.complement_base l) = l.
Proof.
  induction 1 as [|c l Hc _ IH]; [reflexivity|].
  cbn [map]. by rewrite (complement_base_involutive c Hc), IH.
Qed.

(** X6: on a valid DNA sequence [reverse_complement] is an involution, and
    complementing the reverse gives the same bases as reversing the
    complement. *)
Theorem reverse_complement_involutive (s : Sequence.t) :
  Sequence.ok s → Sequence.seq_type s = DNA →
  ∃ rc rcrc r cr,
    Sequence.reverse_complement s = Ok rc ∧
    Sequence.reverse_complement rc = Ok rcrc ∧
    Sequence.bases rcrc = Sequence.bases s ∧
    Sequence.reverse s = Ok r ∧ Sequence.complement r = Ok cr ∧
    Sequence.bases cr = Sequence.bases rc.
Proof.
  intros Hok Hty.
  pose proof (ok_complement s Hok Hty) as Hokc.
  pose proof (ok_reverse s Hok) as Hokr.
  pose proof (ok_reverse _ Hokc) as Hokrc.
  assert (Hrc : ∀ x, Sequence.ok x → Sequence.seq_type x = DNA →
            Sequence.reverse_complement x =
              Ok (Sequence.mk
                    (rev (map Sequence.complement_base (Sequence.bases x)))
                    (Sequence.id x) (Sequence.description x) DNA true)).
  { intros x Hx Htx. unfold Sequence.reverse_complement.
    case_decide; [done|]. rewrite complement_ok by done. simpl.
    apply reverse_ok. by apply ok_complement. }
  do 4 eexists. split; [by apply Hrc|].
  split; [apply Hrc; [exact Hokrc | reflexivity]|]. split.
  { simpl. rewrite map_rev, rev_involutive.
    pose proof (ok_bases_Forall s Hok) as Hbs. rewrite Hty in Hbs.
    by apply complement_twice. }
  split; [by apply reverse_ok|].
  split; [apply complement_ok; [exact Hokr | exact Hty]|].
  simpl. by rewrite map_rev.
Qed.

Lemma reverse_complement_involutive_witness :
  ∃ rc rcrc,
    Sequence.reverse_complement
      (Sequence.mk (lit "ATCGN") None None DNA true) = Ok rc ∧
    Sequence.reverse_complement rc = Ok rcrc ∧
    Sequence.bases rcrc = lit "ATCGN".
Proof.
  destruct (reverse_complement_involutive
              (Sequence.mk (lit "ATCGN") None None DNA true))
    as (rc & rcrc & _ & _ & Hrc & Hrcrc & Hb & _).
  { split; [discriminate | reflexivity]. }
  { reflexivity. }
  exists rc, rcrc. split; [exact Hrc|]. split; [exact Hrcrc | exact Hb].
Defined.

(** ** Counting bases *)

Lemma base_counts_sum (bs : str) :
  let total :=
    Alignment.count_char "A" bs + Alignment.count_char "C" bs
    + Alignment.count_char "G" bs
    + (Alignment.count_char "T" bs + Alignment.count_char "U" bs)
    + Alignment.count_char "N" bs in
  total ≤ length bs ∧
  (total = length bs ↔
   Forall (λ c, c ∈ VALID_DNA_BASES ∨ c ∈ VALID_RNA_BASES) bs).
Proof.
  unfold Alignment.count_char. induction bs as [|c bs [IHle IHeq]]; simpl.
  { split; [lia|]. split; [constructor | reflexivity]. }
  rewrite !filter_cons, Forall_cons.
  assert (Hc : (c ∈ VALID_DNA_BASES ∨ c ∈ VALID_RNA_BASES) ↔
               (c = "A" ∨ c = "C" ∨ c = "G" ∨ c = "T" ∨ c = "U" ∨ c = "N")%char).
  { unfold VALID_DNA_BASES, VALID_RNA_BASES. set_unfold. tauto. }
  rewrite Hc.
  repeat case_decide; subst; try discriminate; simpl; (split; [lia|]);
    rewrite <- IHeq; split; intros; try lia;
    try (split; [tauto | lia]); destruct_and?; destruct_or?; try done; lia.
Qed.

(** X7: the assertion of [base_counts] holds exactly when every base is one
    of A, C, G, T, U, N, and then the five counts add up to the length; so it
    holds on every valid sequence, while a sequence built with the
    validation skipped can make it fail. *)
Theorem base_counts_assertion (s : Sequence.t) :
  (Sequence.ok s → ∃ t, SequenceOps.base_counts s = Holds t) ∧
  (∀ a c g t n, SequenceOps.base_counts s = Holds (a, c, g, t, n) →
     a + c + g + t + n = Sequence.len s) ∧
  (SequenceOps.base_counts s = AssertionError ↔
   ¬ Forall (λ c, c ∈ VALID_DNA_BASES ∨ c ∈ VALID_RNA_BASES)
       (Sequence.bases s)).
Proof.
  pose proof (base_counts_sum (Sequence.bases s)) as [Hle Heq].
  cbv zeta in *. unfold SequenceOps.base_counts. cbv zeta.
  split; [|split].
  - intros Hok. case_decide as Hsum; [eauto|]. exfalso. apply Hsum, Heq.
    eapply Forall_impl; [by apply ok_bases_Forall|]. intros c.
    unfold Sequence.valid_bases. case_decide; tauto.
  - intros a c g t n. case_decide as Hsum; [|discriminate].
    intros [= <- <- <- <- <-]. exact Hsum.
  - case_decide as Hsum.
    + split; [discriminate|]. intros Hnot. exfalso. by apply Hnot, Heq.
    + split; [|reflexivity]. intros _ Hall. by apply Hsum, Heq.
Qed.

Lemma base_counts_assertion_witness :
  (∃ t, SequenceOps.base_counts
          (Sequence.mk (lit "AUCGN") None None RNA true) = Holds t) ∧
  SequenceOps.base_counts (Sequence.mk (lit "AXG") None None DNA true)
    = AssertionError.
Proof.
  split.
  - apply (proj1 (base_counts_assertion _)).
    split; [discriminate | reflexivity].
  - reflexivity.
Defined.
(** ** Base composition *)

Lemma ratio_range (a b : nat) :
  a ≤ b → 0 < b →
  (0 <= inject_Z (Z.of_nat a) / inject_Z (Z.of_nat b) <= 1)%Q.
Proof.
  intros Hab Hb.
  assert (Hpos : (0 < inject_Z (Z.of_nat b))%Q).
  { change 0%Q with (inject_Z 0). rewrite <- Zlt_Qlt. lia. }
  split.
  - apply Qle_shift_div_l; [exact Hpos|]. rewrite Qmult_0_l.
    change 0%Q with (inject_Z 0). rewrite <- Zle_Qle. lia.
  - apply Qle_shift_div_r; [exact Hpos|]. rewrite Qmult_1_l.
    rewrite <- Zle_Qle. lia.
Qed.

(** X8: [gc_content] lies between 0 and 1 on every sequence; [at_content]
    raises [ValueError] unless the kind is DNA and lies between 0 and 1
    otherwise.  (The quotients are exact rationals here, floats in the
    source.) *)
Theorem content_range (s : Sequence.t) :
  (0 <= SequenceOps.gc_content s <= 1)%Q ∧
  (Sequence.seq_type s ≠ DNA → SequenceOps.at_content s = Err ValueError) ∧
  (Sequence.seq_type s = DNA →
   ∃ q, SequenceOps.at_content s = Ok q ∧ (0 <= q <= 1)%Q).
Proof.
  assert (Hcount : ∀ chars bs, SequenceOps.count_in chars bs ≤ length bs).
  { intros. apply length_filter. }
  unfold SequenceOps.gc_content, SequenceOps.at_content.
  split; [|split].
  - case_decide as Hlen; [done|]. apply ratio_range; [apply Hcount | lia].
  - intros Hty. by case_decide.
  - intros Hty. case_decide; [done|].
    case_decide as Hlen; eexists; (split; [reflexivity|]); [done|].
    apply ratio_range; [apply Hcount | lia].
Qed.

Lemma content_range_witness :
  ∃ q, SequenceOps.at_content (Sequence.mk (lit "ATGC") None None DNA true)
       = Ok q ∧ (0 <= q <= 1)%Q.
Proof.
  destruct (content_range (Sequence.mk (lit "ATGC") None None DNA true))
    as (_ & _ & Hat).
  exact (Hat eq_refl).
Defined.

(** ** Searching for a motif *)

Lemma foldl_append_filter {A} (P : A → Prop) `{∀ x, Decision (P x)}
    (l acc : list A) :
  foldl (λ acc x, if decide (P x) then acc ++ [x] else acc) acc l
  = acc ++ filter P l.
Proof.
  revert acc. induction l as [|x l IH]; intros acc; simpl.
  - by rewrite app_nil_r.
  - rewrite IH, filter_cons. case_decide; [|reflexivity].
    by rewrite <- app_assoc.
Qed.

Lemma scan_positions_filter (s pattern : str) :
  SequenceOps.scan_positions s pattern =
    filter (λ i, slice s i (i + Z.of_nat (length pattern)) = pattern)
      (seqZ 0 (Z.of_nat (length s) - Z.of_nat (length pattern) + 1)).
Proof.
  unfold SequenceOps.scan_positions.
  by rewrite (foldl_append_filter
                (λ i, slice s i (i + Z.of_nat (length pattern)) = pattern)).
Qed.

Lemma StronglySorted_seqZ (m n : Z) : StronglySorted Z.lt (seqZ m n).
Proof.
  destruct (Z.le_gt_cases n 0) as [Hn|Hn].
  { rewrite seqZ_nil by lia. constructor. }
  rewrite <- (Z2Nat.id n) by lia. generalize (Z.to_nat n) as k. clear.
  intros k. revert m. induction k as [|k IH]; intros m.
  { simpl. rewrite seqZ_nil by lia. constructor. }
  rewrite seqZ_cons by lia. constructor.
  - replace (Z.pred (Z.of_nat (S k))) with (Z.of_nat k) by lia. apply IH.
  - apply Forall_forall. intros x Hx. apply elem_of_seqZ in Hx. lia.
Qed.

Lemma StronglySorted_filter {A} (R : relation A) (P : A → Prop)
    `{∀ x, Decision (P x)} (l : list A) :
  StronglySorted R l → StronglySorted R (filter P l).
Proof.
  induction 1 as [|x l _ IH Hx]; [constructor|].
  rewrite filter_cons. case_decide; [|exact IH].
  constructor; [exact IH|].
  apply Forall_forall. intros y Hy. apply list_elem_of_filter in Hy as [_ Hy].
  by eapply Forall_forall in Hx.
Qed.

(** What the scan reports: every start position at which the pattern
    occurs, in increasing order. *)
Lemma scan_positions_spec (s pattern : str) :
  pattern ≠ [] →
  (∀ i, i ∈ SequenceOps.scan_positions s pattern ↔
        (0 ≤ i)%Z ∧ (i + Z.of_nat (length pattern) ≤ Z.of_nat (length s))%Z ∧
        take (length pattern) (drop (Z.to_nat i) s) = pattern) ∧
  StronglySorted Z.lt (SequenceOps.scan_positions s pattern).
Proof.
  intros Hne. rewrite scan_positions_filter. split.
  - intros i. rewrite list_elem_of_filter, elem_of_seqZ. split.
    + intros [Hslice Hi]. split; [lia|]. split; [lia|].
      rewrite slice_range in Hslice by lia. rewrite <- Hslice at 2.
      f_equal. lia.
    + intros (Hi0 & Hi & Htake). split; [|lia].
      rewrite slice_range by lia. rewrite <- Htake at 2. f_equal. lia.
  - apply StronglySorted_filter, StronglySorted_seqZ.
Qed.

Lemma str_in_spec (sub s : str) :
  str_in sub s = true ↔ ∃ i, i ≤ length s ∧ sub `prefix_of` drop i s.
Proof.
  induction s as [|c s IH]; simpl.
  - rewrite orb_false_r, bool_decide_eq_true. split.
    + intros Hp. exists 0. by split.
    + intros (i & Hi & Hp). by rewrite drop_nil in Hp.
  - rewrite orb_true_iff, bool_decide_eq_true, IH. split.
    + intros [Hp | (i & Hi & Hp)].
      * exists 0. split; [lia | exact Hp].
      * exists (S i). split; [lia | exact Hp].
    + intros ([|i] & Hi & Hp); [by left|].
      right. exists i. split; [lia | exact Hp].
Qed.

Lemma prefix_take_eq {A} (sub l : list A) :
  sub `prefix_of` l ↔ length sub ≤ length l ∧ take (length sub) l = sub.
Proof.
  split.
  - intros [k ->]. rewrite length_app, take_app_length. split; [lia | done].
  - intros [_ <-]. apply prefix_take.
Qed.

(** X9: [find_motif_positions] raises [ValueError] on the empty motif;
    otherwise it returns, in increasing order, exactly the start positions at
    which the upper-cased motif occurs in the bases, overlapping occurrences
    included, each with the whole occurrence inside the sequence; the width
    of an occurrence is the length of the upper-cased motif, which exceeds
    the length of the motif where a sharp s occurs.  Whenever
    [contains_motif] does not raise, it answers [True] exactly when that list
    is not empty. *)
Theorem find_motif_positions_spec (s : Sequence.t) (motif : str) :
  (motif = [] → SequenceOps.find_motif_positions s motif = Err ValueError) ∧
  (motif ≠ [] →
   ∃ ps, SequenceOps.find_motif_positions s motif = Ok ps ∧
         (∀ i, i ∈ ps ↔
            (0 ≤ i)%Z ∧
            (i + Z.of_nat (length (upper motif)) ≤ Z.of_nat (Sequence.len s))%Z ∧
            take (length (upper motif)) (drop (Z.to_nat i) (Sequence.bases s))
              = upper motif) ∧
         StronglySorted Z.lt ps ∧
         ∀ b, SequenceOps.contains_motif s motif = Ok b →
              (b = true ↔ ps ≠ [])).
Proof.
  unfold SequenceOps.find_motif_positions, SequenceOps.contains_motif.
  split.
  { intros ->. reflexivity. }
  intros Hne. case_decide as Hlen; [by destruct motif|].
  assert (Hune : upper motif ≠ []).
  { intros Hnil. apply Hne. by apply upper_nil. }
  destruct (scan_positions_spec (Sequence.bases s) (upper motif) Hune)
    as [Hmem Hsorted].
  eexists. split; [reflexivity|]. split; [exact Hmem|].
  split; [exact Hsorted|].
  intros b. case_decide as Hlong; [discriminate|]. intros [= <-].
  rewrite str_in_spec. split.
  - intros (i & Hi & Hp) Hnil.
    apply prefix_take_eq in Hp as [Hle Htake].
    rewrite length_drop in Hle.
    assert (Hin : Z.of_nat i ∈ SequenceOps.scan_positions (Sequence.bases s)
                                (upper motif)).
    { apply Hmem. rewrite Nat2Z.id. split; [lia|]. split; [lia | exact Htake]. }
    rewrite Hnil in Hin. by apply elem_of_nil in Hin.
  - intros Hps.
    destruct (SequenceOps.scan_positions (Sequence.bases s) (upper motif))
      as [|i ps] eqn:Hscan; [done|].
    destruct (proj1 (Hmem i) ltac:(left)) as (Hi0 & Hi & Htake).
    exists (Z.to_nat i). split; [lia|].
    apply prefix_take_eq. rewrite length_drop.
    split; [lia | exact Htake].
Qed.

Lemma find_motif_positions_spec_witness :
  ∃ ps, SequenceOps.find_motif_positions
          (Sequence.mk (lit "SSS") None None UNKNOWN true) ["223"%char]
        = Ok ps ∧
        ps = [0; 1]%Z.
Proof.
  destruct (find_motif_positions_spec
              (Sequence.mk (lit "SSS") None None UNKNOWN true) ["223"%char])
    as [_ Hps].
  destruct Hps as (ps & Hrun & _); [discriminate|].
  exists ps. split; [exact Hrun|].
  assert (Ok ps = Ok [0; 1]%Z) as [= ->]
    by (rewrite <- Hrun; reflexivity).
  reflexivity.
Defined.
(** ** Adding to a counter and reading it back *)

(** X10: [add] raises [ValueError], leaving the counter as it was, when the
    k-mer has not length [k] or the count is not positive; otherwise
    [get_count] of that k-mer grows by the count, the count of every k-mer
    whose upper-cased form differs from that of the added one is unchanged,
    and so is [k], while the total grows by the count. Upper-casing is
    Python's: a k-mer and its accented lower-case spelling share one count. *)
Theorem add_get_count (c : KMerCounter.t) (kmer : str) (count : Z) :
  (Z.of_nat (length kmer) ≠ KMerCounter.k c ∨ (count ≤ 0)%Z →
   KMerCounter.add kmer count c = (Err ValueError, c)) ∧
  (Z.of_nat (length kmer) = KMerCounter.k c → (0 < count)%Z →
   ∃ c' n, KMerCounter.add kmer count c = (Ok tt, c') ∧
           KMerCounterOps.get_count c kmer = Ok n ∧
           KMerCounterOps.get_count c' kmer = Ok (n + count)%Z ∧
           KMerCounter.total_kmers c' = (KMerCounter.total_kmers c + count)%Z ∧
           KMerCounter.k c' = KMerCounter.k c ∧
           ∀ other, upper other ≠ upper kmer →
             KMerCounterOps.get_count c' other
             = KMerCounterOps.get_count c other).
Proof.
  split.
  - intros Hbad. unfold KMerCounter.add.
    case_decide; [reflexivity|]. case_decide; [reflexivity|]. lia.
  - intros Hlen Hpos. rewrite add_Ok by done. do 2 eexists.
    split; [reflexivity|]. unfold KMerCounterOps.get_count. simpl.
    case_decide; [done|]. split; [reflexivity|].
    split; [by rewrite lookup_insert_eq|]. split; [reflexivity|].
    split; [reflexivity|]. intros other Hother.
    by rewrite lookup_insert_ne.
Qed.

Lemma add_get_count_witness :
  ∃ c', KMerCounter.add ["224"%char] 1
          (KMerCounter.mk 1 {[ ["192"%char] := 2%Z ]} 2) = (Ok tt, c') ∧
        KMerCounterOps.get_count c' ["224"%char] = Ok 3%Z.
Proof.
  destruct (add_get_count (KMerCounter.mk 1 {[ ["192"%char] := 2%Z ]} 2)
              ["224"%char] 1) as [_ Hadd].
  destruct Hadd as (c' & n & Hrun & Hn & Hn' & _); [reflexivity | lia |].
  exists c'. split; [exact Hrun|].
  assert (n = 2%Z) as -> by (vm_compute in Hn; congruence).
  exact Hn'.
Defined.

(** ** What a counter built from a sequence holds *)

(** The sliding-window loop of [count_kmers], key by key. *)
Lemma window_loop_counts (s : str) (l : list Z) (c : KMerCounter.t) :
  (0 ≤ KMerCounter.k c)%Z →
  Forall (λ ch, upper_char ch = [ch]) s →
  Forall (λ i, 0 ≤ i ∧ i + KMerCounter.k c ≤ Z.of_nat (length s))%Z l →
  ∃ c',
    KMerCounter.for_each l
      (λ i self,
         let kmer := slice s i (i + KMerCounter.k self) in
         if negb (contains "N" kmer) then KMerCounter.add kmer 1 self
         else KMerCounter.ret tt self) c = (Ok tt, c') ∧
    KMerCounter.k c' = KMerCounter.k c ∧
    ∀ w, default 0%Z (KMerCounter.counts c' !! w) =
         (default 0 (KMerCounter.counts c !! w) +
          Z.of_nat (length (filter (λ x, x = w)
                              (filter (λ x, "N"%char ∉ x)
                                 ((λ i, slice s i (i + KMerCounter.k c))
                                    <$> l)))))%Z.
Proof.
  intros Hk Hs Hl. revert c Hk Hl.
  induction l as [|i l IH]; intros c Hk Hl.
  - exists c. simpl. repeat split. intros w. lia.
  - apply Forall_cons in Hl as [[Hi1 Hi2] Hl].
    cbn [KMerCounter.for_each]. rewrite fmap_cons.
    unfold KMerCounter.bind at 1. cbv zeta.
    destruct (negb (contains "N" (slice s i (i + KMerCounter.k c)))) eqn:Hn.
    + rewrite add_Ok; [|apply length_slice; lia|lia].
      assert (Hup : upper (slice s i (i + KMerCounter.k c))
                    = slice s i (i + KMerCounter.k c)).
      { apply upper_fixed. unfold slice. by apply Forall_take, Forall_drop. }
      rewrite Hup.
      match goal with |- context [KMerCounter.for_each _ _ ?c1] =>
        destruct (IH c1) as (c' & Hrun & Hk' & Hcounts); [exact Hk | exact Hl |]
      end.
      simpl in Hk', Hcounts.
      exists c'. split; [exact Hrun|]. split; [exact Hk'|]. intros w.
      rewrite Hcounts. apply contains_false in Hn.
      rewrite (filter_cons_True (λ x, "N"%char ∉ x)) by exact Hn.
      rewrite filter_cons, lookup_insert.
      destruct (decide (slice s i (i + KMerCounter.k c) = w)) as [<-|Hne];
        simpl; lia.
    + unfold KMerCounter.ret at 1.
      destruct (IH c Hk Hl) as (c' & Hrun & Hk' & Hcounts).
      exists c'. split; [exact Hrun|]. split; [exact Hk'|]. intros w.
      rewrite Hcounts.
      rewrite (filter_cons_False (λ x, "N"%char ∉ x)); [reflexivity|].
      intros Hnot. apply contains_false in Hnot. rewrite Hnot in Hn.
      discriminate.
Qed.

Lemma ok_upper_chars (s : Sequence.t) :
  Sequence.ok s → Forall (λ ch, upper_char ch = [ch]) (Sequence.bases s).
Proof.
  intros Hok. eapply Forall_impl; [by apply ok_bases_Forall|].
  intros c. apply upper_char_alphabet.
Qed.

(** [count_kmers] on a valid sequence, in full. *)
Lemma count_kmers_counts (s : Sequence.t) (k : Z) :
  Sequence.ok s → (0 < k ≤ Z.of_nat (Sequence.len s))%Z →
  ∃ c, count_kmers s k = Ok c ∧ KMerCounter.k c = k ∧ KMerCounter.inv c ∧
       ∀ w, default 0%Z (KMerCounter.counts c !! w) =
            Z.of_nat (length (filter (λ x, x = w)
                                (clean_windows (Sequence.bases s) k))).
Proof.
  intros Hok [Hk0 Hk]. unfold count_kmers.
  case_decide; [lia|]. case_decide; [lia|].
  rewrite new_counter by exact Hk0. rewrite bind_Ok.
  pose proof (count_kmers_inv (KMerCounter.mk k ∅ 0) (Sequence.bases s)
                (inv_empty k)) as Hinv.
  unfold KMerCounter.count_from_sequence. revert Hinv.
  unfold KMerCounter.count_kmers.
  rewrite (upper_ok s Hok). cbv zeta.
  set (c0 := KMerCounter.mk k ∅ 0).
  destruct (window_loop_counts (Sequence.bases s)
              (seqZ 0 (Z.of_nat (length (Sequence.bases s)) - k + 1)) c0)
    as (c' & Hrun & Hk' & Hcounts).
  { simpl. lia. }
  { by apply ok_upper_chars. }
  { apply Forall_forall. intros i Hi. apply elem_of_seqZ in Hi.
    unfold Sequence.len in Hk. simpl. lia. }
  change (KMerCounter.k c0) with k in *.
  cbv zeta in Hrun. rewrite Hrun. simpl. intros Hinv.
  exists c'. split; [reflexivity|]. split; [exact Hk'|].
  split; [exact Hinv|]. intros w. rewrite Hcounts. simpl.
  rewrite lookup_empty. simpl. reflexivity.
Qed.

(** X11: on a valid sequence with [0 < k <= len], [count_kmers] returns a
    counter in which [get_count] of every string of length [k] is the number
    of N-free windows equal to its upper-casing; with [k <= 0] or [k > len]
    it raises [ValueError]. *)
Theorem count_kmers_get_count (s : Sequence.t) (k : Z) :
  Sequence.ok s →
  (¬ (0 < k ≤ Z.of_nat (Sequence.len s))%Z →
   count_kmers s k = Err ValueError) ∧
  ((0 < k ≤ Z.of_nat (Sequence.len s))%Z →
   ∃ c, count_kmers s k = Ok c ∧
        ∀ w, Z.of_nat (length w) = k →
          KMerCounterOps.get_count c w =
            Ok (Z.of_nat (length (filter (λ x, x = upper w)
                                    (clean_windows (Sequence.bases s) k))))).
Proof.
  intros Hok. split.
  - intros Hbad. unfold count_kmers. repeat case_decide; try reflexivity. lia.
  - intros Hk.
    destruct (count_kmers_counts s k Hok Hk) as (c & Hc & Hkc & _ & Hcounts).
    exists c. split; [exact Hc|]. intros w Hw.
    unfold KMerCounterOps.get_count. rewrite Hkc.
    case_decide; [done|]. by rewrite Hcounts.
Qed.

Lemma count_kmers_get_count_witness :
  ∃ c, count_kmers (Sequence.mk (lit "ATCGATCGN") None None DNA true) 3 = Ok c ∧
       KMerCounterOps.get_count c (lit "tcg") = Ok 2%Z.
Proof.
  destruct (count_kmers_get_count
              (Sequence.mk (lit "ATCGATCGN") None None DNA true) 3)
    as [_ Hin].
  { split; [discriminate | reflexivity]. }
  destruct Hin as (c & Hc & Hget).
  { unfold Sequence.len, lit. simpl. lia. }
  exists c. split; [exact Hc|]. by rewrite Hget.
Defined.
(** ** Merging counters *)

Lemma sum_counts_list (m : gmap str Z) :
  KMerCounter.sum_counts m = foldr (λ kv acc, (kv.2 + acc)%Z) 0%Z (map_to_list m).
Proof.
  unfold KMerCounter.sum_counts. rewrite map_fold_foldr.
  induction (map_to_list m) as [|[k v] l IH]; [reflexivity|].
  simpl. by rewrite IH.
Qed.

(** The loop of [merge] on a list of items with distinct keys. *)
Lemma bump_loop (l : list (str * Z)) (c : KMerCounter.t) :
  NoDup l.*1 →
  ∃ c', KMerCounter.for_each l (λ '(kmer, count), KMerCounter.bump kmer count) c
        = (Ok tt, c') ∧
        KMerCounter.k c' = KMerCounter.k c ∧
        KMerCounter.total_kmers c' =
          (KMerCounter.total_kmers c
           + foldr (λ kv acc, (kv.2 + acc)%Z) 0 l)%Z ∧
        ∀ w, default 0%Z (KMerCounter.counts c' !! w) =
             (default 0 (KMerCounter.counts c !! w)
              + default 0 (list_to_map (M := gmap str Z) l !! w))%Z.
Proof.
  revert c. induction l as [|[kmer count] l IH]; intros c Hnd.
  { exists c. simpl. repeat split; try lia. intros w.
    rewrite lookup_empty. simpl. lia. }
  apply NoDup_cons in Hnd as [Hfresh Hnd].
  cbn [KMerCounter.for_each]. unfold KMerCounter.bind at 1.
  unfold KMerCounter.bump at 1.
  match goal with |- context [KMerCounter.for_each _ _ ?c1] =>
    destruct (IH c1 Hnd) as (c' & Hrun & Hk & Htot & Hcounts)
  end.
  simpl in Hk, Htot, Hcounts.
  exists c'. split; [exact Hrun|]. split; [exact Hk|].
  split; [rewrite Htot; simpl; lia|].
  intros w. rewrite Hcounts. simpl. rewrite !lookup_insert.
  destruct (decide (kmer = w)) as [<-|Hne]; simpl; [|lia].
  rewrite (not_elem_of_list_to_map_1 _ kmer) by exact Hfresh. simpl. lia.
Qed.

(** X12: [merge] raises [ValueError], leaving the counter as it was, when
    the two [k] differ; otherwise it does not raise, every count becomes the
    sum of the two counts, and the total grows by the sum of the counts of
    the other counter.  So merging [a] into [b] and [b] into [a] give the
    same counts, and the same total when both satisfy the counter
    invariant. *)
Theorem merge_adds_counts (a b : KMerCounter.t) :
  (KMerCounter.k a ≠ KMerCounter.k b →
   KMerCounter.merge b a = (Err ValueError, a)) ∧
  (KMerCounter.k a = KMerCounter.k b →
   ∃ ab ba,
     KMerCounter.merge b a = (Ok tt, ab) ∧
     KMerCounter.merge a b = (Ok tt, ba) ∧
     (∀ w, default 0%Z (KMerCounter.counts ab !! w) =
           (default 0 (KMerCounter.counts a !! w)
            + default 0 (KMerCounter.counts b !! w))%Z) ∧
     KMerCounter.total_kmers ab =
       (KMerCounter.total_kmers a
        + KMerCounter.sum_counts (KMerCounter.counts b))%Z ∧
     (∀ w, default 0%Z (KMerCounter.counts ab !! w)
           = default 0%Z (KMerCounter.counts ba !! w)) ∧
     (KMerCounter.inv a → KMerCounter.inv b →
      KMerCounter.total_kmers ab = KMerCounter.total_kmers ba)).
Proof.
  assert (Hone : ∀ x y, KMerCounter.k x = KMerCounter.k y →
            ∃ xy, KMerCounter.merge y x = (Ok tt, xy) ∧
                  (∀ w, default 0%Z (KMerCounter.counts xy !! w) =
                        (default 0 (KMerCounter.counts x !! w)
                         + default 0 (KMerCounter.counts y !! w))%Z) ∧
                  KMerCounter.total_kmers xy =
                    (KMerCounter.total_kmers x
                     + KMerCounter.sum_counts (KMerCounter.counts y))%Z).
  { intros x y Hk. unfold KMerCounter.merge. case_decide; [done|].
    destruct (bump_loop (map_to_list (KMerCounter.counts y)) x)
      as (xy & Hrun & _ & Htot & Hcounts);
      [apply NoDup_fst_map_to_list|].
    exists xy. split; [exact Hrun|]. split.
    - intros w. rewrite Hcounts. by rewrite list_to_map_to_list.
    - by rewrite Htot, sum_counts_list. }
  split.
  - intros Hk. unfold KMerCounter.merge. by case_decide.
  - intros Hk.
    destruct (Hone a b Hk) as (ab & Hab & Hcab & Htab).
    destruct (Hone b a (eq_sym Hk)) as (ba & Hba & Hcba & Htba).
    exists ab, ba. split; [exact Hab|]. split; [exact Hba|].
    split; [exact Hcab|]. split; [exact Htab|]. split.
    + intros w. rewrite Hcab, Hcba. lia.
    + intros [_ Hta] [_ Htb]. rewrite Htab, Htba, Hta, Htb. lia.
Qed.

Lemma merge_adds_counts_witness :
  ∃ ab, KMerCounter.merge (KMerCounter.mk 3 {[ lit "ATC" := 2%Z ]} 2)
          (KMerCounter.mk 3 {[ lit "ATC" := 1%Z; lit "TCG" := 4%Z ]} 5)
        = (Ok tt, ab) ∧
        KMerCounter.total_kmers ab = 7%Z.
Proof.
  destruct (merge_adds_counts
              (KMerCounter.mk 3 {[ lit "ATC" := 1%Z; lit "TCG" := 4%Z ]} 5)
              (KMerCounter.mk 3 {[ lit "ATC" := 2%Z ]} 2)) as [_ Hsame].
  destruct (Hsame eq_refl) as (ab & ba & Hab & _ & _ & Htot & _).
  exists ab. split; [exact Hab|]. rewrite Htot. reflexivity.
Defined.

(** ** Consequences of the counter invariant *)

Lemma sum_counts_bounds (m : gmap str Z) :
  map_Forall (λ _ v, (0 < v)%Z) m →
  (Z.of_nat (size m) ≤ KMerCounter.sum_counts m)%Z ∧
  ∀ w v, m !! w = Some v → (v ≤ KMerCounter.sum_counts m)%Z.
Proof.
  induction m as [|key x m Hfresh IH] using map_ind.
  { intros _. split; [by rewrite map_size_empty|]. intros w v Hw.
    by rewrite lookup_empty in Hw. }
  intros Hpos. apply map_Forall_insert in Hpos as [Hx Hpos]; [|exact Hfresh].
  destruct (IH Hpos) as [Hsize Hle].
  rewrite sum_counts_fresh by exact Hfresh.
  rewrite map_size_insert_None by exact Hfresh. split; [lia|].
  intros w v Hw. apply lookup_insert_Some in Hw as [[<- <-]|[_ Hw]]; [lia|].
  specialize (Hle _ _ Hw). lia.
Qed.

(** X13: in a counter that satisfies the invariant, the number of distinct
    k-mers is at most the total, and [get_count] of any k-mer of length [k]
    lies between 0 and the total. *)
Theorem counts_within_total (c : KMerCounter.t) :
  KMerCounter.inv c →
  (Z.of_nat (KMerCounterOps.unique_count c) ≤ KMerCounter.total_kmers c)%Z ∧
  ∀ kmer, Z.of_nat (length kmer) = KMerCounter.k c →
    ∃ n, KMerCounterOps.get_count c kmer = Ok n ∧
         (0 ≤ n ≤ KMerCounter.total_kmers c)%Z.
Proof.
  intros [Hkeys Htot].
  destruct (sum_counts_bounds (KMerCounter.counts c)) as [Hsize Hle].
  { intros w v Hw. by destruct (Hkeys w v Hw). }
  rewrite Htot. split; [exact Hsize|]. intros kmer Hlen.
  unfold KMerCounterOps.get_count. case_decide; [done|].
  eexists. split; [reflexivity|].
  destruct (KMerCounter.counts c !! upper kmer) as [v|] eqn:Hv; simpl.
  - destruct (Hkeys _ _ Hv). specialize (Hle _ _ Hv). lia.
  - lia.
Qed.

Lemma counts_within_total_witness :
  (Z.of_nat (KMerCounterOps.unique_count
               (KMerCounter.mk 3 {[ lit "ATC" := 1%Z; lit "TCG" := 4%Z ]} 5))
   ≤ 5)%Z.
Proof.
  apply (counts_within_total
           (KMerCounter.mk 3 {[ lit "ATC" := 1%Z; lit "TCG" := 4%Z ]} 5)).
  split; [|reflexivity].
  apply map_Forall_insert_2; [split; [reflexivity | lia]|].
  apply map_Forall_insert_2; [split; [reflexivity | lia]|].
  apply map_Forall_empty.
Defined.

(** ** Genome size *)

(** X14: [estimate_genome_size] raises [ValueError] unless all three
    arguments are positive; otherwise it returns the quotient of the total by
    the peak coverage rounded down, which is 0 exactly when the total is
    below the peak coverage; [k] has no influence. *)
Theorem estimate_genome_size_outcome (total_kmers peak_coverage k : Z) :
  (¬ (0 < total_kmers ∧ 0 < peak_coverage ∧ 0 < k)%Z →
   estimate_genome_size total_kmers peak_coverage k = Err ValueError) ∧
  ((0 < total_kmers ∧ 0 < peak_coverage ∧ 0 < k)%Z →
   ∃ size, estimate_genome_size total_kmers peak_coverage k = Ok size ∧
           (peak_coverage * size ≤ total_kmers
            < peak_coverage * (size + 1))%Z ∧
           (size = 0 ↔ total_kmers < peak_coverage)%Z ∧
           ∀ k', (0 < k')%Z →
             estimate_genome_size total_kmers peak_coverage k' = Ok size).
Proof.
  unfold estimate_genome_size. split.
  - intros Hbad. case_decide; [reflexivity | lia].
  - intros (Ht & Hp & Hk). case_decide; [lia|].
    eexists. split; [reflexivity|].
    pose proof (Z.mul_div_le total_kmers peak_coverage Hp).
    pose proof (Z.mul_succ_div_gt total_kmers peak_coverage Hp).
    split; [lia|]. split.
    + split; intros Hz.
      * rewrite Hz in *. lia.
      * apply Z.div_small. lia.
    + intros k' Hk'. case_decide; [lia | reflexivity].
Qed.

Lemma estimate_genome_size_outcome_witness :
  estimate_genome_size 1 2 21 = Ok 0%Z.
Proof.
  destruct (estimate_genome_size_outcome 1 2 21) as [_ Hok].
  destruct Hok as (size & Hrun & _ & Hzero & _); [lia|].
  rewrite Hrun. f_equal. apply Hzero. lia.
Defined.
(** ** Canonical k-mers *)

Lemma kmer_canonical_eq (x : KMer.t) :
  KMer.ok x →
  KMer.canonical x =
    Ok (KMer.mk (canonical_str (KMer.sequence x)) (KMer.k x)).
Proof.
  intros [Hne Hk]. unfold KMer.canonical.
  rewrite kmer_reverse_complement_eq by exact Hne. simpl.
  unfold canonical_str, reverse_complement_str.
  destruct (str_lt _ _); f_equal; [|by rewrite Hk].
  destruct x as [sx kx]. simpl in *. by rewrite Hk.
Qed.

Lemma length_reverse_complement_str (w : str) :
  length (reverse_complement_str w) = length w.
Proof. unfold reverse_complement_str. by rewrite length_map, length_rev. Qed.

Lemma length_canonical_str (w : str) : length (canonical_str w) = length w.
Proof.
  unfold canonical_str. destruct (str_lt _ _);
    [reflexivity | apply length_reverse_complement_str].
Qed.

Lemma canonical_str_least (w : str) :
  Forall (λ c, c ∈ VALID_DNA_BASES) w →
  str_lt (reverse_complement_str (canonical_str w)) (canonical_str w) = false.
Proof.
  intros Hw. unfold canonical_str.
  destruct (str_lt w (reverse_complement_str w)) eqn:Hlt.
  - by apply str_lt_asym.
  - unfold reverse_complement_str at 1.
    fold (reverse_complement_str w).
    unfold reverse_complement_str at 1 2.
    rewrite (rc_involutive w Hw). exact Hlt.
Qed.

Lemma canonical_str_idempotent (w : str) :
  Forall (λ c, c ∈ VALID_DNA_BASES) w →
  canonical_str (canonical_str w) = canonical_str w.
Proof.
  intros Hw. pose proof (canonical_str_least w Hw) as Hleast.
  unfold canonical_str at 1.
  destruct (str_lt (canonical_str w) _) eqn:Hlt; [reflexivity|].
  symmetry. by apply str_lt_total.
Qed.

(** X15: for a k-mer over the DNA alphabet, [canonical] returns a k-mer of
    the same [k] that is not greater than its own reverse complement, and
    applying [canonical] again changes nothing; [reverse_complement] keeps
    [k] and applied twice gives back the k-mer. *)
Theorem kmer_canonical_idempotent (x : KMer.t) :
  KMer.ok x → Forall (λ c, c ∈ VALID_DNA_BASES) (KMer.sequence x) →
  ∃ c rc rcrc,
    KMer.canonical x = Ok c ∧ KMer.canonical c = Ok c ∧
    KMer.k c = KMer.k x ∧
    str_lt (reverse_complement_str (KMer.sequence c)) (KMer.sequence c)
      = false ∧
    KMer.reverse_complement x = Ok rc ∧ KMer.k rc = KMer.k x ∧
    KMer.reverse_complement rc = Ok rcrc ∧ rcrc = x.
Proof.
  intros Hok Hdna. pose proof Hok as [Hne Hk].
  assert (Hokc : KMer.ok (KMer.mk (canonical_str (KMer.sequence x)) (KMer.k x))).
  { split; simpl.
    - intros Hnil. apply (f_equal length) in Hnil.
      rewrite length_canonical_str in Hnil. by destruct (KMer.sequence x).
    - by rewrite length_canonical_str. }
  do 3 eexists. split; [by apply kmer_canonical_eq|].
  split.
  { rewrite kmer_canonical_eq by exact Hokc. simpl.
    by rewrite canonical_str_idempotent. }
  split; [reflexivity|]. split; [by apply canonical_str_least|].
  split; [by apply kmer_reverse_complement_eq|].
  split; [by rewrite Hk|]. simpl. split.
  - rewrite kmer_reverse_complement_eq; simpl; [reflexivity|].
    intros Hnil. apply (f_equal length) in Hnil.
    rewrite length_map, length_rev in Hnil. by destruct (KMer.sequence x).
  - rewrite (rc_involutive _ Hdna), length_map, length_rev.
    destruct x as [sx kx]. simpl in *. by rewrite Hk.
Qed.

Lemma kmer_canonical_idempotent_witness :
  ∃ c, KMer.canonical (KMer.mk (lit "TACG") 4) = Ok c ∧
       KMer.canonical c = Ok c.
Proof.
  destruct (kmer_canonical_idempotent (KMer.mk (lit "TACG") 4))
    as (c & rc & rcrc & Hc & Hcc & _).
  { split; [discriminate | reflexivity]. }
  { unfold lit. simpl. repeat constructor; set_solver. }
  exists c. split; [exact Hc | exact Hcc].
Defined.

(** The loop of [count_kmers_canonical] on start positions [l]. *)
Lemma canonical_loop (s : str) (k : Z) (l : list Z) (c : KMerCounter.t) :
  (0 < k)%Z → KMerCounter.k c = k →
  Forall (λ ch, upper_char ch = [ch]) s →
  Forall (λ i, 0 ≤ i ∧ i + k ≤ Z.of_nat (length s))%Z l →
  ∃ c',
    KMerCounter.for_each l
      (λ i self,
         let kmer_str := slice s i (i + k) in
         if negb (contains "N" kmer_str) then
           match kmer ← KMer.init kmer_str; KMer.canonical kmer with
           | Ok canonical => KMerCounter.add (KMer.sequence canonical) 1 self
           | Err e => KMerCounter.raise e self
           end
         else KMerCounter.ret tt self) c = (Ok tt, c') ∧
    KMerCounter.k c' = k ∧
    KMerCounter.total_kmers c' =
      (KMerCounter.total_kmers c
       + Z.of_nat (length (filter (λ x, "N"%char ∉ x)
                             ((λ i, slice s i (i + k)) <$> l))))%Z ∧
    ∀ w, default 0%Z (KMerCounter.counts c' !! w) =
         (default 0 (KMerCounter.counts c !! w) +
          Z.of_nat (length (filter (λ x, canonical_str x = w)
                              (filter (λ x, "N"%char ∉ x)
                                 ((λ i, slice s i (i + k)) <$> l)))))%Z.
Proof.
  intros Hk Hkc Hs Hl. revert c Hkc Hl.
  induction l as [|i l IH]; intros c Hkc Hl.
  - exists c. simpl. split; [reflexivity|]. split; [exact Hkc|].
    split; [lia|]. intros w. lia.
  - apply Forall_cons in Hl as [[Hi1 Hi2] Hl].
    cbn [KMerCounter.for_each]. rewrite fmap_cons.
    unfold KMerCounter.bind at 1. cbv zeta.
    set (w0 := slice s i (i + k)).
    assert (Hlen : Z.of_nat (length w0) = k) by (apply length_slice; lia).
    destruct (negb (contains "N" w0)) eqn:Hn.
    + assert (Hup : upper w0 = w0).
      { apply upper_fixed. unfold w0, slice.
        by apply Forall_take, Forall_drop. }
      assert (Hne : w0 ≠ []) by (intros Hnil; rewrite Hnil in Hlen; simpl in Hlen; lia).
      rewrite kmer_init_fixed by done. rewrite bind_Ok.
      rewrite kmer_canonical_eq by (by split). simpl KMer.sequence.
      assert (Hupc : upper (canonical_str w0) = canonical_str w0).
      { unfold canonical_str, reverse_complement_str.
        destruct (str_lt _ _); [exact Hup | apply upper_complement]. }
      rewrite add_Ok; [|by rewrite length_canonical_str, Hkc | lia].
      rewrite Hupc.
      match goal with |- context [KMerCounter.for_each _ _ ?c1] =>
        destruct (IH c1) as (c' & Hrun & Hk' & Htot & Hcounts);
          [exact Hkc | exact Hl |]
      end.
      simpl in Htot, Hcounts.
      exists c'. split; [exact Hrun|]. split; [exact Hk'|].
      apply contains_false in Hn.
      rewrite (filter_cons_True (λ x, "N"%char ∉ x)) by exact Hn.
      split; [rewrite Htot; simpl; lia|].
      intros w. rewrite Hcounts, filter_cons, lookup_insert.
      destruct (decide (canonical_str w0 = w)) as [<-|Hne']; simpl; lia.
    + unfold KMerCounter.ret at 1.
      destruct (IH c Hkc Hl) as (c' & Hrun & Hk' & Htot & Hcounts).
      exists c'. split; [exact Hrun|]. split; [exact Hk'|].
      rewrite (filter_cons_False (λ x, "N"%char ∉ x)); [by split|].
      intros Hnot. apply contains_false in Hnot. rewrite Hnot in Hn.
      discriminate.
Qed.

Lemma filter_length_pos {A} (P : A → Prop) `{∀ x, Decision (P x)}
    (l : list A) :
  0 < length (filter P l) ↔ ∃ x, x ∈ l ∧ P x.
Proof.
  split.
  - destruct (filter P l) as [|x l'] eqn:Hf; simpl; [lia|]. intros _.
    assert (Hx : x ∈ filter P l) by (rewrite Hf; left).
    apply list_elem_of_filter in Hx as [HP Hx]. eauto.
  - intros (x & Hx & HP).
    assert (Hin : x ∈ filter P l) by (by apply list_elem_of_filter).
    destruct (filter P l); [by apply elem_of_nil in Hin | simpl; lia].
Qed.

Lemma kmer_init_upper (w : str) (x : KMer.t) :
  KMer.init w = Ok x → upper (KMer.sequence x) = KMer.sequence x.
Proof.
  unfold KMer.init. case_decide; [discriminate|]. intros [= <-]. simpl.
  apply upper_idempotent.
Qed.

Lemma kmer_canonical_upper (x y : KMer.t) :
  upper (KMer.sequence x) = KMer.sequence x → KMer.canonical x = Ok y →
  upper (KMer.sequence y) = KMer.sequence y.
Proof.
  intros Hx. unfold KMer.canonical.
  destruct (KMer.reverse_complement x) as [rc|] eqn:Hrc; [|discriminate].
  rewrite bind_Ok. destruct (str_lt _ _); intros [= <-]; [exact Hx|].
  by eapply kmer_init_upper.
Qed.

(** X16: on a valid DNA sequence with [0 < k <= len], [count_kmers_canonical]
    returns a counter that satisfies the invariant and has the same total as
    [count_kmers], the number of N-free windows; the count of a string is the
    number of N-free windows of which it is the canonical form, and every
    stored key is not greater than its own reverse complement. *)
Theorem count_kmers_canonical_spec (s : Sequence.t) (k : Z) :
  Sequence.ok s → Sequence.seq_type s = DNA →
  (0 < k ≤ Z.of_nat (Sequence.len s))%Z →
  ∃ c, count_kmers_canonical s k = Ok c ∧ KMerCounter.inv c ∧
       KMerCounter.total_kmers c =
         Z.of_nat (length (clean_windows (Sequence.bases s) k)) ∧
       (∀ w, default 0%Z (KMerCounter.counts c !! w) =
             Z.of_nat (length (filter (λ x, canonical_str x = w)
                                 (clean_windows (Sequence.bases s) k)))) ∧
       ∀ key v, KMerCounter.counts c !! key = Some v →
         str_lt (reverse_complement_str key) key = false.
Proof.
  intros Hok Hty [Hk0 Hk]. unfold count_kmers_canonical.
  case_decide; [lia|]. case_decide; [lia|].
  rewrite new_counter by exact Hk0. rewrite bind_Ok. cbv zeta.
  set (c0 := KMerCounter.mk k ∅ 0).
  set (body := λ (i : Z) (self : KMerCounter.t), _).
  assert (Hinv : KMerCounter.inv
            (KMerCounter.for_each
               (seqZ 0 (Z.of_nat (length (Sequence.bases s)) - k + 1))
               body c0).2).
  { apply (for_each_inv KMerCounter.inv); [|apply inv_empty].
    intros i c' _ Hc'. unfold body.
    destruct (negb _); [|exact Hc'].
    destruct (_ ≫= _) as [canonical|e] eqn:Hcan; [|exact Hc'].
    apply add_inv; [|exact Hc']. f_equal.
    destruct (KMer.init _) as [x|] eqn:Hx; [|discriminate].
    rewrite bind_Ok in Hcan.
    eapply kmer_canonical_upper; [|exact Hcan]. by eapply kmer_init_upper. }
  destruct (canonical_loop (Sequence.bases s) k
              (seqZ 0 (Z.of_nat (length (Sequence.bases s)) - k + 1)) c0)
    as (c' & Hrun & Hk' & Htot & Hcounts); [exact Hk0 | reflexivity | | |].
  { by apply ok_upper_chars. }
  { apply Forall_forall. intros i Hi. apply elem_of_seqZ in Hi.
    unfold Sequence.len in Hk. lia. }
  cbv zeta in Hrun. fold body in Hrun. rewrite Hrun in Hinv |- *. simpl in *.
  exists c'. split; [reflexivity|]. split; [exact Hinv|].
  split; [rewrite Htot; reflexivity|].
  assert (Hcounts' : ∀ w, default 0%Z (KMerCounter.counts c' !! w) =
             Z.of_nat (length (filter (λ x, canonical_str x = w)
                                 (clean_windows (Sequence.bases s) k)))).
  { intros w. rewrite Hcounts, lookup_empty. reflexivity. }
  split; [exact Hcounts'|].
  intros key v Hkey. destruct Hinv as [Hkeys _].
  destruct (Hkeys _ _ Hkey) as [_ Hpos].
  specialize (Hcounts' key). rewrite Hkey in Hcounts'. simpl in Hcounts'.
  assert (Hex : 0 < length (filter (λ x, canonical_str x = key)
                              (clean_windows (Sequence.bases s) k))) by lia.
  apply filter_length_pos in Hex as (x & Hx & <-).
  apply canonical_str_least.
  unfold clean_windows, windows in Hx.
  apply list_elem_of_filter in Hx as [_ Hx].
  apply list_elem_of_fmap in Hx as (i & -> & _).
  unfold slice. apply Forall_take, Forall_drop.
  pose proof (ok_bases_Forall s Hok) as Hbs. by rewrite Hty in Hbs.
Qed.

Lemma count_kmers_canonical_spec_witness :
  ∃ c, count_kmers_canonical
         (Sequence.mk (lit "ATCGATCG") None None DNA true) 3 = Ok c ∧
       KMerCounter.total_kmers c = 6%Z.
Proof.
  destruct (count_kmers_canonical_spec
              (Sequence.mk (lit "ATCGATCG") None None DNA true) 3)
    as (c & Hc & _ & Htot & _).
  { split; [discriminate | reflexivity]. }
  { reflexivity. }
  { unfold Sequence.len, lit. simpl. lia. }
  exists c. split; [exact Hc|]. rewrite Htot. reflexivity.
Defined.
(** ** Shared and unique k-mers *)

Lemma count_kmers_lookup (s : Sequence.t) (k : Z) (c : KMerCounter.t)
    (w : str) :
  Sequence.ok s → (0 < k ≤ Z.of_nat (Sequence.len s))%Z →
  count_kmers s k = Ok c →
  ∀ v, KMerCounter.counts c !! w = Some v ↔
       (0 < v)%Z ∧
       v = Z.of_nat (length (filter (λ x, x = w)
                               (clean_windows (Sequence.bases s) k))).
Proof.
  intros Hok Hk Hc v.
  destruct (count_kmers_counts s k Hok Hk) as (c' & Hc' & _ & Hinv & Hcounts).
  assert (c' = c) as -> by congruence.
  specialize (Hcounts w). destruct Hinv as [Hkeys _]. split.
  - intros Hv. destruct (Hkeys _ _ Hv) as [_ Hpos].
    rewrite Hv in Hcounts. simpl in Hcounts. by split.
  - intros [Hpos ->].
    destruct (KMerCounter.counts c !! w) as [v'|]; simpl in Hcounts;
      [by rewrite Hcounts | lia].
Qed.

Lemma count_kmers_dom (s : Sequence.t) (k : Z) (c : KMerCounter.t) (w : str) :
  Sequence.ok s → (0 < k ≤ Z.of_nat (Sequence.len s))%Z →
  count_kmers s k = Ok c →
  w ∈ dom (KMerCounter.counts c) ↔ w ∈ clean_windows (Sequence.bases s) k.
Proof.
  intros Hok Hk Hc. rewrite elem_of_dom. split.
  - intros [v Hv]. apply (count_kmers_lookup s k c w Hok Hk Hc) in Hv
      as [Hpos ->].
    assert (Hex : 0 < length (filter (λ x, x = w)
                                (clean_windows (Sequence.bases s) k))) by lia.
    by apply filter_length_pos in Hex as (x & Hx & ->).
  - intros Hw. eexists.
    apply (count_kmers_lookup s k c w Hok Hk Hc). split; [|reflexivity].
    assert (Hex : 0 < length (filter (λ x, x = w)
                                (clean_windows (Sequence.bases s) k)))
      by (apply filter_length_pos; eauto).
    lia.
Qed.

(** X17: on valid sequences with [0 < k] at most both lengths,
    [shared_kmers] returns, without repetition, exactly the strings that are
    an N-free window of width [k] of both sequences; it raises [ValueError]
    when [k] is not positive or exceeds one of the lengths. *)
Theorem shared_kmers_spec (seq1 seq2 : Sequence.t) (k : Z) :
  Sequence.ok seq1 → Sequence.ok seq2 →
  (¬ (0 < k ∧ k ≤ Z.of_nat (Sequence.len seq1)
      ∧ k ≤ Z.of_nat (Sequence.len seq2))%Z →
   shared_kmers seq1 seq2 k = Err ValueError) ∧
  ((0 < k ∧ k ≤ Z.of_nat (Sequence.len seq1)
    ∧ k ≤ Z.of_nat (Sequence.len seq2))%Z →
   ∃ l, shared_kmers seq1 seq2 k = Ok l ∧ NoDup l ∧
        ∀ w, w ∈ l ↔ w ∈ clean_windows (Sequence.bases seq1) k ∧
                     w ∈ clean_windows (Sequence.bases seq2) k).
Proof.
  intros Hok1 Hok2. split.
  - intros Hbad. unfold shared_kmers.
    destruct (decide (0 < k ≤ Z.of_nat (Sequence.len seq1))%Z) as [Hk1|Hk1].
    + destruct (count_kmers_counts seq1 k Hok1 Hk1) as (c1 & Hc1 & _).
      rewrite Hc1. simpl. unfold count_kmers.
      repeat case_decide; try reflexivity; lia.
    + unfold count_kmers. repeat case_decide; try reflexivity; lia.
  - intros (Hk0 & Hk1 & Hk2). unfold shared_kmers.
    destruct (count_kmers_counts seq1 k Hok1) as (c1 & Hc1 & _); [lia|].
    destruct (count_kmers_counts seq2 k Hok2) as (c2 & Hc2 & _); [lia|].
    rewrite Hc1, Hc2. simpl. eexists. split; [reflexivity|].
    split; [apply NoDup_elements|]. intros w.
    rewrite elem_of_elements, elem_of_intersection.
    rewrite (count_kmers_dom seq1 k c1 w Hok1) by (done || lia).
    by rewrite (count_kmers_dom seq2 k c2 w Hok2) by (done || lia).
Qed.

Lemma shared_kmers_spec_witness :
  ∃ l, shared_kmers (Sequence.mk (lit "ATCGA") None None DNA true)
         (Sequence.mk (lit "TTCGN") None None DNA true) 3 = Ok l ∧
       lit "TCG" ∈ l.
Proof.
  destruct (shared_kmers_spec (Sequence.mk (lit "ATCGA") None None DNA true)
              (Sequence.mk (lit "TTCGN") None None DNA true) 3) as [_ Hin].
  { split; [discriminate | reflexivity]. }
  { split; [discriminate | reflexivity]. }
  destruct Hin as (l & Hl & _ & Hmem).
  { unfold Sequence.len, lit. simpl. lia. }
  exists l. split; [exact Hl|]. apply Hmem.
  split; apply (bool_decide_unpack _); reflexivity.
Defined.

(** X18: on a valid sequence with [0 < k <= len], [find_unique_kmers]
    returns, without repetition, exactly the strings that occur once among
    the N-free windows of width [k]; each has length [k]. *)
Theorem find_unique_kmers_spec (s : Sequence.t) (k : Z) :
  Sequence.ok s → (0 < k ≤ Z.of_nat (Sequence.len s))%Z →
  ∃ l, find_unique_kmers s k = Ok l ∧ NoDup l ∧
       (∀ w, w ∈ l ↔
             length (filter (λ x, x = w)
                       (clean_windows (Sequence.bases s) k)) = 1) ∧
       Forall (λ w, Z.of_nat (length w) = k) l.
Proof.
  intros Hok Hk. unfold find_unique_kmers.
  destruct (count_kmers_counts s k Hok Hk) as (c & Hc & Hkc & Hinv & _).
  rewrite Hc. simpl. eexists. split; [reflexivity|].
  assert (Hmem : ∀ w,
            w ∈ (filter (λ item : str * Z, item.2 = 1%Z)
                   (map_to_list (KMerCounter.counts c))).*1 ↔
            KMerCounter.counts c !! w = Some 1%Z).
  { intros w. rewrite list_elem_of_fmap. split.
    - intros ([w' v] & -> & Hin). apply list_elem_of_filter in Hin as [Hv Hin].
      simpl in *. subst v. by apply elem_of_map_to_list in Hin.
    - intros Hw. exists (w, 1%Z). split; [reflexivity|].
      apply list_elem_of_filter. split; [reflexivity|].
      by apply elem_of_map_to_list. }
  split; [|split].
  - eapply NoDup_fmap_fst.
    + intros w v1 v2 H1 H2.
      apply list_elem_of_filter in H1 as [_ H1].
      apply list_elem_of_filter in H2 as [_ H2].
      apply elem_of_map_to_list in H1, H2. congruence.
    + apply NoDup_filter, NoDup_map_to_list.
  - intros w. rewrite Hmem.
    rewrite (count_kmers_lookup s k c w Hok Hk Hc). lia.
  - apply Forall_forall. intros w Hw. apply Hmem in Hw.
    destruct Hinv as [Hkeys _]. destruct (Hkeys _ _ Hw) as [Hlen _].
    by rewrite Hlen.
Qed.

Lemma find_unique_kmers_spec_witness :
  ∃ l, find_unique_kmers
         (Sequence.mk (lit "ATCGATCGA") None None DNA true) 3 = Ok l ∧
       lit "GAT" ∈ l.
Proof.
  destruct (find_unique_kmers_spec
              (Sequence.mk (lit "ATCGATCGA") None None DNA true) 3)
    as (l & Hl & _ & Hmem & _).
  { split; [discriminate | reflexivity]. }
  { unfold Sequence.len, lit. simpl. lia. }
  exists l. split; [exact Hl|]. apply Hmem. reflexivity.
Defined.

(** ** Positions of a k-mer *)

Lemma length_filter_fmap {A B} (f : A → B) (P : B → Prop)
    `{∀ x, Decision (P x)} (l : list A) :
  length (filter P (f <$> l)) = length (filter (λ x, P (f x)) l).
Proof.
  induction l as [|x l IH]; [reflexivity|].
  rewrite fmap_cons, !filter_cons. case_decide; simpl; by rewrite IH.
Qed.

Lemma filter_none {A} (P : A → Prop) `{∀ x, Decision (P x)} (l : list A) :
  Forall (λ x, ¬ P x) l → filter P l = [].
Proof.
  induction 1 as [|x l Hx _ IH]; [reflexivity|].
  by rewrite filter_cons_False.
Qed.

(** Only the sharp s has an upper-case form of more than one symbol. *)
Lemma upper_char_length (c : ascii) :
  length (upper_char c) = 1 ∨ "S"%char ∈ upper_char c.
Proof.
  destruct c as [[] [] [] [] [] [] [] []];
    first [by left | right; by left].
Qed.

Lemma length_upper_no_S (w : str) :
  "S"%char ∉ upper w → length (upper w) = length w.
Proof.
  intros HS. apply length_upper. induction w as [|c w IH]; [constructor|].
  rewrite upper_cons in HS. apply not_elem_of_app in HS as [Hc Hw].
  constructor; [|by apply IH].
  by destruct (upper_char_length c).
Qed.

Lemma ok_no_S (s : Sequence.t) :
  Sequence.ok s → "S"%char ∉ Sequence.bases s.
Proof.
  intros Hok Hin. pose proof (ok_bases_Forall s Hok) as Hall.
  rewrite Forall_forall in Hall. specialize (Hall _ Hin). revert Hall.
  unfold Sequence.valid_bases, VALID_DNA_BASES, VALID_RNA_BASES.
  case_decide; rewrite !elem_of_union, !elem_of_singleton; intros Hc;
    destruct_or!; discriminate.
Qed.

(** X19: [kmer_positions] raises [ValueError] on the empty k-mer and on a
    k-mer longer than the sequence; otherwise it returns what
    [find_motif_positions] returns, and on a valid sequence, for a k-mer
    without [N], the number of positions is the count that [count_kmers]
    with [k] the length of the k-mer stores for it. *)
Theorem kmer_positions_count (s : Sequence.t) (kmer : str) :
  (kmer = [] ∨ Sequence.len s < length kmer →
   kmer_positions s kmer = Err ValueError) ∧
  (kmer ≠ [] → length kmer ≤ Sequence.len s →
   ∃ ps, kmer_positions s kmer = Ok ps ∧
         SequenceOps.find_motif_positions s kmer = Ok ps ∧
         (Sequence.ok s → "N"%char ∉ upper kmer →
          ∃ c, count_kmers s (Z.of_nat (length kmer)) = Ok c ∧
               KMerCounterOps.get_count c kmer
               = Ok (Z.of_nat (length ps)))).
Proof.
  unfold kmer_positions, SequenceOps.find_motif_positions. split.
  - intros [-> | Hlong]; [reflexivity|].
    case_decide; [reflexivity|]. case_decide; [reflexivity | lia].
  - intros Hne Hlen. case_decide as H0; [by destruct kmer|].
    case_decide; [lia|]. eexists. split; [reflexivity|].
    split; [reflexivity|]. intros Hok HN.
    destruct (count_kmers_counts s (Z.of_nat (length kmer)) Hok)
      as (c & Hc & Hkc & _ & Hcounts); [lia|].
    exists c. split; [exact Hc|]. unfold KMerCounterOps.get_count.
    rewrite Hkc. case_decide; [done|]. f_equal.
    rewrite Hcounts, scan_positions_filter.
    destruct (decide ("S"%char ∈ upper kmer)) as [HS|HS].
    + (* a sharp s in the k-mer: its upper-cased form occurs nowhere *)
      pose proof (ok_no_S s Hok) as Hbases.
      rewrite !filter_none; [reflexivity| |].
      * apply Forall_forall. intros i _ Heq. apply Hbases.
        apply (slice_subseteq _ i (i + Z.of_nat (length (upper kmer)))).
        by rewrite Heq.
      * apply Forall_forall. intros w Hw Heq. subst w. apply Hbases.
        unfold clean_windows, windows in Hw.
        apply list_elem_of_filter in Hw as [_ Hw].
        apply list_elem_of_fmap in Hw as (i & Hw & _).
        eapply slice_subseteq. rewrite <- Hw. exact HS.
    + rewrite (length_upper_no_S kmer HS). f_equal.
      unfold clean_windows, windows.
      rewrite list_filter_filter, length_filter_fmap.
      f_equal. apply list_filter_iff. intros i. split.
      * intros [-> _]. reflexivity.
      * intros ->. split; [reflexivity | exact HN].
Qed.

Lemma kmer_positions_count_witness :
  ∃ ps, kmer_positions (Sequence.mk (lit "ATCGATCGA") None None DNA true)
          (lit "tcg") = Ok ps ∧ ps = [1; 5]%Z.
Proof.
  destruct (kmer_positions_count
              (Sequence.mk (lit "ATCGATCGA") None None DNA true) (lit "tcg"))
    as [_ Hin].
  destruct Hin as (ps & Hps & _); [discriminate | unfold Sequence.len, lit; simpl; lia |].
  exists ps. split; [exact Hps|].
  assert (Ok ps = Ok [1; 5]%Z) as [= ->] by (rewrite <- Hps; reflexivity).
  reflexivity.
Defined.
(** ** Counting the columns of an alignment *)

Lemma count_char_zip_l (c : ascii) (a1 a2 : str) :
  length a1 = length a2 →
  Alignment.count_char c a1 =
    length (filter (λ ab : ascii * ascii, ab.1 = c) (zip a1 a2)).
Proof.
  unfold Alignment.count_char. revert a2.
  induction a1 as [|a a1 IH]; intros [|b a2] Hlen; simplify_eq/=;
    [reflexivity|].
  rewrite !filter_cons. simpl. case_decide; simpl; by rewrite (IH a2).
Qed.

Lemma count_char_zip_r (c : ascii) (a1 a2 : str) :
  length a1 = length a2 →
  Alignment.count_char c a2 =
    length (filter (λ ab : ascii * ascii, ab.2 = c) (zip a1 a2)).
Proof.
  unfold Alignment.count_char. revert a2.
  induction a1 as [|a a1 IH]; intros [|b a2] Hlen; simplify_eq/=;
    [reflexivity|].
  rewrite !filter_cons. simpl. case_decide; simpl; by rewrite (IH a2).
Qed.

Lemma column_counts (l : list (ascii * ascii)) :
  let matches :=
    length (filter (λ ab : ascii * ascii, ab.1 = ab.2 ∧ ab.1 ≠ "-"%char) l) in
  let mismatches :=
    length (filter (λ ab : ascii * ascii,
                      ab.1 ≠ ab.2 ∧ ab.1 ≠ "-"%char ∧ ab.2 ≠ "-"%char) l) in
  let gaps1 := length (filter (λ ab : ascii * ascii, ab.1 = "-"%char) l) in
  let gaps2 := length (filter (λ ab : ascii * ascii, ab.2 = "-"%char) l) in
  matches + mismatches ≤ length l ∧
  length l ≤ matches + mismatches + gaps1 + gaps2 ∧
  (Forall (λ ab : ascii * ascii, ¬ (ab.1 = "-"%char ∧ ab.2 = "-"%char)) l →
   matches + mismatches + gaps1 + gaps2 = length l).
Proof.
  induction l as [|[a b] l IH]; simpl.
  { split; [lia|]. split; [lia|]. reflexivity. }
  rewrite !filter_cons, Forall_cons. simpl.
  destruct IH as (IH1 & IH2 & IH3).
  destruct (decide (a = "-"%char)), (decide (b = "-"%char)),
    (decide (a = b));
    repeat case_decide; simpl; try (exfalso; tauto || congruence);
    (split; [lia|]); (split; [lia|]); intros [Hab Hl];
    specialize (IH3 Hl); try lia; exfalso; tauto.
Qed.

Lemma gap_openings_le (l : list (ascii * ascii)) (st : nat * bool * bool) :
  (foldl AlignmentOps.gap_openings_step st l).1.1 ≤
    st.1.1
    + length (filter (λ ab : ascii * ascii, ab.1 = "-"%char) l)
    + length (filter (λ ab : ascii * ascii, ab.2 = "-"%char) l).
Proof.
  revert st. induction l as [|[a b] l IH]; intros st; simpl; [lia|].
  etransitivity; [apply IH|]. rewrite !filter_cons. simpl.
  destruct st as [[openings g1] g2]. unfold AlignmentOps.gap_openings_step.
  repeat case_bool_decide; destruct g1, g2; simpl;
    repeat case_decide; simpl; try lia; congruence.
Qed.

(** X20: in an alignment that satisfies the class invariant, matches and
    mismatches together are at most the alignment length, which is at most
    matches plus mismatches plus all gap symbols, with equality when no
    column holds two gaps; the gap openings are at most the gap symbols; and
    the identity lies between 0 and 1. *)
Theorem alignment_counts (al : Alignment.t) :
  AlignmentOps.ok al →
  AlignmentOps.match_count al + AlignmentOps.mismatch_count al
    ≤ AlignmentOps.alignment_length al ∧
  AlignmentOps.alignment_length al
    ≤ AlignmentOps.match_count al + AlignmentOps.mismatch_count al
      + Alignment.total_gaps al ∧
  (no_double_gap (Alignment.aligned_seq1 al) (Alignment.aligned_seq2 al) →
   AlignmentOps.match_count al + AlignmentOps.mismatch_count al
   + Alignment.total_gaps al = AlignmentOps.alignment_length al) ∧
  AlignmentOps.gap_openings al ≤ Alignment.total_gaps al ∧
  (0 <= Alignment.identity al <= 1)%Q.
Proof.
  intros [Hlen Hid].
  pose proof (column_counts (zip (Alignment.aligned_seq1 al)
                               (Alignment.aligned_seq2 al)))
    as (Hle & Hge & Heq).
  cbv zeta in *.
  unfold AlignmentOps.match_count, AlignmentOps.mismatch_count,
    AlignmentOps.alignment_length, Alignment.total_gaps,
    Alignment.gaps_seq1, Alignment.gaps_seq2, AlignmentOps.gap_openings,
    no_double_gap.
  rewrite (count_char_zip_l _ _ _ Hlen), (count_char_zip_r _ _ _ Hlen).
  rewrite length_zip, <- Hlen, Nat.min_id in Hle, Hge, Heq.
  split; [exact Hle|]. split; [lia|]. split; [intros Hnd; specialize (Heq Hnd); lia|].
  split.
  - etransitivity; [apply gap_openings_le|]. simpl. lia.
  - rewrite Hid. unfold Alignment._calculate_identity.
    case_decide as H0; [done|]. apply ratio_range; [|lia].
    unfold Alignment.matches. lia.
Qed.

Lemma alignment_counts_witness :
  ∃ al, Alignment.new (lit "AT-CG") (lit "ATTCC") 5 GLOBAL = Ok al ∧
        AlignmentOps.match_count al + AlignmentOps.mismatch_count al
        + Alignment.total_gaps al = AlignmentOps.alignment_length al.
Proof.
  eexists. split; [reflexivity|].
  apply alignment_counts.
  - split; reflexivity.
  - unfold no_double_gap, lit. simpl.
    repeat constructor; simpl; intros [? ?]; discriminate.
Defined.

(** ** CIGAR strings *)

Lemma rle_snoc_same (runs : list (nat * ascii)) (c : nat) (op : ascii)
    (ops : str) :
  run_length_encodes (runs ++ [(c, op)]) ops →
  run_length_encodes (runs ++ [(c + 1, op)]) (ops ++ [op]).
Proof.
  intros (Hexp & Hpos & Hadj). split; [|split].
  - rewrite bind_app in *. simpl in *. rewrite app_nil_r in *.
    rewrite <- Hexp, <- app_assoc. f_equal.
    rewrite Nat.add_1_r. apply (replicate_S_end c op).
  - apply Forall_app in Hpos as [Hruns _]. apply Forall_app. split; [exact Hruns|].
    constructor; [simpl; lia | constructor].
  - rewrite fmap_app in *. exact Hadj.
Qed.

Lemma rle_snoc_new (runs : list (nat * ascii)) (c : nat) (op op' : ascii)
    (ops : str) :
  run_length_encodes (runs ++ [(c, op)]) ops → op ≠ op' →
  run_length_encodes ((runs ++ [(c, op)]) ++ [(1, op')]) (ops ++ [op']).
Proof.
  intros (Hexp & Hpos & Hadj) Hne. split; [|split].
  - rewrite bind_app, Hexp. reflexivity.
  - apply Forall_app. split; [exact Hpos|].
    constructor; [simpl; lia | constructor].
  - intros i x y Hx Hy. rewrite fmap_app in Hx, Hy.
    set (l := (runs ++ [(c, op)]).*2) in *.
    assert (Hlast : l !! length runs = Some op).
    { unfold l. rewrite fmap_app. rewrite lookup_app_r by (by rewrite length_fmap).
      by rewrite length_fmap, Nat.sub_diag. }
    assert (Hl : length l = S (length runs)).
    { unfold l. rewrite length_fmap, length_app. simpl. lia. }
    apply lookup_app_Some in Hy as [Hy|[Hge Hy]].
    + apply lookup_app_Some in Hx as [Hx|[Hge' _]].
      * by apply (Hadj i).
      * apply lookup_lt_Some in Hy. lia.
    + apply list_lookup_singleton_Some in Hy as [Hi <-].
      apply lookup_app_Some in Hx as [Hx|[Hge' _]]; [|lia].
      replace i with (length runs) in Hx by lia. simpl. congruence.
Qed.

Lemma render_runs_snoc (runs : list (nat * ascii)) (c : nat) (op : ascii) :
  render_runs (runs ++ [(c, op)]) = render_runs runs ++ decimal c ++ [op].
Proof.
  unfold render_runs. rewrite bind_app. simpl. by rewrite app_nil_r.
Qed.

(** The loop of [to_cigar] after the columns [l]. *)
Lemma to_cigar_loop (l : list (ascii * ascii)) :
  ∃ cigar current_op count,
    foldl AlignmentOps.to_cigar_step ([], [], 0) l
      = (cigar, current_op, count) ∧
    ((l = [] ∧ count = 0 ∧ current_op = [] ∧ cigar = []) ∨
     ∃ runs op, 0 < count ∧ current_op = [op] ∧ cigar = render_runs runs ∧
                run_length_encodes (runs ++ [(count, op)])
                  ((λ ab, AlignmentOps.cigar_op ab.1 ab.2) <$> l)).
Proof.
  induction l as [|ab l IH] using rev_ind.
  { exists [], [], 0. split; [reflexivity|]. by left. }
  destruct IH as (cigar & cur & count & Hrun & IH).
  rewrite foldl_app, Hrun. simpl. rewrite fmap_app. simpl.
  set (op' := AlignmentOps.cigar_op ab.1 ab.2).
  destruct IH as [(-> & -> & -> & ->) | (runs & op & Hpos & -> & -> & Hrle)].
  - exists [], [op'], 1. split.
    + case_decide; [discriminate|]. case_decide; [lia | reflexivity].
    + right. exists [], op'. split; [lia|]. split; [reflexivity|].
      split; [reflexivity|]. simpl. split; [reflexivity|].
      split; [constructor; [simpl; lia | constructor]|].
      intros [|i] x y Hx Hy; discriminate.
  - case_decide as Hop.
    + injection Hop as Hop. eexists _, _, _. split; [reflexivity|].
      right. exists runs, op. split; [lia|]. split; [reflexivity|].
      split; [reflexivity|]. rewrite Hop. by apply rle_snoc_same.
    + case_decide; [|lia]. eexists _, _, _. split; [reflexivity|].
      right. exists (runs ++ [(count, op)]), op'. split; [lia|].
      split; [reflexivity|]. split; [by rewrite render_runs_snoc|].
      apply rle_snoc_new; [exact Hrle|]. congruence.
Qed.

Lemma length_expand_runs (runs : list (nat * ascii)) :
  length (runs ≫= λ run, replicate run.1 run.2) = sum_list runs.*1.
Proof.
  induction runs as [|[c op] runs IH]; [reflexivity|].
  change (length (replicate c op ++ (runs ≫= λ run, replicate run.1 run.2))
            = c + sum_list runs.*1).
  rewrite length_app, length_replicate, IH. reflexivity.
Qed.

(** X21: [to_cigar] returns the rendering, run by run as decimal count
    followed by the operation letter, of a run-length encoding of the
    column operations (I when the first row holds a gap, else D when the
    second does, else M for equal symbols, else X): the runs expanded give
    the operations column by column, no run is empty, and neighbouring runs
    differ; so in an alignment that satisfies the class invariant the counts
    add up to the alignment length. *)
Theorem to_cigar_run_length (al : Alignment.t) :
  ∃ runs,
    AlignmentOps.to_cigar al = render_runs runs ∧
    run_length_encodes runs
      ((λ ab, AlignmentOps.cigar_op ab.1 ab.2)
         <$> zip (Alignment.aligned_seq1 al) (Alignment.aligned_seq2 al)) ∧
    (AlignmentOps.ok al →
     sum_list runs.*1 = AlignmentOps.alignment_length al).
Proof.
  assert (Hsum : ∀ runs,
            run_length_encodes runs
              ((λ ab, AlignmentOps.cigar_op ab.1 ab.2)
                 <$> zip (Alignment.aligned_seq1 al)
                       (Alignment.aligned_seq2 al)) →
            AlignmentOps.ok al →
            sum_list runs.*1 = AlignmentOps.alignment_length al).
  { intros runs (Hexp & _) [Hlen _]. rewrite <- length_expand_runs, Hexp.
    rewrite length_fmap, length_zip, <- Hlen, Nat.min_id. reflexivity. }
  unfold AlignmentOps.to_cigar. case_decide as H0.
  { exists []. destruct (Alignment.aligned_seq1 al) eqn:Ha1; [|discriminate].
    assert (Hrle : run_length_encodes []
              ((λ ab, AlignmentOps.cigar_op ab.1 ab.2)
                 <$> zip [] (Alignment.aligned_seq2 al))).
    { simpl. split; [reflexivity|]. split; [constructor|].
      intros i x y Hx. discriminate. }
    split; [reflexivity|]. split; [exact Hrle|].
    rewrite <- Ha1 in Hrle. by apply Hsum. }
  destruct (to_cigar_loop (zip (Alignment.aligned_seq1 al)
                             (Alignment.aligned_seq2 al)))
    as (cigar & cur & count & Hrun & Hinv).
  rewrite Hrun.
  destruct Hinv as [(Hnil & -> & -> & ->) | (runs & op & Hpos & -> & -> & Hrle)].
  - exists []. case_decide; [lia|].
    assert (Hrle : run_length_encodes []
              ((λ ab, AlignmentOps.cigar_op ab.1 ab.2)
                 <$> zip (Alignment.aligned_seq1 al)
                       (Alignment.aligned_seq2 al))).
    { rewrite Hnil. simpl. split; [reflexivity|]. split; [constructor|].
      intros i x y Hx. discriminate. }
    split; [reflexivity|]. split; [exact Hrle | by apply Hsum].
  - exists (runs ++ [(count, op)]). case_decide; [|lia].
    split; [by rewrite render_runs_snoc|]. split; [exact Hrle | by apply Hsum].
Qed.

Lemma to_cigar_run_length_witness :
  ∃ al runs,
    Alignment.new (lit "ATCG-AT") (lit "ATGGGA-") 3 GLOBAL = Ok al ∧
    AlignmentOps.to_cigar al = render_runs runs ∧
    sum_list runs.*1 = 7.
Proof.
  eexists.
  destruct (to_cigar_run_length
              (Alignment.mk (lit "ATCG-AT") (lit "ATGGGA-") 3 0 7 0 7 GLOBAL
                 (Alignment._calculate_identity (lit "ATCG-AT")
                    (lit "ATGGGA-"))))
    as (runs & Hcigar & _ & Hsum).
  exists runs. split; [reflexivity|]. split; [exact Hcigar|].
  apply Hsum. split; reflexivity.
Defined.

(** ** The traceback of [smith_waterman] *)

Lemma ok_no_gap (s : Sequence.t) :
  Sequence.ok s → "-"%char ∉ Sequence.bases s.
Proof.
  intros Hok Hin. pose proof (ok_bases_Forall s Hok) as Hall.
  rewrite Forall_forall in Hall. specialize (Hall _ Hin). revert Hall.
  unfold Sequence.valid_bases, VALID_DNA_BASES, VALID_RNA_BASES.
  case_decide; set_unfold; intros Hc; destruct_or!; discriminate.
Qed.

Lemma lookup_no_gap (s : str) (i : nat) (c : ascii) :
  "-"%char ∉ s → s !! i = Some c → c ≠ "-"%char.
Proof. intros Hs Hc ->. apply Hs. by eapply list_elem_of_lookup_2. Qed.

Lemma degap_snoc (p : str) (c : ascii) :
  c ≠ "-"%char → degap (p ++ [c]) = degap p ++ [c].
Proof.
  intros Hc. rewrite degap_app. f_equal. unfold degap.
  rewrite filter_cons_True by exact Hc. reflexivity.
Qed.

Lemma take_drop_snoc {A} (s : list A) (a b : nat) (c : A) :
  a ≤ b → s !! b = Some c →
  take (S b - a) (drop a s) = take (b - a) (drop a s) ++ [c].
Proof.
  intros Hab Hc. replace (S b - a) with (S (b - a)) by lia.
  apply take_S_r. rewrite lookup_drop. by replace (a + (b - a)) with b by lia.
Qed.

Lemma columns_score_snoc (scoring : ScoringMatrix.t) (p1 p2 : str)
    (c1 c2 : ascii) :
  length p1 = length p2 →
  columns_score scoring (p1 ++ [c1]) (p2 ++ [c2])
    = (columns_score scoring p1 p2 + column_score scoring c1 c2)%Z.
Proof.
  intros Hlen. unfold columns_score.
  rewrite zip_with_app by exact Hlen. rewrite foldr_app. simpl.
  generalize (zip p1 p2). intros l.
  induction l as [|ab l IH]; simpl; [lia|]. rewrite IH. lia.
Qed.

Lemma no_double_gap_snoc (p1 p2 : str) (c1 c2 : ascii) :
  length p1 = length p2 → no_double_gap p1 p2 →
  ¬ (c1 = "-"%char ∧ c2 = "-"%char) →
  no_double_gap (p1 ++ [c1]) (p2 ++ [c2]).
Proof.
  intros Hlen Hp Hc. unfold no_double_gap.
  rewrite zip_with_app by exact Hlen. apply Forall_app. split; [exact Hp|].
  by constructor.
Qed.

Lemma column_score_bases (scoring : ScoringMatrix.t) (c1 c2 : ascii) :
  c1 ≠ "-"%char → c2 ≠ "-"%char →
  column_score scoring c1 c2 = ScoringMatrix.score scoring c1 c2.
Proof. intros H1 H2. unfold column_score. case_decide; [tauto | reflexivity]. Qed.

Lemma column_score_gap_r (scoring : ScoringMatrix.t) (c : ascii) :
  column_score scoring c "-" = ScoringMatrix.gap_penalty scoring.
Proof. unfold column_score. case_decide; [reflexivity | tauto]. Qed.

Lemma column_score_gap_l (scoring : ScoringMatrix.t) (c : ascii) :
  column_score scoring "-" c = ScoringMatrix.gap_penalty scoring.
Proof. unfold column_score. case_decide; [reflexivity | tauto]. Qed.

Section LocalTraceback.

Variables (s1 s2 : str) (scoring : ScoringMatrix.t).
Variable traceback : list (list AlignDirection).

Local Abbreviation m := (length s1).
Local Abbreviation n := (length s2).
Local Abbreviation gap := (ScoringMatrix.gap_penalty scoring).
Local Abbreviation Hr := (H_rec s1 s2 scoring).
Local Abbreviation Dr := (dir_rec s1 s2 scoring).

Hypothesis traceback_filled :
  ∀ a b, a ≤ m → b ≤ n → get2 traceback a b = Ok (Dr a b).
Hypothesis no_gap1 : "-"%char ∉ s1.
Hypothesis no_gap2 : "-"%char ∉ s2.

Lemma rec_cell (i j : nat) :
  0 < i → 0 < j →
  sw_choose (Hr (i - 1) (j - 1) + cell_score s1 s2 scoring i j)
    (Hr (i - 1) j + gap) (Hr i (j - 1) + gap) = (Hr i j, Dr i j).
Proof.
  intros Hi Hj. destruct i as [|i]; [lia|]. destruct j as [|j]; [lia|].
  replace (S i - 1) with i by lia. replace (S j - 1) with j by lia.
  rewrite H_rec_S. unfold dir_rec. by destruct (sw_choose _ _ _).
Qed.

(** The loop of [_traceback_local] from cell [(i, j)]: the columns it puts
    in front of the two rows spell the bases between the cell where it stops
    and [(i, j)], their scores add up to the value of the cell, and the cell
    where it stops has the value 0. *)
Lemma traceback_local_loop_path (fuel i j : nat) (aligned1 aligned2 : str) :
  i ≤ m → j ≤ n → i + j ≤ fuel →
  ∃ p1 p2 i' j',
    _traceback_local_loop fuel s1 s2 traceback i j aligned1 aligned2
      = Ok (p1 ++ aligned1, p2 ++ aligned2, i', j') ∧
    length p1 = length p2 ∧ i' ≤ i ∧ j' ≤ j ∧
    degap p1 = take (i - i') (drop i' s1) ∧
    degap p2 = take (j - j') (drop j' s2) ∧
    Hr i j = columns_score scoring p1 p2 ∧
    Hr i' j' = 0%Z ∧
    no_double_gap p1 p2.
Proof.
  revert i j aligned1 aligned2.
  induction fuel as [|fuel IH]; intros i j a1 a2 Hi Hj Hfuel.
  { simpl. case_decide; [lia|]. exists [], [], i, j.
    assert (Hb : Hr i j = 0%Z) by (apply H_rec_border; lia).
    rewrite !Nat.sub_diag. repeat split; try done; by constructor. }
  simpl. case_decide as Hpos.
  2: { exists [], [], i, j.
       assert (Hb : Hr i j = 0%Z) by (apply H_rec_border; lia).
       rewrite !Nat.sub_diag. repeat split; try done; by constructor. }
  destruct Hpos as [Hi0 Hj0].
  rewrite (traceback_filled i j Hi Hj). simpl.
  destruct (get_lt s1 (i - 1)) as (c1 & Hg1 & Hl1); [lia|].
  destruct (get_lt s2 (j - 1)) as (c2 & Hg2 & Hl2); [lia|].
  pose proof (lookup_no_gap _ _ _ no_gap1 Hl1) as Hc1.
  pose proof (lookup_no_gap _ _ _ no_gap2 Hl2) as Hc2.
  pose proof (rec_cell i j Hi0 Hj0) as Hcell.
  pose proof (sw_choose_cases
                (Hr (i - 1) (j - 1) + cell_score s1 s2 scoring i j)
                (Hr (i - 1) j + gap) (Hr i (j - 1) + gap)) as Hcases.
  rewrite Hcell in Hcases.
  destruct Hcases as (Hbest & Hdiag & Hup & Hleft & Hstop).
  rewrite (cell_score_get s1 s2 scoring i j c1 c2 Hl1 Hl2) in Hbest, Hdiag,
    Hup, Hleft.
  unfold max4 in Hbest.
  destruct (Dr i j) eqn:Hdir.
  - (* DIAGONAL *)
    rewrite Hg1, Hg2. simpl.
    destruct (IH (i - 1) (j - 1) (c1 :: a1) (c2 :: a2))
      as (p1 & p2 & i' & j' & Hrun & Hlen & Hi' & Hj' & Hd1 & Hd2 & Hsc
          & Hzero & Hndg); [lia | lia | lia |].
    exists (p1 ++ [c1]), (p2 ++ [c2]), i', j'.
    rewrite <- !app_assoc. simpl. split; [exact Hrun|].
    split; [rewrite !length_app; simpl; lia|].
    split; [lia|]. split; [lia|].
    split.
    { rewrite degap_snoc, Hd1 by exact Hc1.
      replace i with (S (i - 1)) at 2 by lia.
      by rewrite (take_drop_snoc s1 i' (i - 1) c1) by (lia || exact Hl1). }
    split.
    { rewrite degap_snoc, Hd2 by exact Hc2.
      replace j with (S (j - 1)) at 2 by lia.
      by rewrite (take_drop_snoc s2 j' (j - 1) c2) by (lia || exact Hl2). }
    split.
    { rewrite columns_score_snoc, column_score_bases by done.
      destruct Hdiag as [Hdiag _]. specialize (Hdiag eq_refl). lia. }
    split; [exact Hzero|].
    apply no_double_gap_snoc; [exact Hlen | exact Hndg | tauto].
  - (* UP *)
    rewrite Hg1. simpl.
    destruct (IH (i - 1) j (c1 :: a1) ("-"%char :: a2))
      as (p1 & p2 & i' & j' & Hrun & Hlen & Hi' & Hj' & Hd1 & Hd2 & Hsc
          & Hzero & Hndg); [lia | lia | lia |].
    exists (p1 ++ [c1]), (p2 ++ ["-"%char]), i', j'.
    rewrite <- !app_assoc. simpl. split; [exact Hrun|].
    split; [rewrite !length_app; simpl; lia|].
    split; [lia|]. split; [lia|].
    split.
    { rewrite degap_snoc, Hd1 by exact Hc1.
      replace i with (S (i - 1)) at 2 by lia.
      by rewrite (take_drop_snoc s1 i' (i - 1) c1) by (lia || exact Hl1). }
    split; [by rewrite degap_gap|].
    split.
    { rewrite columns_score_snoc, column_score_gap_r by done.
      destruct Hup as [Hup _]. specialize (Hup eq_refl). lia. }
    split; [exact Hzero|].
    apply no_double_gap_snoc; [exact Hlen | exact Hndg | tauto].
  - (* LEFT *)
    rewrite Hg2. simpl.
    destruct (IH i (j - 1) ("-"%char :: a1) (c2 :: a2))
      as (p1 & p2 & i' & j' & Hrun & Hlen & Hi' & Hj' & Hd1 & Hd2 & Hsc
          & Hzero & Hndg); [lia | lia | lia |].
    exists (p1 ++ ["-"%char]), (p2 ++ [c2]), i', j'.
    rewrite <- !app_assoc. simpl. split; [exact Hrun|].
    split; [rewrite !length_app; simpl; lia|].
    split; [lia|]. split; [lia|].
    split; [by rewrite degap_gap|].
    split.
    { rewrite degap_snoc, Hd2 by exact Hc2.
      replace j with (S (j - 1)) at 2 by lia.
      by rewrite (take_drop_snoc s2 j' (j - 1) c2) by (lia || exact Hl2). }
    split.
    { rewrite columns_score_snoc, column_score_gap_l by done.
      destruct Hleft as [Hleft _]. specialize (Hleft eq_refl). lia. }
    split; [exact Hzero|].
    apply no_double_gap_snoc; [exact Hlen | exact Hndg | tauto].
  - (* STOP *)
    exists [], [], i, j. destruct Hstop as [Hstop _].
    rewrite !Nat.sub_diag. repeat split; try done; try by constructor.
    + rewrite (Hstop eq_refl). reflexivity.
    + exact (Hstop eq_refl).
Qed.

End LocalTraceback.

(** The running maximum is the value of the cell at which it was recorded. *)
Lemma track_all_cell (s1 s2 : str) (scoring : ScoringMatrix.t) (m n : nat) :
  let t := track_all s1 s2 scoring m n in
  t.1.1 = H_rec s1 s2 scoring t.1.2 t.2 ∧ t.1.2 ≤ m ∧ t.2 ≤ n.
Proof.
  set (P := λ acc : Z * nat * nat,
         acc.1.1 = H_rec s1 s2 scoring acc.1.2 acc.2 ∧ acc.1.2 ≤ m ∧ acc.2 ≤ n).
  assert (Hrow : ∀ i l acc, i ≤ m → Forall (λ j, j ≤ n) l → P acc →
            P (foldl (track s1 s2 scoring i) acc l)).
  { intros i l. induction l as [|j l IH]; intros acc Hi Hl Hacc; [exact Hacc|].
    apply Forall_cons in Hl as [Hj Hl]. simpl. apply IH; [exact Hi | exact Hl |].
    unfold track. case_decide; [|exact Hacc]. by repeat split. }
  assert (Hall : ∀ l acc, Forall (λ i, i ≤ m) l → P acc →
            P (foldl (track_row s1 s2 scoring n) acc l)).
  { induction l as [|i l IH]; intros acc Hl Hacc; [exact Hacc|].
    apply Forall_cons in Hl as [Hi Hl]. simpl. apply IH; [exact Hl|].
    apply Hrow; [exact Hi | | exact Hacc].
    apply Forall_forall. intros j Hj. unfold range in Hj.
    apply list_elem_of_In, in_seq in Hj. lia. }
  apply Hall.
  - apply Forall_forall. intros i Hi. unfold range in Hi.
    apply list_elem_of_In, in_seq in Hi. lia.
  - unfold P. simpl. repeat split; lia.
Qed.

(** [smith_waterman] on sequences without gap symbols, in terms of the
    recurrence. *)
Lemma smith_waterman_path (seq1 seq2 : Sequence.t)
    (scoring : option ScoringMatrix.t) (sc : ScoringMatrix.t) :
  scoring_or_default scoring = Ok sc →
  Sequence.ok seq1 → Sequence.ok seq2 →
  ∃ p1 p2 i' j',
    let t := track_all (Sequence.bases seq1) (Sequence.bases seq2) sc
               (Sequence.len seq1) (Sequence.len seq2) in
    smith_waterman seq1 seq2 scoring
      = Ok (Alignment.mk p1 p2 t.1.1 i' t.1.2 j' t.2 LOCAL
              (Alignment._calculate_identity p1 p2)) ∧
    length p1 = length p2 ∧ i' ≤ t.1.2 ∧ j' ≤ t.2 ∧
    t.1.2 ≤ Sequence.len seq1 ∧ t.2 ≤ Sequence.len seq2 ∧
    degap p1 = take (t.1.2 - i') (drop i' (Sequence.bases seq1)) ∧
    degap p2 = take (t.2 - j') (drop j' (Sequence.bases seq2)) ∧
    t.1.1 = columns_score sc p1 p2 ∧
    H_rec (Sequence.bases seq1) (Sequence.bases seq2) sc i' j' = 0%Z ∧
    no_double_gap p1 p2.
Proof.
  intros Hsc Hok1 Hok2.
  pose proof (ok_no_gap _ Hok1) as Hg1. pose proof (ok_no_gap _ Hok2) as Hg2.
  destruct Hok1 as [Hne1 _], Hok2 as [Hne2 _].
  unfold smith_waterman. rewrite Hsc. simpl.
  case_decide as Hempty.
  { unfold Sequence.len in Hempty.
    destruct Hempty as [H0|H0]; apply length_zero_iff_nil in H0; congruence. }
  destruct (sw_fill_spec (Sequence.bases seq1) (Sequence.bases seq2) sc)
    as (st & Hfill & _ & HdT & Hmi & Hmj & Hcells & Hmax).
  rewrite Hfill. simpl.
  destruct (traceback_local_loop_path (Sequence.bases seq1)
              (Sequence.bases seq2) sc (sw_traceback st)
              (λ a b Ha Hb, proj2 (Hcells a b Ha Hb)) Hg1 Hg2
              (sw_max_i st + sw_max_j st) (sw_max_i st) (sw_max_j st) [] [])
    as (p1 & p2 & i' & j' & Hrun & Hlen & Hi' & Hj' & Hd1 & Hd2 & Hscore
        & Hzero & Hndg); [lia | lia | lia |].
  unfold _traceback_local. rewrite Hrun, !app_nil_r. simpl.
  unfold Alignment.with_positions, Alignment.init.
  case_decide; [done|].
  pose proof (track_all_cell (Sequence.bases seq1) (Sequence.bases seq2) sc
                (Sequence.len seq1) (Sequence.len seq2)) as Hcell.
  unfold Sequence.len in *. rewrite <- Hmax in Hcell |- *.
  unfold sw_max in *. simpl in *. destruct Hcell as (Hval & _ & _).
  exists p1, p2, i', j'. split; [reflexivity|].
  repeat split; try done. by rewrite Hval.
Qed.

(** X22: on valid sequences [smith_waterman] returns a local alignment that
    satisfies the class invariant, with [start <= end <= len] on both sides;
    each row with its gap symbols removed is the slice [start:end] of its
    sequence; no column holds two gap symbols; and the score is the sum of
    the column scores of the two rows (the gap penalty for a column with a
    gap, the pair score otherwise), and is never negative. *)
Theorem smith_waterman_region (seq1 seq2 : Sequence.t)
    (scoring : option ScoringMatrix.t) (sc : ScoringMatrix.t) :
  scoring_or_default scoring = Ok sc →
  Sequence.ok seq1 → Sequence.ok seq2 →
  ∃ al,
    smith_waterman seq1 seq2 scoring = Ok al ∧
    AlignmentOps.ok al ∧
    Alignment.alignment_type al = LOCAL ∧
    Alignment.start1 al ≤ Alignment.end1 al ≤ Sequence.len seq1 ∧
    Alignment.start2 al ≤ Alignment.end2 al ≤ Sequence.len seq2 ∧
    degap (Alignment.aligned_seq1 al)
      = slice (Sequence.bases seq1) (Z.of_nat (Alignment.start1 al))
          (Z.of_nat (Alignment.end1 al)) ∧
    degap (Alignment.aligned_seq2 al)
      = slice (Sequence.bases seq2) (Z.of_nat (Alignment.start2 al))
          (Z.of_nat (Alignment.end2 al)) ∧
    no_double_gap (Alignment.aligned_seq1 al) (Alignment.aligned_seq2 al) ∧
    Alignment.score al
      = columns_score sc (Alignment.aligned_seq1 al)
          (Alignment.aligned_seq2 al) ∧
    (0 ≤ Alignment.score al)%Z.
Proof.
  intros Hsc Hok1 Hok2.
  destruct (smith_waterman_path seq1 seq2 scoring sc Hsc Hok1 Hok2)
    as (p1 & p2 & i' & j' & Hrun & Hlen & Hi' & Hj' & Hm & Hn & Hd1 & Hd2
        & Hscore & Hzero & Hndg).
  cbv zeta in *. eexists. split; [exact Hrun|]. simpl.
  unfold Sequence.len in *.
  split; [by split|]. split; [reflexivity|].
  split; [lia|]. split; [lia|].
  split; [rewrite slice_range, !Nat2Z.id by lia; exact Hd1|].
  split; [rewrite slice_range, !Nat2Z.id by lia; exact Hd2|].
  split; [exact Hndg|]. split; [exact Hscore|].
  pose proof (track_all_ge (Sequence.bases seq1) (Sequence.bases seq2) sc
                (length (Sequence.bases seq1)) (length (Sequence.bases seq2))
                1 1) as Hge.
  destruct Hok1 as [Hne1 _], Hok2 as [Hne2 _].
  destruct (Sequence.bases seq1) as [|b1 r1] eqn:E1; [done|].
  destruct (Sequence.bases seq2) as [|b2 r2] eqn:E2; [done|].
  specialize (Hge ltac:(simpl; lia) ltac:(simpl; lia)).
  etransitivity; [|exact Hge].
  rewrite H_rec_S, sw_choose_best. unfold max4. lia.
Qed.

Lemma smith_waterman_region_witness :
  ∃ al,
    smith_waterman (Sequence.mk (lit "GGATCGTT") None None DNA true)
      (Sequence.mk (lit "CATCGA") None None DNA true) None = Ok al ∧
    Alignment.score al
      = columns_score (ScoringMatrix.mk 2 (-1) (-2) (-1))
          (Alignment.aligned_seq1 al) (Alignment.aligned_seq2 al).
Proof.
  destruct (smith_waterman_region
              (Sequence.mk (lit "GGATCGTT") None None DNA true)
              (Sequence.mk (lit "CATCGA") None None DNA true) None
              (ScoringMatrix.mk 2 (-1) (-2) (-1)))
    as (al & Hal & _ & _ & _ & _ & _ & _ & _ & Hscore & _).
  - reflexivity.
  - split; [discriminate | reflexivity].
  - split; [discriminate | reflexivity].
  - exists al. split; [exact Hal | exact Hscore].
Defined.

(** ** Bounds on the score of a local alignment *)

Section LocalScore.

Variables (s1 s2 : str) (scoring : ScoringMatrix.t).

Local Abbreviation gap := (ScoringMatrix.gap_penalty scoring).
Local Abbreviation Hr := (H_rec s1 s2 scoring).
Local Abbreviation matchv := (ScoringMatrix.match_score scoring).

Lemma H_rec_nonneg (i j : nat) : (0 ≤ Hr i j)%Z.
Proof.
  destruct i as [|i]; [by rewrite H_rec_border by lia|].
  destruct j as [|j]; [by rewrite H_rec_border by lia|].
  rewrite H_rec_S, sw_choose_best. unfold max4. lia.
Qed.

Lemma H_rec_le_min (i j : nat) :
  ScoringSpec.valid scoring → (Hr i j ≤ matchv * Z.of_nat (i `min` j))%Z.
Proof.
  intros Hv. pose proof Hv as (Hm & _ & Hg & _).
  revert j. induction i as [|i IHi]; intros j.
  { rewrite H_rec_border by lia. simpl. lia. }
  induction j as [|j IHj].
  { rewrite H_rec_border by lia. rewrite Nat.min_0_r. lia. }
  rewrite H_rec_S, sw_choose_best. unfold max4, ScoringMatrix.gap_penalty.
  pose proof (cell_score_le s1 s2 scoring (S i) (S j) Hv).
  pose proof (IHi j). pose proof (IHi (S j)). nia.
Qed.

Lemma track_all_nonneg (m n : nat) :
  (0 ≤ (track_all s1 s2 scoring m n).1.1)%Z.
Proof.
  destruct (track_all_cell s1 s2 scoring m n) as (-> & _ & _).
  apply H_rec_nonneg.
Qed.

Lemma track_all_le_min (m n : nat) :
  ScoringSpec.valid scoring →
  ((track_all s1 s2 scoring m n).1.1 ≤ matchv * Z.of_nat (m `min` n))%Z.
Proof.
  intros Hv. pose proof Hv as (Hm & _).
  destruct (track_all_cell s1 s2 scoring m n) as (-> & Ha & Hb).
  etransitivity; [by apply H_rec_le_min|]. nia.
Qed.

(** Without a common symbol every cell of the recurrence is 0. *)
Lemma H_rec_disjoint (i j : nat) :
  ScoringSpec.valid scoring → (∀ c, c ∈ s1 → c ∉ s2) → Hr i j = 0%Z.
Proof.
  intros (Hm & Hmm & Hg & _) Hdisj.
  revert j. induction i as [|i IHi]; intros j; [by rewrite H_rec_border by lia|].
  induction j as [|j IHj]; [by rewrite H_rec_border by lia|].
  rewrite H_rec_S, sw_choose_best, IHi, IHi, IHj.
  unfold max4, ScoringMatrix.gap_penalty.
  assert (cell_score s1 s2 scoring (S i) (S j) ≤ 0)%Z; [|lia].
  unfold cell_score. replace (S i - 1) with i by lia.
  replace (S j - 1) with j by lia.
  destruct (s1 !! i) as [b1|] eqn:E1; [|lia].
  destruct (s2 !! j) as [b2|] eqn:E2; [|lia].
  unfold ScoringMatrix.score. case_decide as Heq; [|exact Hmm].
  exfalso. apply (Hdisj b1); [by eapply list_elem_of_lookup_2|].
  rewrite Heq. by eapply list_elem_of_lookup_2.
Qed.

(** A common symbol gives a cell worth at least one match. *)
Lemma H_rec_common (i j : nat) (c : ascii) :
  s1 !! i = Some c → s2 !! j = Some c → (matchv ≤ Hr (S i) (S j))%Z.
Proof.
  intros H1 H2. rewrite H_rec_S, sw_choose_best. unfold max4.
  pose proof (H_rec_nonneg i j).
  rewrite (cell_score_get s1 s2 scoring (S i) (S j) c c).
  - unfold ScoringMatrix.score. case_decide; [lia | done].
  - by replace (S i - 1) with i by lia.
  - by replace (S j - 1) with j by lia.
Qed.

End LocalScore.

(** X23: under a scoring matrix that passed its validation,
    [alignment_score_only] on non-empty sequences returns a score between 0
    and the match score times the shorter length, and the score is 0 exactly
    when the two sequences have no symbol in common. *)
Theorem alignment_score_only_bounds (seq1 seq2 : Sequence.t)
    (scoring : option ScoringMatrix.t) (sc : ScoringMatrix.t) :
  scoring_or_default scoring = Ok sc → ScoringSpec.valid sc →
  Sequence.len seq1 ≠ 0 → Sequence.len seq2 ≠ 0 →
  ∃ v,
    alignment_score_only seq1 seq2 scoring = Ok v ∧
    (0 ≤ v)%Z ∧
    (v ≤ ScoringMatrix.match_score sc
           * Z.of_nat (Sequence.len seq1 `min` Sequence.len seq2))%Z ∧
    (v = 0%Z ↔ ∀ c, c ∈ Sequence.bases seq1 → c ∉ Sequence.bases seq2).
Proof.
  intros Hsc Hv H1 H2. eexists.
  split; [by apply alignment_score_only_score|].
  split; [apply track_all_nonneg|]. split; [by apply track_all_le_min|].
  split.
  - intros Hzero c Hc1 Hc2.
    apply list_elem_of_lookup_1 in Hc1 as [i Hi], Hc2 as [j Hj].
    pose proof (H_rec_common _ _ sc i j c Hi Hj) as Hge.
    pose proof (track_all_ge (Sequence.bases seq1) (Sequence.bases seq2) sc
                  (Sequence.len seq1) (Sequence.len seq2) (S i) (S j)) as Hmax.
    apply lookup_lt_Some in Hi, Hj. unfold Sequence.len in Hmax.
    specialize (Hmax ltac:(lia) ltac:(lia)).
    destruct Hv as (Hm & _). unfold Sequence.len in Hzero. lia.
  - intros Hdisj.
    destruct (track_all_cell (Sequence.bases seq1) (Sequence.bases seq2) sc
                (Sequence.len seq1) (Sequence.len seq2)) as (-> & _ & _).
    by apply H_rec_disjoint.
Qed.

Lemma alignment_score_only_bounds_witness :
  ∃ v,
    alignment_score_only (Sequence.mk (lit "AACCA") None None DNA true)
      (Sequence.mk (lit "GGT") None None DNA true) None = Ok v ∧
    v = 0%Z.
Proof.
  destruct (alignment_score_only_bounds
              (Sequence.mk (lit "AACCA") None None DNA true)
              (Sequence.mk (lit "GGT") None None DNA true) None
              (ScoringMatrix.mk 2 (-1) (-2) (-1)))
    as (v & Hrun & _ & _ & Hzero).
  - reflexivity.
  - unfold ScoringSpec.valid. simpl. lia.
  - vm_compute. discriminate.
  - vm_compute. discriminate.
  - exists v. split; [exact Hrun|]. apply Hzero. simpl.
    intros c Hc1 Hc2. apply list_elem_of_In in Hc1, Hc2.
    simpl in Hc1, Hc2.
    destruct Hc1 as [<-|[<-|[<-|[<-|[<-|[]]]]]];
      destruct Hc2 as [?|[?|[?|[]]]]; discriminate.
Defined.

(** ** A sequence aligned with itself *)

Section SelfAlignment.

Variables (s : str) (scoring : ScoringMatrix.t).

Local Abbreviation gap := (ScoringMatrix.gap_penalty scoring).
Local Abbreviation Hr := (H_rec s s scoring).
Local Abbreviation Dr := (dir_rec s s scoring).
Local Abbreviation matchv := (ScoringMatrix.match_score scoring).

Hypothesis scoring_valid : ScoringSpec.valid scoring.

Lemma H_rec_self (i : nat) :
  i ≤ length s → Hr i i = (matchv * Z.of_nat i)%Z.
Proof.
  intros Hi. apply Z.le_antisymm.
  - by apply H_rec_le.
  - by apply H_rec_diagonal.
Qed.

Lemma dir_rec_self (i : nat) : 1 ≤ i ≤ length s → Dr i i = DIAGONAL.
Proof.
  intros Hi. pose proof scoring_valid as (Hm & _ & Hg & _).
  destruct (lookup_lt_is_Some_2 s (i - 1)) as [c Hc]; [lia|].
  pose proof (sw_choose_cases
                (Hr (i - 1) (i - 1) + cell_score s s scoring i i)
                (Hr (i - 1) i + gap) (Hr i (i - 1) + gap)) as Hcases.
  rewrite (rec_cell s s scoring i i) in Hcases by lia.
  destruct Hcases as (_ & Hdiag & _). apply Hdiag.
  rewrite (cell_score_get s s scoring i i c c Hc Hc).
  unfold ScoringMatrix.score. case_decide; [|done].
  rewrite H_rec_self by lia.
  pose proof (H_rec_le_min s s scoring (i - 1) i scoring_valid) as Hup.
  pose proof (H_rec_le_min s s scoring i (i - 1) scoring_valid) as Hleft.
  rewrite Nat.min_l in Hup by lia. rewrite Nat.min_r in Hleft by lia.
  unfold ScoringMatrix.gap_penalty. nia.
Qed.

(** The running maximum of a self-alignment sits in the last cell. *)
Lemma track_all_self :
  track_all s s scoring (length s) (length s)
    = ((matchv * Z.of_nat (length s))%Z, length s, length s) ∨ s = [].
Proof.
  destruct (decide (s = [])) as [|Hne]; [by right | left].
  pose proof scoring_valid as (Hm & _).
  destruct (track_all_cell s s scoring (length s) (length s))
    as (Hval & Ha & Hb).
  pose proof (track_all_le s s scoring (length s) (length s) scoring_valid)
    as Hle.
  assert (0 < length s) as Hlen by (destruct s; [done | simpl; lia]).
  pose proof (track_all_ge s s scoring (length s) (length s) (length s)
                (length s) ltac:(lia) ltac:(lia)) as Hge.
  rewrite H_rec_self in Hge by lia.
  destruct (track_all s s scoring (length s) (length s)) as [[v a] b].
  simpl in *.
  pose proof (H_rec_le_min s s scoring a b scoring_valid) as Hmin.
  assert (a = length s ∧ b = length s) as [-> ->] by nia.
  assert (v = matchv * Z.of_nat (length s))%Z as -> by lia. reflexivity.
Qed.

Variable traceback : list (list AlignDirection).

Hypothesis traceback_filled :
  ∀ a b, a ≤ length s → b ≤ length s → get2 traceback a b = Ok (Dr a b).

(** From a cell of the main diagonal the loop of [_traceback_local] walks
    back along the diagonal to the corner. *)
Lemma traceback_local_loop_self (fuel i : nat) (aligned1 aligned2 : str) :
  i ≤ length s → i + i ≤ fuel →
  _traceback_local_loop fuel s s traceback i i aligned1 aligned2
    = Ok (take i s ++ aligned1, take i s ++ aligned2, 0, 0).
Proof.
  revert i aligned1 aligned2.
  induction fuel as [|fuel IH]; intros i a1 a2 Hi Hfuel.
  { assert (i = 0) as -> by lia. reflexivity. }
  simpl. case_decide as Hpos.
  2: { assert (i = 0) as -> by lia. reflexivity. }
  rewrite (traceback_filled i i Hi Hi), dir_rec_self by lia. simpl.
  destruct (get_lt s (i - 1)) as (c & Hg & Hl); [lia|].
  rewrite Hg. simpl. rewrite IH by lia.
  replace i with (S (i - 1)) at 3 4 by lia.
  rewrite (take_S_r s (i - 1) c Hl), <- !app_assoc. reflexivity.
Qed.

End SelfAlignment.

Lemma matches_self (s : str) :
  "-"%char ∉ s → Alignment.matches s s = length s.
Proof.
  intros Hs. unfold Alignment.matches.
  induction s as [|c s IH]; [reflexivity|].
  apply not_elem_of_cons in Hs as [Hc Hs]. simpl.
  rewrite filter_cons_True by (simpl; split; [reflexivity | congruence]).
  simpl. f_equal. by apply IH.
Qed.

(** X24: under a scoring matrix that passed its validation,
    [smith_waterman] of a valid sequence with itself returns the alignment
    of the whole sequence with itself: both rows are the bases, it spans
    [0:len] on both sides, its score is the match score times the length,
    and its identity is 1. *)
Theorem smith_waterman_self (seq : Sequence.t)
    (scoring : option ScoringMatrix.t) (sc : ScoringMatrix.t) :
  scoring_or_default scoring = Ok sc → ScoringSpec.valid sc →
  Sequence.ok seq →
  ∃ al,
    smith_waterman seq seq scoring = Ok al ∧
    Alignment.aligned_seq1 al = Sequence.bases seq ∧
    Alignment.aligned_seq2 al = Sequence.bases seq ∧
    Alignment.score al
      = (ScoringMatrix.match_score sc * Z.of_nat (Sequence.len seq))%Z ∧
    Alignment.start1 al = 0 ∧ Alignment.end1 al = Sequence.len seq ∧
    Alignment.start2 al = 0 ∧ Alignment.end2 al = Sequence.len seq ∧
    (Alignment.identity al == 1)%Q.
Proof.
  intros Hsc Hv Hok. pose proof (ok_no_gap _ Hok) as Hgap.
  destruct Hok as [Hne _].
  unfold smith_waterman. rewrite Hsc. simpl.
  case_decide as Hempty.
  { unfold Sequence.len in Hempty.
    destruct Hempty as [H0|H0]; apply length_zero_iff_nil in H0; congruence. }
  destruct (sw_fill_spec (Sequence.bases seq) (Sequence.bases seq) sc)
    as (st & Hfill & _ & HdT & Hmi & Hmj & Hcells & Hmax).
  rewrite Hfill. simpl.
  destruct (track_all_self (Sequence.bases seq) sc Hv) as [Htrack|]; [|done].
  rewrite Htrack in Hmax. unfold sw_max in Hmax.
  injection Hmax as Hscore Hi Hj. rewrite Hscore, Hi, Hj.
  unfold _traceback_local.
  rewrite (traceback_local_loop_self (Sequence.bases seq) sc Hv
             (sw_traceback st) (λ a b Ha Hb, proj2 (Hcells a b Ha Hb)))
    by lia.
  rewrite !app_nil_r, firstn_all. simpl.
  unfold Alignment.with_positions, Alignment.init.
  case_decide; [done|]. eexists. split; [reflexivity|]. simpl.
  repeat split; try reflexivity.
  unfold Alignment._calculate_identity.
  case_decide as Hlen; [apply length_zero_iff_nil in Hlen; congruence|].
  rewrite matches_self by exact Hgap.
  apply Qmult_inv_r. intros Heq. apply Hlen.
  unfold Qeq in Heq. simpl in Heq. lia.
Qed.

Lemma smith_waterman_self_witness :
  ∃ al,
    smith_waterman (Sequence.mk (lit "GATTACA") None None DNA true)
      (Sequence.mk (lit "GATTACA") None None DNA true) None = Ok al ∧
    Alignment.aligned_seq1 al = lit "GATTACA" ∧
    Alignment.score al = 14%Z.
Proof.
  destruct (smith_waterman_self
              (Sequence.mk (lit "GATTACA") None None DNA true) None
              (ScoringMatrix.mk 2 (-1) (-2) (-1)))
    as (al & Hal & Ha1 & _ & Hscore & _).
  - reflexivity.
  - unfold ScoringSpec.valid. simpl. lia.
  - split; [discriminate | reflexivity].
  - exists al. split; [exact Hal|]. split; [exact Ha1 | exact Hscore].
Defined.

(** ** The fill of [needleman_wunsch] computes the global recurrence *)

Lemma fill_column_spec {A} (M : list (list A)) (r c a : nat) (v : nat → A) :
  dims M r c → 0 < c → a ≤ r →
  ∃ M', foldM (λ M i, set2 M i 0 (v i)) (range a r) M = Ok M' ∧
        dims M' r c ∧
        ∀ x y, get2 M' x y =
                 if decide (a ≤ x < r ∧ y = 0) then Ok (v x) else get2 M x y.
Proof.
  intros Hd Hc Ha.
  destruct (foldM_range_inv (λ M i, set2 M i 0 (v i))
              (λ k M', dims M' r c ∧
                 ∀ x y, get2 M' x y =
                   if decide (a ≤ x < k ∧ y = 0) then Ok (v x)
                   else get2 M x y) a r M)
    as (M' & Hrun & Hd' & Hget).
  - exact Ha.
  - split; [exact Hd|]. intros x y. case_decide; [lia | reflexivity].
  - intros k M1 Hk [Hd1 Hget1].
    destruct (set2_spec M1 r c k 0 (v k) Hd1) as (M2 & Hset & Hd2 & Hnew & Hold);
      [lia | lia |].
    exists M2. split; [exact Hset|]. split; [exact Hd2|]. intros x y.
    destruct (decide (x = k ∧ y = 0)) as [[-> ->]|Hne].
    + rewrite Hnew. case_decide; [reflexivity | lia].
    + rewrite Hold, Hget1 by exact Hne. repeat case_decide; (reflexivity || lia).
  - exists M'. split; [exact Hrun|]. split; [exact Hd' | exact Hget].
Qed.

Lemma fill_row_spec {A} (M : list (list A)) (r c a : nat) (v : nat → A) :
  dims M r c → 0 < r → a ≤ c →
  ∃ M', foldM (λ M j, set2 M 0 j (v j)) (range a c) M = Ok M' ∧
        dims M' r c ∧
        ∀ x y, get2 M' x y =
                 if decide (x = 0 ∧ a ≤ y < c) then Ok (v y) else get2 M x y.
Proof.
  intros Hd Hr Ha.
  destruct (foldM_range_inv (λ M j, set2 M 0 j (v j))
              (λ k M', dims M' r c ∧
                 ∀ x y, get2 M' x y =
                   if decide (x = 0 ∧ a ≤ y < k) then Ok (v y)
                   else get2 M x y) a c M)
    as (M' & Hrun & Hd' & Hget).
  - exact Ha.
  - split; [exact Hd|]. intros x y. case_decide; [lia | reflexivity].
  - intros k M1 Hk [Hd1 Hget1].
    destruct (set2_spec M1 r c 0 k (v k) Hd1) as (M2 & Hset & Hd2 & Hnew & Hold);
      [lia | lia |].
    exists M2. split; [exact Hset|]. split; [exact Hd2|]. intros x y.
    destruct (decide (x = 0 ∧ y = k)) as [[-> ->]|Hne].
    + rewrite Hnew. case_decide; [reflexivity | lia].
    + rewrite Hold, Hget1 by exact Hne. repeat case_decide; (reflexivity || lia).
  - exists M'. split; [exact Hrun|]. split; [exact Hd' | exact Hget].
Qed.

Lemma nw_choose_cases (diag up left : Z) :
  let '(best, direction) := nw_choose diag up left in
  best = Z.max (Z.max diag up) left ∧
  (direction = DIAGONAL ∧ best = diag ∨
   direction = UP ∧ best = up ∨
   direction = LEFT ∧ best = left).
Proof.
  unfold nw_choose. repeat case_decide; (split; [lia|]); tauto.
Qed.

Section GlobalValues.

Variables (s1 s2 : str) (scoring : ScoringMatrix.t).

Local Abbreviation m := (length s1).
Local Abbreviation n := (length s2).
Local Abbreviation gap := (ScoringMatrix.gap_penalty scoring).
Local Abbreviation Nr := (N_rec s1 s2 scoring).
Local Abbreviation Nd := (ndir_rec s1 s2 scoring).

Lemma N_rec_S (i j : nat) :
  Nr (S i) (S j) =
    (nw_choose (Nr i j + cell_score s1 s2 scoring (S i) (S j))
       (Nr i (S j) + gap) (Nr (S i) j + gap)).1.
Proof. reflexivity. Qed.

Lemma N_rec_row (j : nat) : Nr 0 j = (Z.of_nat j * gap)%Z.
Proof. reflexivity. Qed.

Lemma N_rec_column (i : nat) : Nr i 0 = (Z.of_nat i * gap)%Z.
Proof. destruct i; [simpl; lia | reflexivity]. Qed.

Lemma nrec_cell (i j : nat) :
  0 < i → 0 < j →
  nw_choose (Nr (i - 1) (j - 1) + cell_score s1 s2 scoring i j)
    (Nr (i - 1) j + gap) (Nr i (j - 1) + gap) = (Nr i j, Nd i j).
Proof.
  intros Hi Hj. destruct i as [|i]; [lia|]. destruct j as [|j]; [lia|].
  replace (S i - 1) with i by lia. replace (S j - 1) with j by lia.
  rewrite N_rec_S. unfold ndir_rec. by destruct (nw_choose _ _ _).
Qed.

Lemma nw_cell_values (i j : nat)
    (st : list (list Z) * list (list AlignDirection)) :
  1 ≤ i ≤ m → 1 ≤ j ≤ n → nw_rec_inv s1 s2 scoring i j st →
  ∃ st', nw_cell s1 s2 scoring i st j = Ok st' ∧
         nw_rec_inv s1 s2 scoring i (S j) st'.
Proof.
  intros Hi Hj (HdH & HdT & Hcells). destruct st as [H T]. simpl in *.
  destruct (get_lt s1 (i - 1)) as (base1 & Hg1 & Hl1); [lia|].
  destruct (get_lt s2 (j - 1)) as (base2 & Hg2 & Hl2); [lia|].
  destruct (Hcells (i - 1) (j - 1)) as [Hdiag _];
    [lia | lia | unfold filled; lia |].
  destruct (Hcells (i - 1) j) as [Hup _]; [lia | lia | unfold filled; lia |].
  destruct (Hcells i (j - 1)) as [Hleft _]; [lia | lia | unfold filled; lia |].
  rewrite Hg1, Hg2, Hdiag, Hup, Hleft. simpl.
  rewrite <- (cell_score_get s1 s2 scoring i j base1 base2 Hl1 Hl2).
  rewrite nrec_cell by lia.
  destruct (set2_spec H (m + 1) (n + 1) i j (Nr i j) HdH)
    as (H' & HsetH & HdH' & HgetH & HotherH); [lia | lia |].
  destruct (set2_spec T (m + 1) (n + 1) i j (Nd i j) HdT)
    as (T' & HsetT & HdT' & HgetT & HotherT); [lia | lia |].
  rewrite HsetH, HsetT. simpl. eexists. split; [reflexivity|].
  split; [exact HdH'|]. split; [exact HdT'|]. simpl.
  intros a b Ha Hb Hf. destruct (decide (a = i ∧ b = j)) as [[-> ->]|Hne].
  - by rewrite HgetH, HgetT.
  - rewrite HotherH, HotherT by exact Hne. apply Hcells; [lia | lia |].
    unfold filled in *. lia.
Qed.

(** [nw_fill] does not raise and leaves the recurrence in every cell. *)
Lemma nw_fill_values :
  ∃ H T, nw_fill s1 s2 scoring = Ok (H, T) ∧
         dims H (m + 1) (n + 1) ∧ dims T (m + 1) (n + 1) ∧
         ∀ a b, a ≤ m → b ≤ n →
           get2 H a b = Ok (Nr a b) ∧ get2 T a b = Ok (Nd a b).
Proof.
  unfold nw_fill.
  destruct (fill_column_spec (repeat_list (repeat_list 0%Z (n + 1)) (m + 1))
              (m + 1) (n + 1) 0 (λ i, (Z.of_nat i * gap)%Z))
    as (H1 & Hrun1 & Hd1 & Hget1); [apply dims_replicate | lia | lia |].
  rewrite Hrun1. simpl.
  destruct (fill_row_spec H1 (m + 1) (n + 1) 0
              (λ j, (Z.of_nat j * gap)%Z) Hd1)
    as (H2 & Hrun2 & Hd2 & Hget2); [lia | lia |].
  rewrite Hrun2. simpl.
  destruct (fill_column_spec (repeat_list (repeat_list STOP (n + 1)) (m + 1))
              (m + 1) (n + 1) 1 (λ _, UP))
    as (T1 & Hrun3 & Hd3 & Hget3); [apply dims_replicate | lia | lia |].
  rewrite Hrun3. simpl.
  destruct (fill_row_spec T1 (m + 1) (n + 1) 1 (λ _, LEFT) Hd3)
    as (T2 & Hrun4 & Hd4 & Hget4); [lia | lia |].
  rewrite Hrun4. simpl.
  destruct (foldM_range_inv
              (λ st i, foldM (nw_cell s1 s2 scoring i) (range 1 (n + 1)) st)
              (λ i st', nw_rec_inv s1 s2 scoring i 1 st') 1 (m + 1) (H2, T2))
    as ([H T] & Hrun & HdH & HdT & Hcells).
  - lia.
  - split; [exact Hd2|]. split; [exact Hd4|]. simpl.
    intros a b Ha Hb Hf.
    assert (Hborder : a = 0 ∨ b = 0) by (unfold filled in Hf; lia).
    rewrite Hget2, Hget4, Hget1, Hget3.
    destruct a as [|a], b as [|b]; try lia.
    + repeat case_decide; try lia. split; [|by rewrite get2_replicate by lia].
      reflexivity.
    + repeat case_decide; try lia. done.
    + repeat case_decide; try lia. done.
  - intros i st1 Hi Hinv1.
    destruct (foldM_range_inv (nw_cell s1 s2 scoring i)
                (λ j st', nw_rec_inv s1 s2 scoring i j st') 1 (n + 1) st1)
      as (st2 & Hrow & HdH & HdT & Hcells).
    + lia.
    + exact Hinv1.
    + intros j st' Hj Hinv'. apply nw_cell_values; [lia | lia | exact Hinv'].
    + exists st2. split; [exact Hrow|]. split; [exact HdH|].
      split; [exact HdT|]. intros a b Ha Hb Hf. apply Hcells; [lia | lia |].
      unfold filled in *. lia.
  - exists H, T. split; [exact Hrun|]. split; [exact HdH|].
    split; [exact HdT|]. intros a b Ha Hb. apply Hcells; [lia | lia |].
    unfold filled. lia.
Qed.

End GlobalValues.

(** ** The traceback of [needleman_wunsch], with the score *)

Lemma gaps_le_length (a1 a2 : str) :
  length a1 = length a2 → no_double_gap a1 a2 →
  Alignment.count_char "-" a1 + Alignment.count_char "-" a2 ≤ length a1.
Proof.
  intros Hlen Hndg.
  rewrite (count_char_zip_l _ a1 a2 Hlen), (count_char_zip_r _ a1 a2 Hlen).
  destruct (column_counts (zip a1 a2)) as (_ & _ & Heq).
  specialize (Heq Hndg). rewrite length_zip, <- Hlen, Nat.min_id in Heq. lia.
Qed.

Section GlobalTraceback.

Variables (s1 s2 : str) (scoring : ScoringMatrix.t).
Variable traceback : list (list AlignDirection).

Local Abbreviation m := (length s1).
Local Abbreviation n := (length s2).
Local Abbreviation gap := (ScoringMatrix.gap_penalty scoring).
Local Abbreviation Nr := (N_rec s1 s2 scoring).
Local Abbreviation Nd := (ndir_rec s1 s2 scoring).

Hypothesis traceback_filled :
  ∀ a b, a ≤ m → b ≤ n → get2 traceback a b = Ok (Nd a b).
Hypothesis no_gap1 : "-"%char ∉ s1.
Hypothesis no_gap2 : "-"%char ∉ s2.

(** The loop of [_traceback_global] from cell [(i, j)]: the columns it puts
    in front of the two rows spell the first [i] and the first [j] bases,
    and their scores add up to the value of the cell. *)
Lemma traceback_global_loop_path (fuel i j : nat) (aligned1 aligned2 : str) :
  i ≤ m → j ≤ n → i + j ≤ fuel →
  ∃ p1 p2,
    _traceback_global_loop fuel s1 s2 traceback i j aligned1 aligned2
      = Ok (p1 ++ aligned1, p2 ++ aligned2) ∧
    length p1 = length p2 ∧
    degap p1 = take i s1 ∧ degap p2 = take j s2 ∧
    Nr i j = columns_score scoring p1 p2 ∧
    no_double_gap p1 p2.
Proof.
  revert i j aligned1 aligned2.
  induction fuel as [|fuel IH]; intros i j a1 a2 Hi Hj Hfuel.
  { assert (i = 0) as -> by lia. assert (j = 0) as -> by lia.
    exists [], []. repeat split; try done. by constructor. }
  simpl. case_decide as Hpos.
  2: { assert (i = 0) as -> by lia. assert (j = 0) as -> by lia.
       exists [], []. repeat split; try done. by constructor. }
  assert (Hup_step : 0 < i → ∀ c1, s1 !! (i - 1) = Some c1 →
            ∀ p1 p2,
              length p1 = length p2 →
              degap p1 = take (i - 1) s1 → degap p2 = take j s2 →
              no_double_gap p1 p2 →
              length (p1 ++ [c1]) = length (p2 ++ ["-"%char]) ∧
              degap (p1 ++ [c1]) = take i s1 ∧
              degap (p2 ++ ["-"%char]) = take j s2 ∧
              columns_score scoring (p1 ++ [c1]) (p2 ++ ["-"%char])
                = (columns_score scoring p1 p2 + gap)%Z ∧
              no_double_gap (p1 ++ [c1]) (p2 ++ ["-"%char])).
  { intros Hi0 c1 Hl1 p1 p2 Hlen Hd1 Hd2 Hndg.
    pose proof (lookup_no_gap _ _ _ no_gap1 Hl1) as Hc1.
    split; [rewrite !length_app; simpl; lia|].
    split.
    { rewrite degap_snoc, Hd1 by exact Hc1.
      replace i with (S (i - 1)) at 2 by lia. by rewrite (take_S_r _ _ c1). }
    split; [by rewrite degap_gap|].
    split; [by rewrite columns_score_snoc, column_score_gap_r|].
    apply no_double_gap_snoc; [exact Hlen | exact Hndg | tauto]. }
  assert (Hleft_step : 0 < j → ∀ c2, s2 !! (j - 1) = Some c2 →
            ∀ p1 p2,
              length p1 = length p2 →
              degap p1 = take i s1 → degap p2 = take (j - 1) s2 →
              no_double_gap p1 p2 →
              length (p1 ++ ["-"%char]) = length (p2 ++ [c2]) ∧
              degap (p1 ++ ["-"%char]) = take i s1 ∧
              degap (p2 ++ [c2]) = take j s2 ∧
              columns_score scoring (p1 ++ ["-"%char]) (p2 ++ [c2])
                = (columns_score scoring p1 p2 + gap)%Z ∧
              no_double_gap (p1 ++ ["-"%char]) (p2 ++ [c2])).
  { intros Hj0 c2 Hl2 p1 p2 Hlen Hd1 Hd2 Hndg.
    pose proof (lookup_no_gap _ _ _ no_gap2 Hl2) as Hc2.
    split; [rewrite !length_app; simpl; lia|].
    split; [by rewrite degap_gap|].
    split.
    { rewrite degap_snoc, Hd2 by exact Hc2.
      replace j with (S (j - 1)) at 2 by lia. by rewrite (take_S_r _ _ c2). }
    split; [by rewrite columns_score_snoc, column_score_gap_l|].
    apply no_double_gap_snoc; [exact Hlen | exact Hndg | tauto]. }
  case_decide as Hi0.
  { (* first row: only gaps in the first sequence *)
    subst i. destruct (get_lt s2 (j - 1)) as (c2 & Hg2 & Hl2); [lia|].
    rewrite Hg2. simpl.
    destruct (IH 0 (j - 1) ("-"%char :: a1) (c2 :: a2))
      as (p1 & p2 & Hrun & Hlen & Hd1 & Hd2 & Hsc & Hndg); [lia | lia | lia |].
    destruct (Hleft_step ltac:(lia) c2 Hl2 p1 p2 Hlen Hd1 Hd2 Hndg)
      as (Hlen' & Hd1' & Hd2' & Hsc' & Hndg').
    exists (p1 ++ ["-"%char]), (p2 ++ [c2]).
    rewrite <- !app_assoc. simpl. split; [exact Hrun|].
    split; [exact Hlen'|]. split; [exact Hd1'|]. split; [exact Hd2'|].
    split; [|exact Hndg'].
    rewrite Hsc', <- Hsc, !N_rec_row.
    replace j with (S (j - 1)) at 1 by lia. rewrite Nat2Z.inj_succ. lia. }
  case_decide as Hj0.
  { (* first column: only gaps in the second sequence *)
    subst j. destruct (get_lt s1 (i - 1)) as (c1 & Hg1 & Hl1); [lia|].
    rewrite Hg1. simpl.
    destruct (IH (i - 1) 0 (c1 :: a1) ("-"%char :: a2))
      as (p1 & p2 & Hrun & Hlen & Hd1 & Hd2 & Hsc & Hndg); [lia | lia | lia |].
    destruct (Hup_step ltac:(lia) c1 Hl1 p1 p2 Hlen Hd1 Hd2 Hndg)
      as (Hlen' & Hd1' & Hd2' & Hsc' & Hndg').
    exists (p1 ++ [c1]), (p2 ++ ["-"%char]).
    rewrite <- !app_assoc. simpl. split; [exact Hrun|].
    split; [exact Hlen'|]. split; [exact Hd1'|]. split; [exact Hd2'|].
    split; [|exact Hndg'].
    rewrite Hsc', <- Hsc, !N_rec_column.
    replace i with (S (i - 1)) at 1 by lia. rewrite Nat2Z.inj_succ. lia. }
  rewrite (traceback_filled i j Hi Hj). simpl.
  destruct (get_lt s1 (i - 1)) as (c1 & Hg1 & Hl1); [lia|].
  destruct (get_lt s2 (j - 1)) as (c2 & Hg2 & Hl2); [lia|].
  pose proof (lookup_no_gap _ _ _ no_gap1 Hl1) as Hc1.
  pose proof (lookup_no_gap _ _ _ no_gap2 Hl2) as Hc2.
  pose proof (nw_choose_cases
                (Nr (i - 1) (j - 1) + cell_score s1 s2 scoring i j)
                (Nr (i - 1) j + gap) (Nr i (j - 1) + gap)) as Hcases.
  rewrite (nrec_cell s1 s2 scoring i j) in Hcases by lia.
  destruct Hcases as (_ & Hcases).
  rewrite (cell_score_get s1 s2 scoring i j c1 c2 Hl1 Hl2) in Hcases.
  destruct (Nd i j) eqn:Hdir.
  - (* DIAGONAL *)
    destruct Hcases as [[_ Hbest]|[[? _]|[? _]]]; try discriminate.
    rewrite Hg1, Hg2. simpl.
    destruct (IH (i - 1) (j - 1) (c1 :: a1) (c2 :: a2))
      as (p1 & p2 & Hrun & Hlen & Hd1 & Hd2 & Hsc & Hndg); [lia | lia | lia |].
    exists (p1 ++ [c1]), (p2 ++ [c2]).
    rewrite <- !app_assoc. simpl. split; [exact Hrun|].
    split; [rewrite !length_app; simpl; lia|].
    split.
    { rewrite degap_snoc, Hd1 by exact Hc1.
      replace i with (S (i - 1)) at 2 by lia. by rewrite (take_S_r _ _ c1). }
    split.
    { rewrite degap_snoc, Hd2 by exact Hc2.
      replace j with (S (j - 1)) at 2 by lia. by rewrite (take_S_r _ _ c2). }
    split.
    { rewrite columns_score_snoc, column_score_bases by done. lia. }
    apply no_double_gap_snoc; [exact Hlen | exact Hndg | tauto].
  - (* UP *)
    destruct Hcases as [[? _]|[[_ Hbest]|[? _]]]; try discriminate.
    rewrite Hg1. simpl.
    destruct (IH (i - 1) j (c1 :: a1) ("-"%char :: a2))
      as (p1 & p2 & Hrun & Hlen & Hd1 & Hd2 & Hsc & Hndg); [lia | lia | lia |].
    destruct (Hup_step ltac:(lia) c1 Hl1 p1 p2 Hlen Hd1 Hd2 Hndg)
      as (Hlen' & Hd1' & Hd2' & Hsc' & Hndg').
    exists (p1 ++ [c1]), (p2 ++ ["-"%char]).
    rewrite <- !app_assoc. simpl. split; [exact Hrun|].
    split; [exact Hlen'|]. split; [exact Hd1'|]. split; [exact Hd2'|].
    split; [|exact Hndg']. rewrite Hsc'. lia.
  - (* LEFT *)
    destruct Hcases as [[? _]|[[? _]|[_ Hbest]]]; try discriminate.
    rewrite Hg2. simpl.
    destruct (IH i (j - 1) ("-"%char :: a1) (c2 :: a2))
      as (p1 & p2 & Hrun & Hlen & Hd1 & Hd2 & Hsc & Hndg); [lia | lia | lia |].
    destruct (Hleft_step ltac:(lia) c2 Hl2 p1 p2 Hlen Hd1 Hd2 Hndg)
      as (Hlen' & Hd1' & Hd2' & Hsc' & Hndg').
    exists (p1 ++ ["-"%char]), (p2 ++ [c2]).
    rewrite <- !app_assoc. simpl. split; [exact Hrun|].
    split; [exact Hlen'|]. split; [exact Hd1'|]. split; [exact Hd2'|].
    split; [|exact Hndg']. rewrite Hsc'. lia.
  - (* STOP does not occur in an interior cell *)
    destruct Hcases as [[? _]|[[? _]|[? _]]]; discriminate.
Qed.

End GlobalTraceback.

(** X25: on valid sequences [needleman_wunsch] returns a global alignment
    that satisfies the class invariant; each row with its gap symbols
    removed is the whole of its sequence; no column holds two gap symbols,
    so the alignment length lies between the longer length and the sum of
    the two lengths; the score is the sum of the column scores of the two
    rows (the gap penalty for a column with a gap, the pair score
    otherwise); and the recorded span is [0] to the alignment length on both
    sides, not to the sequence lengths. *)
Theorem needleman_wunsch_score (seq1 seq2 : Sequence.t)
    (scoring : option ScoringMatrix.t) (sc : ScoringMatrix.t) :
  scoring_or_default scoring = Ok sc →
  Sequence.ok seq1 → Sequence.ok seq2 →
  ∃ al,
    needleman_wunsch seq1 seq2 scoring = Ok al ∧
    AlignmentOps.ok al ∧
    Alignment.alignment_type al = GLOBAL ∧
    degap (Alignment.aligned_seq1 al) = Sequence.bases seq1 ∧
    degap (Alignment.aligned_seq2 al) = Sequence.bases seq2 ∧
    no_double_gap (Alignment.aligned_seq1 al) (Alignment.aligned_seq2 al) ∧
    Alignment.score al
      = columns_score sc (Alignment.aligned_seq1 al)
          (Alignment.aligned_seq2 al) ∧
    Sequence.len seq1 `max` Sequence.len seq2
      ≤ AlignmentOps.alignment_length al ∧
    AlignmentOps.alignment_length al
      ≤ Sequence.len seq1 + Sequence.len seq2 ∧
    Alignment.start1 al = 0 ∧ Alignment.start2 al = 0 ∧
    Alignment.end1 al = AlignmentOps.alignment_length al ∧
    Alignment.end2 al = AlignmentOps.alignment_length al.
Proof.
  intros Hsc Hok1 Hok2.
  pose proof (ok_no_gap _ Hok1) as Hg1. pose proof (ok_no_gap _ Hok2) as Hg2.
  destruct Hok1 as [Hne1 _], Hok2 as [Hne2 _].
  unfold needleman_wunsch. rewrite Hsc. simpl.
  case_decide as Hempty.
  { unfold Sequence.len in Hempty.
    destruct Hempty as [H0|H0]; apply length_zero_iff_nil in H0; congruence. }
  destruct (nw_fill_values (Sequence.bases seq1) (Sequence.bases seq2) sc)
    as (H & T & Hfill & HdH & HdT & Hcells).
  rewrite Hfill. simpl.
  destruct (traceback_global_loop_path (Sequence.bases seq1)
              (Sequence.bases seq2) sc T
              (λ a b Ha Hb, proj2 (Hcells a b Ha Hb)) Hg1 Hg2
              (Sequence.len seq1 + Sequence.len seq2)
              (Sequence.len seq1) (Sequence.len seq2) [] [])
    as (p1 & p2 & Hrun & Hlen & Hd1 & Hd2 & Hscore & Hndg);
    [unfold Sequence.len; lia | unfold Sequence.len; lia | lia |].
  unfold _traceback_global. rewrite Hrun, !app_nil_r. simpl.
  destruct (Hcells (Sequence.len seq1) (Sequence.len seq2)) as [Hget _];
    [unfold Sequence.len; lia | unfold Sequence.len; lia |].
  rewrite Hget. simpl. unfold Alignment.new, Alignment.init.
  case_decide; [done|]. eexists. split; [reflexivity|]. simpl.
  unfold AlignmentOps.alignment_length, Sequence.len in *. simpl.
  rewrite firstn_all in Hd1, Hd2.
  pose proof (length_degap p1) as Hl1. pose proof (length_degap p2) as Hl2.
  pose proof (gaps_le_length p1 p2 Hlen Hndg) as Hgaps.
  rewrite Hd1 in Hl1. rewrite Hd2 in Hl2.
  split; [by split|]. split; [reflexivity|].
  split; [exact Hd1|]. split; [exact Hd2|]. split; [exact Hndg|].
  split; [exact Hscore|]. split; [lia|]. split; [lia|].
  repeat split; try reflexivity. by rewrite Hlen.
Qed.

Lemma needleman_wunsch_score_witness :
  ∃ al,
    needleman_wunsch (Sequence.mk (lit "GATTACA") None None DNA true)
      (Sequence.mk (lit "GCATGCT") None None DNA true) None = Ok al ∧
    Alignment.score al
      = columns_score (ScoringMatrix.mk 2 (-1) (-2) (-1))
          (Alignment.aligned_seq1 al) (Alignment.aligned_seq2 al).
Proof.
  destruct (needleman_wunsch_score
              (Sequence.mk (lit "GATTACA") None None DNA true)
              (Sequence.mk (lit "GCATGCT") None None DNA true) None
              (ScoringMatrix.mk 2 (-1) (-2) (-1)))
    as (al & Hal & _ & _ & _ & _ & _ & Hscore & _).
  - reflexivity.
  - split; [discriminate | reflexivity].
  - split; [discriminate | reflexivity].
  - exists al. split; [exact Hal | exact Hscore].
Defined.

(** ** Outcomes of the aligners *)

Lemma smith_waterman_empty (seq1 seq2 : Sequence.t)
    (scoring : option ScoringMatrix.t) :
  Sequence.len seq1 = 0 ∨ Sequence.len seq2 = 0 →
  smith_waterman seq1 seq2 scoring = Err ValueError.
Proof.
  intros Hempty. destruct (scoring_or_default_Ok scoring) as [sc Hsc].
  unfold smith_waterman. rewrite Hsc. simpl. by case_decide.
Qed.

(** X26: each of [smith_waterman], [needleman_wunsch] and
    [alignment_score_only] raises [ValueError] when one of the two
    sequences is empty and returns a result otherwise, whatever the symbols
    of the sequences and the scoring matrix: no subscript leaves its list
    and the traceback loops end. [simple_align] is [smith_waterman] under
    the default scoring. *)
Theorem aligners_outcome (seq1 seq2 : Sequence.t)
    (scoring : option ScoringMatrix.t) :
  (Sequence.len seq1 = 0 ∨ Sequence.len seq2 = 0 →
   smith_waterman seq1 seq2 scoring = Err ValueError ∧
   needleman_wunsch seq1 seq2 scoring = Err ValueError ∧
   alignment_score_only seq1 seq2 scoring = Err ValueError) ∧
  (Sequence.len seq1 ≠ 0 → Sequence.len seq2 ≠ 0 →
   (∃ al, smith_waterman seq1 seq2 scoring = Ok al) ∧
   (∃ al, needleman_wunsch seq1 seq2 scoring = Ok al) ∧
   (∃ v, alignment_score_only seq1 seq2 scoring = Ok v)) ∧
  simple_align seq1 seq2 = smith_waterman seq1 seq2 None.
Proof.
  destruct (scoring_or_default_Ok scoring) as [sc Hsc].
  split; [|split].
  - intros Hempty. split; [by apply smith_waterman_empty|].
    unfold needleman_wunsch, alignment_score_only. rewrite Hsc. simpl.
    by case_decide.
  - intros H1 H2.
    destruct (smith_waterman_score seq1 seq2 scoring sc Hsc H1 H2)
      as (al & Hal & _).
    destruct (needleman_wunsch_spec seq1 seq2 scoring H1 H2)
      as (al' & Hal' & _).
    split; [by exists al|]. split; [by exists al'|].
    eexists. by apply alignment_score_only_score.
  - reflexivity.
Qed.

Lemma aligners_outcome_witness :
  (∃ al, smith_waterman (Sequence.mk (lit "AC-G") None None UNKNOWN true)
           (Sequence.mk (lit "xyz") None None UNKNOWN true) None = Ok al) ∧
  needleman_wunsch (Sequence.mk [] None None DNA true)
    (Sequence.mk (lit "ACGT") None None DNA true) None = Err ValueError.
Proof.
  destruct (aligners_outcome (Sequence.mk (lit "AC-G") None None UNKNOWN true)
              (Sequence.mk (lit "xyz") None None UNKNOWN true) None)
    as (_ & Hok & _).
  destruct (aligners_outcome (Sequence.mk [] None None DNA true)
              (Sequence.mk (lit "ACGT") None None DNA true) None)
    as (Herr & _ & _).
  split.
  - apply Hok; vm_compute; discriminate.
  - apply Herr. left. reflexivity.
Defined.

(** ** Several targets *)

Lemma align_each_Err (query : Sequence.t) (sc : ScoringMatrix.t)
    (targets : list Sequence.t) (i : nat) (results : list (nat * Alignment.t)) :
  targets ≠ [] →
  Sequence.len query = 0 ∨ Exists (λ t, Sequence.len t = 0) targets →
  align_each query sc i targets results = Err ValueError.
Proof.
  revert i results.
  induction targets as [|target rest IH]; intros i results Hne Hbad; [done|].
  simpl.
  destruct (decide (Sequence.len query = 0 ∨ Sequence.len target = 0))
    as [Hempty|Hfull].
  { by rewrite smith_waterman_empty. }
  destruct (smith_waterman_score query target (Some sc) sc eq_refl)
    as (al & Hal & _); [lia | lia |].
  rewrite Hal. simpl. apply IH.
  - intros ->. destruct Hbad as [?|Hbad]; [lia|].
    apply Exists_cons in Hbad as [?|Hbad]; [lia|]. by apply Exists_nil in Hbad.
  - destruct Hbad as [?|Hbad]; [lia|].
    apply Exists_cons in Hbad as [?|Hbad]; [lia|]. by right.
Qed.

Lemma align_each_length (query : Sequence.t) (sc : ScoringMatrix.t)
    (targets : list Sequence.t) (i : nat)
    (results r : list (nat * Alignment.t)) :
  align_each query sc i targets results = Ok r →
  length r = length results + length targets.
Proof.
  revert i results.
  induction targets as [|target rest IH]; intros i results Hrun; simpl in *.
  { injection Hrun as <-. lia. }
  destruct (smith_waterman query target (Some sc)) as [al|e]; [|discriminate].
  simpl in Hrun. apply IH in Hrun. rewrite length_app in Hrun. simpl in *. lia.
Qed.

(** X27: [align_against_multiple] raises [ValueError] when there is no
    target, when the query is empty or when some target is empty; otherwise
    it returns one pair per target, in the order of the targets, the pair
    at position [i] holding the index [i] and the alignment that
    [smith_waterman] returns for the query and that target. *)
Theorem align_against_multiple_outcome (query : Sequence.t)
    (targets : list Sequence.t) (scoring : option ScoringMatrix.t) :
  (targets = [] ∨ Sequence.len query = 0 ∨
   Exists (λ t, Sequence.len t = 0) targets →
   align_against_multiple query targets scoring = Err ValueError) ∧
  (targets ≠ [] → Sequence.len query ≠ 0 →
   Forall (λ t, Sequence.len t ≠ 0) targets →
   ∃ als,
     align_against_multiple query targets scoring
       = Ok (zip (seq 0 (length targets)) als) ∧
     length als = length targets ∧
     Forall2 (λ t al, smith_waterman query t scoring = Ok al) targets als).
Proof.
  destruct (scoring_or_default_Ok scoring) as [sc Hsc].
  unfold align_against_multiple. rewrite Hsc. simpl. split.
  - intros Hbad. case_decide as Hlen; [reflexivity|].
    apply align_each_Err.
    + intros ->. by apply Hlen.
    + destruct Hbad as [->|[?|?]]; [done | by left | by right].
  - intros Hne Hq Hts. case_decide as Hlen.
    { apply length_zero_iff_nil in Hlen. congruence. }
    destruct (align_each_spec query sc targets 0 [] Hq Hts) as (als & Hrun & Hals).
    exists als. split; [exact Hrun|].
    split; [symmetry; by eapply Forall2_length|].
    eapply Forall2_impl; [exact Hals|]. intros t al Hal. simpl in Hal.
    by rewrite <- (smith_waterman_default _ _ _ _ Hsc).
Qed.

Lemma align_against_multiple_outcome_witness :
  align_against_multiple (Sequence.mk (lit "ACGT") None None DNA true)
    [Sequence.mk (lit "ACGT") None None DNA true;
     Sequence.mk [] None None DNA true] None = Err ValueError.
Proof.
  apply align_against_multiple_outcome. right. right.
  apply Exists_cons_tl, Exists_cons_hd. reflexivity.
Defined.

(** X28: [find_best_alignment] never returns [None]: it raises exactly
    when [align_against_multiple] raises, with the same exception, and
    otherwise returns one of the pairs of that list. *)
Theorem find_best_alignment_some (query : Sequence.t)
    (targets : list Sequence.t) (scoring : option ScoringMatrix.t) :
  find_best_alignment query targets scoring ≠ Ok None ∧
  (∀ e, find_best_alignment query targets scoring = Err e ↔
        align_against_multiple query targets scoring = Err e) ∧
  (∀ best, find_best_alignment query targets scoring = Ok (Some best) →
     ∃ als, align_against_multiple query targets scoring = Ok als ∧
            best ∈ als).
Proof.
  unfold find_best_alignment.
  destruct (align_against_multiple query targets scoring) as [als|e] eqn:Hrun;
    simpl.
  - assert (Hne : als ≠ []).
    { intros ->. unfold align_against_multiple in Hrun.
      destruct (scoring_or_default scoring) as [sc|]; [|discriminate].
      simpl in Hrun. case_decide as Hlen; [discriminate|].
      apply align_each_length in Hrun. simpl in Hrun. lia. }
    destruct als as [|first others]; [done|].
    split; [discriminate|]. split; [intros e; split; discriminate|].
    intros best Hbest. injection Hbest as <-.
    exists (first :: others). split; [reflexivity|].
    destruct (max_by_first (λ x : nat * Alignment.t, Alignment.score x.2)
                first others) as (k & Hk & _).
    by eapply list_elem_of_lookup_2.
  - split; [discriminate|]. split; [|discriminate].
    intros e'. split; intros [= ->]; reflexivity.
Qed.

Lemma find_best_alignment_some_witness :
  ∃ best als,
    find_best_alignment (Sequence.mk (lit "ACGT") None None DNA true)
      [Sequence.mk (lit "TTAC") None None DNA true;
       Sequence.mk (lit "CGTA") None None DNA true] None = Ok (Some best) ∧
    align_against_multiple (Sequence.mk (lit "ACGT") None None DNA true)
      [Sequence.mk (lit "TTAC") None None DNA true;
       Sequence.mk (lit "CGTA") None None DNA true] None = Ok als ∧
    best ∈ als.
Proof.
  assert (∃ best,
            find_best_alignment (Sequence.mk (lit "ACGT") None None DNA true)
              [Sequence.mk (lit "TTAC") None None DNA true;
               Sequence.mk (lit "CGTA") None None DNA true] None
            = Ok (Some best)) as [best Hbest].
  { eexists. vm_compute. reflexivity. }
  destruct (find_best_alignment_some
              (Sequence.mk (lit "ACGT") None None DNA true)
              [Sequence.mk (lit "TTAC") None None DNA true;
               Sequence.mk (lit "CGTA") None None DNA true] None)
    as (_ & _ & Hin).
  destruct (Hin best Hbest) as (als & Hals & Hmem).
  exists best, als. split; [exact Hbest|]. split; [exact Hals | exact Hmem].
Defined.

(** ** Scoring matrices *)



(** X30: the gap extension penalty of a scoring matrix is never read by the
    aligners: on two matrices that differ only in it, [smith_waterman],
    [needleman_wunsch] and [alignment_score_only] return the same, so every
    gap symbol costs the gap opening penalty. *)
Theorem gap_extend_unused (seq1 seq2 : Sequence.t) (a b c d d' : Z) :
  smith_waterman seq1 seq2 (Some (ScoringMatrix.mk a b c d))
    = smith_waterman seq1 seq2 (Some (ScoringMatrix.mk a b c d')) ∧
  needleman_wunsch seq1 seq2 (Some (ScoringMatrix.mk a b c d))
    = needleman_wunsch seq1 seq2 (Some (ScoringMatrix.mk a b c d')) ∧
  alignment_score_only seq1 seq2 (Some (ScoringMatrix.mk a b c d))
    = alignment_score_only seq1 seq2 (Some (ScoringMatrix.mk a b c d')).
Proof.
  split; [|split].
  - unfold smith_waterman, sw_fill. simpl. case_decide; reflexivity.
  - unfold needleman_wunsch, nw_fill. simpl. case_decide; reflexivity.
  - unfold alignment_score_only, so_row. simpl. case_decide; reflexivity.
Qed.
